(** * The document ingestion and chunking pipeline of the medical chatbot

    A shallow embedding of [src/helper.py] (End-to-End-medical-Chatbot):
    the directory loader, the semantic chunk splitter and the embedding
    model initializer, together with the part of the text splitting
    library that the splitter drives.

    Python objects live in a heap of [Document] and [dict] objects that are
    addressed by location, so that copying a dict and assigning an attribute
    are different things.  A computation threads the heap and the log
    records of the [logging] module, and ends in a value or in a raised
    exception.

    The embedding extends to the code around these functions: the
    backward compatibility functions of [helper.py], the ingestion
    statements of [store_index.py], the start-up and the query endpoint of
    [app.py], the keyword matching of [simple_app.py], and the
    transcription tool. *)

From Stdlib Require Import ZArith Ascii String List Lia.
From stdpp Require Import base tactics option list gmap strings.
From Equations Require Import Equations.

(** ** Python strings *)

(** A [str] is a sequence of characters; [len] counts them. *)
Abbreviation text := (list ascii).

Definition lit (s : string) : text := list_ascii_of_string s.
Arguments lit s%_string : simpl never.

Definition len {A} (l : list A) : Z := Z.of_nat (length l).
Arguments len : simpl never.

(** [bool(s)] of a string or list: non-empty. *)
Definition truthy {A} (l : list A) : bool :=
  match l with [] => false | _ => true end.

(** [str.isspace] on a single character (code points below 256). *)
Definition isspace (c : ascii) : bool :=
  let n := N_of_ascii c in
  ((9 <=? n) && (n <=? 13) || (28 <=? n) && (n <=? 32)
   || (n =? 133) || (n =? 160))%N.

Fixpoint lstrip (s : text) : text :=
  match s with
  | c :: rest => if isspace c then lstrip rest else s
  | [] => []
  end.

Definition rstrip (s : text) : text := rev (lstrip (rev s)).

(** [s.strip()] *)
Definition strip (s : text) : text := rstrip (lstrip s).

(** [s.startswith(prefix)] *)
Fixpoint startswith (prefix s : text) : bool :=
  match prefix, s with
  | [], _ => true
  | p :: prefix', c :: s' => bool_decide (p = c) && startswith prefix' s'
  | _ :: _, [] => false
  end.

(** [separator.join(parts)] *)
Fixpoint str_join (separator : text) (parts : list text) : text :=
  match parts with
  | [] => []
  | [p] => p
  | p :: rest => p ++ separator ++ str_join separator rest
  end.

(** [list(s)]: the characters of [s] as one-character strings. *)
Definition chars (s : text) : list text := (λ c, [c]) <$> s.

Fixpoint find_at (sub s : text) (i : Z) : Z :=
  if startswith sub s then i
  else match s with
       | [] => (-1)%Z
       | _ :: rest => find_at sub rest (i + 1)%Z
       end.

(** [s.find(sub, start)] for [start >= 0]. *)
Definition str_find (s sub : text) (start : Z) : Z :=
  if (len s <? start)%Z then (-1)%Z
  else find_at sub (drop (Z.to_nat start) s) start.

(** ** Exceptions and results *)

(** The exception classes that occur; all derive from [Exception]. *)
Inductive exn_class :=
  | ValueError | FileNotFoundError | IndexError | AttributeError
  | ZeroDivisionError | OSError | PdfReadError.

Record exn := Exn { exn_type : exn_class; exn_message : text }.

#[global] Instance exn_class_eq_dec : EqDecision exn_class.
Proof. solve_decision. Defined.

Inductive result (A : Type) :=
  | Ok (a : A)
  | Raise (e : exn).
Arguments Ok {A} a.
Arguments Raise {A} e.

#[global] Instance result_ret : MRet result := λ A a, Ok a.
#[global] Instance result_bind : MBind result := λ A B f m,
  match m with Ok a => f a | Raise e => Raise e end.

Definition index_error {A} : result A :=
  Raise (Exn IndexError (lit "list index out of range")).

(** A [for] loop with loop-carried state [st]. *)
Fixpoint for_each {M} `{!MBind M, !MRet M} {A S}
  (xs : list A) (st : S) (body : S → A → M S) : M S :=
  match xs with
  | [] => mret st
  | x :: rest => st' ← body st x; for_each rest st' body
  end.

(** [enumerate(xs)] *)
Definition enumerate {A} (xs : list A) : list (Z * A) :=
  imap (λ i x, (Z.of_nat i, x)) xs.

(** ** Objects, heap and log *)

(** Metadata values are scalars. *)
Inductive value :=
  | VStr (s : text)
  | VInt (n : Z).

Abbreviation loc := nat.

(** The two classes of objects the pipeline allocates: a LangChain
    [Document], whose [metadata] attribute refers to a dict object, and a
    [dict] from strings to scalars. *)
Inductive object :=
  | Document (page_content : text) (metadata : loc)
  | Dict (items : gmap text value).

Inductive level := DEBUG | INFO | WARNING | ERROR.

(** A log message is an f-string: literal parts and interpolated values.
    [Mean total count] stands for the float [total / count]. *)
Inductive fragment :=
  | Lit (s : string)
  | Str (s : text)
  | Num (n : Z)
  | Mean (total count : Z).
Arguments Lit s%_string.

Record log_record := LogRecord {
  levelname : level;
  message : list fragment
}.

#[projections(primitive)] Record state := State {
  heap : gmap loc object;
  next_loc : loc;
  log : list log_record
}.

(** A computation: from a state to a value or a raised exception, and the
    state it leaves. *)
Definition M (A : Type) : Type := state → result A * state.

#[global] Instance M_ret : MRet M := λ A a σ, (Ok a, σ).
#[global] Instance M_bind : MBind M := λ A B f m σ,
  match m σ with
  | (Ok a, σ') => f a σ'
  | (Raise e, σ') => (Raise e, σ')
  end.

Definition raise {A} (e : exn) : M A := λ σ, (Raise e, σ).

Definition lift {A} (r : result A) : M A := λ σ, (r, σ).

(** [try: body except Exception as e: handler(e)] *)
Definition try_except {A} (body : M A) (handler : exn → M A) : M A := λ σ,
  match body σ with
  | (Ok a, σ') => (Ok a, σ')
  | (Raise e, σ') => handler e σ'
  end.

(** [if c: stmt] *)
Definition when (c : bool) (stmt : M unit) : M unit :=
  if c then stmt else mret ().

(** [logger.<lvl>(msg)] *)
Definition logger (lvl : level) (msg : list fragment) : M unit := λ σ,
  (Ok (), State (heap σ) (next_loc σ) (log σ ++ [LogRecord lvl msg])).

Definition alloc (o : object) : M loc := λ σ,
  (Ok (next_loc σ),
   State (<[next_loc σ := o]> (heap σ)) (S (next_loc σ)) (log σ)).

Definition store (l : loc) (o : object) : M unit := λ σ,
  (Ok (), State (<[l := o]> (heap σ)) (next_loc σ) (log σ)).

Definition attribute_error {A} : M A :=
  raise (Exn AttributeError (lit "object has no such attribute")).

(** [Document(page_content=content, metadata=md)] *)
Definition new_document (content : text) (md : loc) : M loc :=
  alloc (Document content md).

(** [doc.page_content] *)
Definition get_page_content (doc : loc) : M text := λ σ,
  match heap σ !! doc with
  | Some (Document content _) => (Ok content, σ)
  | _ => attribute_error σ
  end.

(** [doc.metadata] *)
Definition get_metadata (doc : loc) : M loc := λ σ,
  match heap σ !! doc with
  | Some (Document _ md) => (Ok md, σ)
  | _ => attribute_error σ
  end.

(** [doc.metadata = md] *)
Definition set_metadata (doc md : loc) : M unit := λ σ,
  match heap σ !! doc with
  | Some (Document content _) => store doc (Document content md) σ
  | _ => attribute_error σ
  end.

Definition dict_items (d : loc) : M (gmap text value) := λ σ,
  match heap σ !! d with
  | Some (Dict items) => (Ok items, σ)
  | _ => attribute_error σ
  end.

(** [{k1: v1, ...}] and the effect of [update] on the items of a dict. *)
Definition with_items (items : gmap text value) (kvs : list (text * value))
  : gmap text value :=
  foldl (λ d kv, <[kv.1 := kv.2]> d) items kvs.

Definition new_dict (kvs : list (text * value)) : M loc :=
  alloc (Dict (with_items ∅ kvs)).

(** [d.copy()], and [copy.deepcopy(d)] of a dict of scalars. *)
Definition dict_copy (d : loc) : M loc :=
  items ← dict_items d; alloc (Dict items).

(** [d.get(key, default)] *)
Definition dict_get (d : loc) (key : text) (dflt : value) : M value :=
  items ← dict_items d; mret (default dflt (items !! key)).

(** [d.update({k1: v1, ...})] *)
Definition dict_update (d : loc) (kvs : list (text * value)) : M unit :=
  items ← dict_items d; store d (Dict (with_items items kvs)).

(** [d[key] = v] *)
Definition dict_setitem (d : loc) (key : text) (v : value) : M unit :=
  dict_update d [(key, v)].

(** ** The text splitting library

    [helper.py] builds a [RecursiveCharacterTextSplitter] and calls its
    [split_documents].  The class belongs to the LangChain text splitting
    package, an external dependency that is not among the source files of
    the repository; this module follows the package's [character.py] and
    [base.py], with the keyword arguments fixed to what [helper.py] passes
    or leaves at their defaults:
    [keep_separator=True], [is_separator_regex=False], [length_function=len],
    [strip_whitespace=True], [add_start_index=True].  The library's own
    log records are left out. *)
Module LangChain.

Local Open Scope Z_scope.

Record TextSplitter := {
  _chunk_size : Z;
  _chunk_overlap : Z;
  _separators : list text
}.

(** [re.search(re.escape(sep), s)] for a non-empty literal [sep]. *)
Fixpoint re_search (sep s : text) : bool :=
  startswith sep s
  || match s with [] => false | _ :: rest => re_search sep rest end.

(** [re.split("(" + re.escape(sep) + ")", s)] for a non-empty literal
    [sep]: the pieces between the matches with the matches themselves in
    between, scanning left to right without overlap.  [skip] counts the
    characters of the current match still to be passed over, [cur] is the
    piece under construction. *)
Fixpoint re_split_from (sep s : text) (skip : nat) (cur : text)
  : list text :=
  match s with
  | [] => [cur]
  | c :: rest =>
      match skip with
      | S k => re_split_from sep rest k cur
      | O =>
          if startswith sep s
          then cur :: sep :: re_split_from sep rest (length sep - 1) []
          else re_split_from sep rest 0 (cur ++ [c])
      end
  end.

Definition re_split_capture (sep s : text) : list text :=
  re_split_from sep s 0 [].

(** [[_splits[i] + _splits[i + 1] for i in range(1, len(_splits), 2)]],
    given [_splits[1:]]. *)
Fixpoint pair_up (tail : list text) : result (list text) :=
  match tail with
  | [] => Ok []
  | [_] => index_error
  | a :: b :: rest => ps ← pair_up rest; Ok ((a ++ b) :: ps)
  end.

(** [_split_text_with_regex(text, separator, keep_separator=True)] *)
Definition _split_text_with_regex (s separator : text)
  : result (list text) :=
  splits ←
    (if truthy separator then
       let _splits := re_split_capture separator s in
       splits ← pair_up (tail _splits);
       let splits :=
         if Z.even (len _splits)
         then splits ++ drop (length _splits - 1) _splits else splits in
       match _splits with
       | [] => index_error
       | first :: _ => Ok (first :: splits)
       end
     else Ok (chars s));
  Ok (filter (λ p, p ≠ []) splits).

Section splitter.
Variable self : TextSplitter.

(** [TextSplitter._join_docs] *)
Definition _join_docs (docs : list text) (separator : text)
  : option text :=
  let joined := strip (str_join separator docs) in
  if truthy joined then Some joined else None.

Definition sep_if (c : bool) (separator_len : Z) : Z :=
  if c then separator_len else 0.

(** The [while] loop of [_merge_splits] that drops pieces from the
    front of [current_doc] until what is left fits the overlap. *)
Fixpoint pop_front (separator_len _len : Z) (current_doc : list text)
  (total : Z) : result (list text * Z) :=
  if (_chunk_overlap self <? total)
     || ((_chunk_size self
            <? total + _len + sep_if (0 <? len current_doc) separator_len)
         && (0 <? total))
  then
    match current_doc with
    | [] => index_error
    | first :: rest =>
        pop_front separator_len _len rest
          (total - (len first + sep_if (1 <? len current_doc) separator_len))
    end
  else Ok (current_doc, total).

(** One iteration of the [for d in splits] loop of [_merge_splits];
    the state is [(docs, current_doc, total)]. *)
Definition merge_step (separator : text)
  (st : list text * list text * Z) (d : text)
  : result (list text * list text * Z) :=
  let '(docs, current_doc, total) := st in
  let separator_len := len separator in
  let _len := len d in
  '(docs, current_doc, total) ←
    (if _chunk_size self
          <? total + _len + sep_if (0 <? len current_doc) separator_len
     then
       if 0 <? len current_doc then
         let docs :=
           match _join_docs current_doc separator with
           | Some doc => docs ++ [doc]
           | None => docs
           end in
         '(current_doc, total) ←
           pop_front separator_len _len current_doc total;
         Ok (docs, current_doc, total)
       else Ok (docs, current_doc, total)
     else Ok (docs, current_doc, total));
  let current_doc := current_doc ++ [d] in
  Ok (docs, current_doc,
      total + _len + sep_if (1 <? len current_doc) separator_len).

(** [TextSplitter._merge_splits] *)
Definition _merge_splits (splits : list text) (separator : text)
  : result (list text) :=
  '(docs, current_doc, _) ←
    for_each splits ([], [], 0) (merge_step separator);
  match _join_docs current_doc separator with
  | Some doc => Ok (docs ++ [doc])
  | None => Ok docs
  end.

(** The [for i, _s in enumerate(separators)] loop of [_split_text]:
    the separator to split on and the separators left for the pieces
    that are still too long. *)
Fixpoint scan_separators (s : text) (separators : list text)
  (default : text) : text * list text :=
  match separators with
  | [] => (default, [])
  | _s :: rest =>
      if negb (truthy _s) then (_s, [])
      else if re_search _s s then (_s, rest)
      else scan_separators s rest default
  end.

Definition choose_separator (s : text) (separators : list text)
  : result (text * list text) :=
  match last separators with
  | None => index_error
  | Some default => Ok (scan_separators s separators default)
  end.

(** The [for s in splits] loop of [_split_text] and the merge of the
    good splits left at its end; [recur] is the recursive call on the
    remaining separators.  The state is [(final_chunks, _good_splits)]. *)
Definition split_step (new_separators : list text)
  (recur : text → result (list text))
  (st : list text * list text) (s : text)
  : result (list text * list text) :=
  let '(final_chunks, _good_splits) := st in
  if len s <? _chunk_size self then Ok (final_chunks, _good_splits ++ [s])
  else
    final_chunks ←
      (if truthy _good_splits then
         merged_text ← _merge_splits _good_splits [];
         Ok (final_chunks ++ merged_text)
       else Ok final_chunks);
    if negb (truthy new_separators) then Ok (final_chunks ++ [s], [])
    else
      other_info ← recur s;
      Ok (final_chunks ++ other_info, []).

Definition split_pieces (new_separators : list text)
  (recur : text → result (list text)) (splits : list text)
  : result (list text) :=
  '(final_chunks, _good_splits) ←
    for_each splits ([], []) (split_step new_separators recur);
  if truthy _good_splits then
    merged_text ← _merge_splits _good_splits [];
    Ok (final_chunks ++ merged_text)
  else Ok final_chunks.

(** [RecursiveCharacterTextSplitter._split_text] *)
Equations? _split_text (s : text) (separators : list text)
  : result (list text) by wf (length separators) lt :=
_split_text s separators with Logic.inspect (choose_separator s separators) := {
  | exist _ (Raise e) _ => Raise e
  | exist _ (Ok (separator, new_separators)) Hsel =>
      splits ← _split_text_with_regex s separator;
      split_pieces new_separators
        (λ piece, _split_text piece new_separators) splits }.
Proof.
  unfold choose_separator in Hsel.
  destruct (last separators) as [default|] eqn:Hlast; [|done].
  assert (∀ l, length (scan_separators s l default).2 ≤ length l - 1)%nat
    as Hscan.
  { induction l as [|_s rest IH]; simpl; [lia|].
    repeat case_match; simpl in *; lia. }
  specialize (Hscan separators). injection Hsel as Hsel.
  rewrite Hsel in Hscan. destruct separators; [done|]. simpl in *. lia.
Qed.

(** [RecursiveCharacterTextSplitter.split_text] *)
Definition split_text (s : text) : result (list text) :=
  _split_text s (_separators self).

End splitter.

(** [RecursiveCharacterTextSplitter(chunk_size=..., chunk_overlap=...,
    separators=..., ...)]: the checks of [TextSplitter.__init__]. *)
Definition RecursiveCharacterTextSplitter
  (chunk_size chunk_overlap : Z) (separators : list text)
  : result TextSplitter :=
  if chunk_size <=? 0
  then Raise (Exn ValueError (lit "chunk_size must be > 0"))
  else if chunk_overlap <? 0
  then Raise (Exn ValueError (lit "chunk_overlap must be >= 0"))
  else if chunk_size <? chunk_overlap
  then Raise (Exn ValueError
                (lit "Got a larger chunk overlap than chunk size"))
  else Ok {| _chunk_size := chunk_size;
             _chunk_overlap := chunk_overlap;
             _separators := separators |}.

(** The inner loop of [TextSplitter.create_documents], for one text and
    its metadata dict; the state is
    [(index, previous_chunk_len, documents)]. *)
Definition create_document (self : TextSplitter) (s : text) (md : loc)
  (st : Z * Z * list loc) (chunk : text) : M (Z * Z * list loc) :=
  let '(index, previous_chunk_len, documents) := st in
  metadata ← dict_copy md;
  let offset := index + previous_chunk_len - _chunk_overlap self in
  let index := str_find s chunk (Z.max 0 offset) in
  dict_setitem metadata (lit "start_index") (VInt index);;
  let previous_chunk_len := len chunk in
  new_doc ← new_document chunk metadata;
  mret (index, previous_chunk_len, documents ++ [new_doc]).

(** [TextSplitter.create_documents(texts, metadatas)] on the texts paired
    with their metadata dicts. *)
Definition create_documents (self : TextSplitter)
  (texts : list (text * loc)) : M (list loc) :=
  for_each texts [] (λ documents '(s, md),
    chunks ← lift (split_text self s);
    '(_, _, documents) ←
      for_each chunks (0, 0, documents) (create_document self s md);
    mret documents).

(** [TextSplitter.split_documents(documents)] *)
Definition split_documents (self : TextSplitter) (documents : list loc)
  : M (list loc) :=
  texts ← for_each documents [] (λ texts doc,
    page_content ← get_page_content doc;
    metadata ← get_metadata doc;
    mret (texts ++ [(page_content, metadata)]));
  create_documents self texts.

End LangChain.

(** ** The world outside: file system, PDF reader, embedding model *)

(** What [PyPDF2.PdfReader] found in a file: for every page the outcome of
    [page.extract_text()]. *)
Record PdfReader := { pages : list (result text) }.

(** A path that [data_path.glob("*.pdf")] enumerates: [str(path)],
    [path.name], and the outcome of [open(path, 'rb')] followed by
    [PyPDF2.PdfReader(pdf_file)]. *)
Record Path := {
  path_str : text;
  name : text;
  read_pdf : result PdfReader
}.

Inductive fs_node :=
  | Missing
  | NotDirectory
  | Directory (pdf_files : list Path).

(** The file system, as far as the loader looks at it. *)
Definition filesystem := text → fs_node.

Definition path_exists (fs : filesystem) (p : text) : bool :=
  match fs p with Missing => false | _ => true end.

Definition path_is_dir (fs : filesystem) (p : text) : bool :=
  match fs p with Directory _ => true | _ => false end.

Definition path_glob_pdf (fs : filesystem) (p : text) : list Path :=
  match fs p with Directory pdf_files => pdf_files | _ => [] end.

Record model_configuration := {
  model_name : text;
  device : text;
  trust_remote_code : bool;
  normalize_embeddings : bool;
  batch_size : Z
}.

(** ** helper.py *)

Definition newline : ascii := ascii_of_nat 10.

Definition py_sum (xs : list Z) : Z := foldr Z.add 0%Z xs.

(** [min(xs)] and [max(xs)] raise [ValueError] on an empty list. *)
Definition py_min (xs : list Z) : result Z :=
  match xs with
  | [] => Raise (Exn ValueError (lit "min() arg is an empty sequence"))
  | x :: rest => Ok (foldr Z.min x rest)
  end.

Definition py_max (xs : list Z) : result Z :=
  match xs with
  | [] => Raise (Exn ValueError (lit "max() arg is an empty sequence"))
  | x :: rest => Ok (foldr Z.max x rest)
  end.

(** [total / count] as the float that a message interpolates. *)
Definition py_mean (total count : Z) : result fragment :=
  if (count =? 0)%Z
  then Raise (Exn ZeroDivisionError (lit "division by zero"))
  else Ok (Mean total count).

Section loader_definitions.
Local Open Scope Z_scope.
Variable fs : filesystem.

(** The body of [for page_number, page in enumerate(pdf_reader.pages)]. *)
Definition extract_page (pdf_file_path : Path) (document_text : text)
  (numbered_page : Z * result text) : M text :=
  let '(page_number, page) := numbered_page in
  try_except
    (page_text ← lift page;
     if truthy (strip page_text)
     then mret (document_text ++ page_text ++ [newline; newline])
     else mret document_text)
    (λ page_error,
       logger WARNING
         [Lit "Error extracting text from page "; Num (page_number + 1);
          Lit " in "; Str (name pdf_file_path); Lit ": ";
          Str (exn_message page_error)];;
       mret document_text).

(** The body of [for pdf_file_path in pdf_files]. *)
Definition process_pdf (extracted_documents : list loc)
  (pdf_file_path : Path) : M (list loc) :=
  try_except
    (logger INFO
       [Lit "Processing medical document: "; Str (name pdf_file_path)];;
     pdf_reader ← lift (read_pdf pdf_file_path);
     document_text ←
       for_each (enumerate (pages pdf_reader)) []
         (extract_page pdf_file_path);
     if truthy (strip document_text) then
       metadata ← new_dict
         [(lit "source", VStr (path_str pdf_file_path));
          (lit "filename", VStr (name pdf_file_path));
          (lit "document_type", VStr (lit "medical_pdf"));
          (lit "page_count", VInt (len (pages pdf_reader)))];
       document ← new_document (strip document_text) metadata;
       let extracted_documents := extracted_documents ++ [document] in
       logger INFO
         [Lit "Successfully extracted "; Num (len document_text);
          Lit " characters from "; Str (name pdf_file_path)];;
       mret extracted_documents
     else
       logger WARNING
         [Lit "No text content extracted from ";
          Str (name pdf_file_path)];;
       mret extracted_documents)
    (λ file_error,
       logger ERROR
         [Lit "Error processing PDF file "; Str (name pdf_file_path);
          Lit ": "; Str (exn_message file_error)];;
       mret extracted_documents).

Definition load_medical_documents_from_directory (data_directory : text)
  : M (list loc) :=
  try_except
    (logger INFO
       [Lit "Loading medical documents from directory: ";
        Str data_directory];;
     when (negb (path_exists fs data_directory))
       (raise (Exn FileNotFoundError
                 (lit "Directory not found: " ++ data_directory)));;
     when (negb (path_is_dir fs data_directory))
       (raise (Exn ValueError
                 (lit "Path is not a directory: " ++ data_directory)));;
     let pdf_files := path_glob_pdf fs data_directory in
     if negb (truthy pdf_files) then
       logger WARNING
         [Lit "No PDF files found in directory: "; Str data_directory];;
       mret []
     else
       logger INFO
         [Lit "Found "; Num (len pdf_files);
          Lit " PDF files to process"];;
       extracted_documents ← for_each pdf_files [] process_pdf;
       logger INFO
         [Lit "Successfully loaded "; Num (len extracted_documents);
          Lit " medical documents"];;
       when (negb (truthy extracted_documents))
         (logger WARNING [Lit "No documents were successfully processed"]);;
       mret extracted_documents)
    (λ error,
       logger ERROR
         [Lit "Error loading medical documents from directory: ";
          Str (exn_message error)];;
       raise error).

End loader_definitions.

Section splitter_definitions.
Local Open Scope Z_scope.

Definition medical_separators : list text :=
  [ [newline; newline]; [newline]; lit ". "; lit "? "; lit "! ";
    lit "; "; lit ", "; lit " "; [] ].

Definition filename_of (v : value) : fragment :=
  match v with VStr s => Str s | VInt n => Num n end.

(** The body of [for chunk_index, chunk in enumerate(document_chunks)]. *)
Definition enhance_chunk (document : loc) (doc_index : Z)
  (document_chunks : list loc) (_ : unit) (numbered_chunk : Z * loc)
  : M unit :=
  let '(chunk_index, chunk) := numbered_chunk in
  metadata ← get_metadata document;
  enhanced_metadata ← dict_copy metadata;
  page_content ← get_page_content chunk;
  dict_update enhanced_metadata
    [(lit "chunk_index", VInt chunk_index);
     (lit "total_chunks", VInt (len document_chunks));
     (lit "chunk_size", VInt (len page_content));
     (lit "parent_document_index", VInt doc_index)];;
  set_metadata chunk enhanced_metadata.

(** The body of [for doc_index, document in enumerate(documents)]. *)
Definition chunk_document (medical_text_splitter : LangChain.TextSplitter)
  (all_document_chunks : list loc) (numbered_document : Z * loc)
  : M (list loc) :=
  let '(doc_index, document) := numbered_document in
  try_except
    (metadata ← get_metadata document;
     filename ← dict_get metadata (lit "filename") (VStr (lit "Unknown"));
     logger DEBUG
       [Lit "Chunking document "; Num (doc_index + 1); Lit ": ";
        filename_of filename];;
     document_chunks ←
       LangChain.split_documents medical_text_splitter [document];
     for_each (enumerate document_chunks) ()
       (enhance_chunk document doc_index document_chunks);;
     let all_document_chunks := all_document_chunks ++ document_chunks in
     metadata ← get_metadata document;
     filename ← dict_get metadata (lit "filename") (VStr (lit "Unknown"));
     logger DEBUG
       [Lit "Created "; Num (len document_chunks);
        Lit " chunks from document "; filename_of filename];;
     mret all_document_chunks)
    (λ doc_error,
       logger ERROR
         [Lit "Error chunking document "; Num (doc_index + 1); Lit ": ";
          Str (exn_message doc_error)];;
       mret all_document_chunks).

(** The statistics logged at the end of the splitter. *)
Definition log_statistics (all_document_chunks : list loc) : M unit :=
  chunk_sizes ← for_each all_document_chunks [] (λ chunk_sizes chunk,
    page_content ← get_page_content chunk;
    mret (chunk_sizes ++ [len page_content]));
  avg_chunk_size ← lift (py_mean (py_sum chunk_sizes) (len chunk_sizes));
  logger INFO
    [Lit "Average chunk size: "; avg_chunk_size; Lit " characters"];;
  smallest ← lift (py_min chunk_sizes);
  largest ← lift (py_max chunk_sizes);
  logger INFO
    [Lit "Chunk size range: "; Num smallest; Lit " - "; Num largest;
     Lit " characters"].

Definition split_documents_into_semantic_chunks (documents : list loc)
  (chunk_size chunk_overlap : Z) : M (list loc) :=
  try_except
    (logger INFO
       [Lit "Splitting "; Num (len documents);
        Lit " documents into semantic chunks"];;
     logger INFO
       [Lit "Chunk parameters: size="; Num chunk_size; Lit ", overlap=";
        Num chunk_overlap];;
     when (chunk_size <=? 0)
       (raise (Exn ValueError (lit "chunk_size must be positive")));;
     when (chunk_overlap <? 0)
       (raise (Exn ValueError (lit "chunk_overlap cannot be negative")));;
     when (chunk_size <=? chunk_overlap)
       (raise (Exn ValueError
                 (lit "chunk_overlap must be less than chunk_size")));;
     if negb (truthy documents) then
       logger WARNING [Lit "No documents provided for chunking"];;
       mret []
     else
       medical_text_splitter ←
         lift (LangChain.RecursiveCharacterTextSplitter
                 chunk_size chunk_overlap medical_separators);
       all_document_chunks ←
         for_each (enumerate documents) []
           (chunk_document medical_text_splitter);
       logger INFO
         [Lit "Successfully created "; Num (len all_document_chunks);
          Lit " semantic chunks"];;
       when (truthy all_document_chunks)
         (log_statistics all_document_chunks);;
       mret all_document_chunks)
    (λ error,
       logger ERROR
         [Lit "Error splitting documents into chunks: ";
          Str (exn_message error)];;
       raise error).

End splitter_definitions.

Section embedding.
Context {HuggingFaceEmbeddings float : Type}.

(** The constructor [HuggingFaceEmbeddings] applied to the model
    configuration, and [embeddings.embed_query(text)], as the model
    library answers. *)
Variable new_embeddings :
  model_configuration → result HuggingFaceEmbeddings.
Variable embed_query : HuggingFaceEmbeddings → text → result (list float).

Definition test_query : text :=
  lit "What are the common symptoms of hypertension?".

(** The inner [try] yields [Some v] where the code leaves the function
    with [return v], and [None] where it falls through. *)
Definition initialize_medical_embedding_model (model_name : text)
  : M (option HuggingFaceEmbeddings) :=
  try_except
    (logger INFO
       [Lit "Initializing medical embeddings model: "; Str model_name];;
     let model_configuration :=
       {| model_name := model_name;
          device := lit "cpu";
          trust_remote_code := false;
          normalize_embeddings := true;
          batch_size := 32 |} in
     medical_embeddings ← lift (new_embeddings model_configuration);
     returned ←
       try_except
         (test_embedding ←
            lift (embed_query medical_embeddings test_query);
          let embedding_dimension := len test_embedding in
          logger INFO
            [Lit "Medical embeddings model initialized successfully"];;
          logger INFO
            [Lit "Embedding dimension: "; Num embedding_dimension];;
          logger INFO [Lit "Model ready for medical text processing"];;
          mret None)
         (λ test_error,
            logger ERROR
              [Lit "Model initialization test failed: ";
               Str (exn_message test_error)];;
            mret (Some None));
     match returned with
     | Some v => mret v
     | None => mret (Some medical_embeddings)
     end)
    (λ error,
       logger ERROR
         [Lit "Failed to initialize medical embeddings model: ";
          Str (exn_message error)];;
       logger ERROR
         [Lit "Please check internet connection and model availability"];;
       mret None).

End embedding.

(** ** helper.py: the backward compatibility functions *)

Section compatibility.
Local Open Scope Z_scope.
Context {HuggingFaceEmbeddings float : Type}.
Variable fs : filesystem.
Variable new_embeddings :
  model_configuration → result HuggingFaceEmbeddings.
Variable embed_query : HuggingFaceEmbeddings → text → result (list float).

(** The default of the parameter [model_name]. *)
Definition default_model_name : text :=
  lit "sentence-transformers/all-MiniLM-L6-v2".

Definition load_pdf_file (data : text) : M (list loc) :=
  logger WARNING
    [Lit "load_pdf_file() is deprecated. Use load_medical_documents_from_directory() instead."];;
  load_medical_documents_from_directory fs data.

(** [split_documents_into_semantic_chunks(extracted_data)] takes the
    defaults [chunk_size=500] and [chunk_overlap=50]. *)
Definition text_split (extracted_data : list loc) : M (list loc) :=
  logger WARNING
    [Lit "text_split() is deprecated. Use split_documents_into_semantic_chunks() instead."];;
  split_documents_into_semantic_chunks extracted_data 500 50.

Definition hugging_face_embedding_model
  : M (option HuggingFaceEmbeddings) :=
  logger WARNING
    [Lit "hugging_face_embedding_model() is deprecated. Use initialize_medical_embedding_model() instead."];;
  initialize_medical_embedding_model new_embeddings embed_query
    default_model_name.

(** ** store_index.py

    The statements of the script that prepare the chunks and the
    embedding model.  The calls to the vector database that follow them
    take [text_chunks] and [embeddings] as they are. *)
Definition store_index : M (list loc * option HuggingFaceEmbeddings) :=
  extracted_data ← load_pdf_file (lit "Documents/");
  text_chunks ← text_split extracted_data;
  embeddings ← hugging_face_embedding_model;
  mret (text_chunks, embeddings).

(** ** app.py: [initialize_medical_embeddings] *)
Definition initialize_medical_embeddings
  : M (option HuggingFaceEmbeddings) :=
  try_except
    (logger INFO [Lit "Initializing medical embeddings model..."];;
     embeddings_model ←
       initialize_medical_embedding_model new_embeddings embed_query
         default_model_name;
     logger INFO [Lit "Medical embeddings model initialized successfully"];;
     mret embeddings_model)
    (λ error,
       logger ERROR
         [Lit "Failed to initialize medical embeddings: ";
          Str (exn_message error)];;
       mret None).

End compatibility.

(** ** app.py: configuration and start-up

    The module keeps its AI components in four global variables and reads
    the API keys from [os.environ].  A computation of the application
    threads the environment variables, the globals and the state of the
    heap and the log. *)

(** The keyword arguments of [ChatGroq(...)]. *)
Record chat_configuration := {
  temperature : Z;
  groq_api_key : text;
  chat_model_name : text;
  max_tokens : Z;
  timeout : Z;
  max_retries : Z
}.

Definition MEDICAL_VECTOR_INDEX_NAME : text := lit "medicalchat".
Definition SIMILARITY_SEARCH_RESULTS_COUNT : Z := 3.
Definition LLM_TEMPERATURE : Z := 0.
Definition GROQ_MODEL_NAME : text :=
  lit "meta-llama/llama-4-scout-17b-16e-instruct".

Section app.
Local Open Scope Z_scope.
Context {HuggingFaceEmbeddings float VectorStore Retriever ChatGroq
         ChatPromptTemplate DocumentsChain RagChain : Type}.

Record globals := Globals {
  medical_embeddings_model : option HuggingFaceEmbeddings;
  medical_document_retriever : option Retriever;
  medical_language_model : option ChatGroq;
  medical_rag_chain : option RagChain
}.

Record world := World {
  os_environ : gmap text text;
  module_globals : globals;
  base : state
}.

Definition App (A : Type) : Type := world → result A * world.

#[global] Instance App_ret : MRet App := λ A a w, (Ok a, w).
#[global] Instance App_bind : MBind App := λ A B f m w,
  match m w with
  | (Ok a, w') => f a w'
  | (Raise e, w') => (Raise e, w')
  end.

Definition app_raise {A} (e : exn) : App A := λ w, (Raise e, w).

(** [try: body except Exception as e: handler(e)] *)
Definition app_try {A} (body : App A) (handler : exn → App A) : App A :=
  λ w,
    match body w with
    | (Ok a, w') => (Ok a, w')
    | (Raise e, w') => handler e w'
    end.

(** A computation on the heap and the log, inside the application. *)
Definition run {A} (m : M A) : App A := λ w,
  let '(r, σ) := m (base w) in
  (r, World (os_environ w) (module_globals w) σ).

(** [os.environ.get(key)] and [os.environ[key] = v] *)
Definition environ_get (key : text) : App (option text) := λ w,
  (Ok (os_environ w !! key), w).

Definition environ_set (key v : text) : App unit := λ w,
  (Ok (), World (<[key := v]> (os_environ w)) (module_globals w) (base w)).

Definition get_globals : App globals := λ w, (Ok (module_globals w), w).

Definition set_globals (g : globals) : App unit := λ w,
  (Ok (), World (os_environ w) g (base w)).

(** [bool(x)] of an optional string. *)
Definition truthy_str (s : option text) : bool :=
  match s with Some s => truthy s | None => false end.

(** What the libraries answer: [load_dotenv()] on the environment
    variables, the embedding model, the vector store, the language model
    and the chain constructors.  [system_prompt] is imported from
    [src/prompt.py]. *)
Variable load_dotenv : gmap text text → result (gmap text text).
Variable new_embeddings :
  model_configuration → result HuggingFaceEmbeddings.
Variable embed_query : HuggingFaceEmbeddings → text → result (list float).
Variable from_existing_index :
  text → HuggingFaceEmbeddings → result VectorStore.
Variable as_retriever : VectorStore → text → Z → result Retriever.
Variable new_chat_groq : chat_configuration → result ChatGroq.
Variable system_prompt : text.
Variable from_messages : list (text * text) → result ChatPromptTemplate.
Variable create_stuff_documents_chain :
  ChatGroq → ChatPromptTemplate → result DocumentsChain.
Variable create_retrieval_chain :
  Retriever → DocumentsChain → result RagChain.

Definition call_load_dotenv : App unit := λ w,
  match load_dotenv (os_environ w) with
  | Ok environ => (Ok (), World environ (module_globals w) (base w))
  | Raise e => (Raise e, w)
  end.

(** [EnvironmentError] is [OSError]. *)
Definition load_environment_configuration : App (text * text) :=
  app_try
    (call_load_dotenv;;
     run (logger INFO [Lit "Loading environment configuration..."]);;
     pinecone_api_key ← environ_get (lit "PINECONE_API_KEY");
     groq_api_key ← environ_get (lit "GROQ_API_KEY");
     (if negb (truthy_str pinecone_api_key)
      then app_raise
             (Exn OSError
                (lit "PINECONE_API_KEY not found in environment variables"))
      else mret ());;
     (if negb (truthy_str groq_api_key)
      then app_raise
             (Exn OSError
                (lit "GROQ_API_KEY not found in environment variables"))
      else mret ());;
     let pinecone_api_key := default [] pinecone_api_key in
     let groq_api_key := default [] groq_api_key in
     environ_set (lit "PINECONE_API_KEY") pinecone_api_key;;
     environ_set (lit "GROQ_API_KEY") groq_api_key;;
     run (logger INFO [Lit "Environment configuration loaded successfully"]);;
     mret (pinecone_api_key, groq_api_key))
    (λ error,
       if bool_decide (exn_type error = FileNotFoundError) then
         run (logger ERROR
                [Lit ".env file not found. Please create a .env file with API keys"]);;
         app_raise error
       else
         run (logger ERROR
                [Lit "Error loading environment configuration: ";
                 Str (exn_message error)]);;
         app_raise error).

Definition setup_medical_vector_retriever
  (embeddings_model : HuggingFaceEmbeddings) (pinecone_api_key : text)
  : App (option Retriever) :=
  app_try
    (run (logger INFO
            [Lit "Connecting to Pinecone vector database: ";
             Str MEDICAL_VECTOR_INDEX_NAME]);;
     medical_vector_store ←
       run (lift (from_existing_index MEDICAL_VECTOR_INDEX_NAME
                    embeddings_model));
     document_retriever ←
       run (lift (as_retriever medical_vector_store (lit "similarity")
                    SIMILARITY_SEARCH_RESULTS_COUNT));
     mret (Some document_retriever))
    (λ error,
       run (logger ERROR
              [Lit "Pinecone vector database connection failed: ";
               Str (exn_message error)]);;
       run (logger ERROR
              [Lit "Please verify: Pinecone API key, index name, and vector database setup"]);;
       mret None).

Definition initialize_medical_language_model (groq_api_key : text)
  : App (option ChatGroq) :=
  app_try
    (run (logger INFO
            [Lit "Initializing Groq language model: "; Str GROQ_MODEL_NAME]);;
     language_model ←
       run (lift (new_chat_groq
                    {| temperature := LLM_TEMPERATURE;
                       groq_api_key := groq_api_key;
                       chat_model_name := GROQ_MODEL_NAME;
                       max_tokens := 1024;
                       timeout := 30;
                       max_retries := 2 |}));
     mret (Some language_model))
    (λ error,
       run (logger ERROR
              [Lit "Groq language model initialization failed: ";
               Str (exn_message error)]);;
       run (logger ERROR
              [Lit "Please verify: Groq API key and internet connection"]);;
       mret None).

Definition create_medical_rag_chain (language_model : ChatGroq)
  (document_retriever : Retriever) : App (option RagChain) :=
  app_try
    (run (logger INFO
            [Lit "Creating medical RAG (Retrieval-Augmented Generation) chain..."]);;
     medical_chat_prompt ←
       run (lift (from_messages
                    [(lit "system", system_prompt);
                     (lit "human", lit "{input}")]));
     document_combination_chain ←
       run (lift (create_stuff_documents_chain language_model
                    medical_chat_prompt));
     rag_chain ←
       run (lift (create_retrieval_chain document_retriever
                    document_combination_chain));
     run (logger INFO [Lit "Medical RAG chain created successfully"]);;
     run (logger INFO
            [Lit "Ready to provide context-aware medical responses"]);;
     mret (Some rag_chain))
    (λ error,
       run (logger ERROR
              [Lit "Failed to create medical RAG chain: ";
               Str (exn_message error)]);;
       mret None).

(** Each stage assigns its global and tests it: [None] is false, and an
    object of these classes is true, since the classes define neither
    [__bool__] nor [__len__]. *)
Definition initialize_medical_chatbot_system : App bool :=
  app_try
    (run (logger INFO
            [Lit "Starting medical chatbot system initialization..."]);;
     '(pinecone_key, groq_key) ← load_environment_configuration;
     embeddings_model ←
       run (initialize_medical_embeddings new_embeddings embed_query);
     g ← get_globals;
     set_globals
       (Globals embeddings_model (medical_document_retriever g)
          (medical_language_model g) (medical_rag_chain g));;
     match embeddings_model with
     | None =>
         run (logger ERROR [Lit "Cannot proceed without embeddings model"]);;
         mret false
     | Some embeddings_model =>
         document_retriever ←
           setup_medical_vector_retriever embeddings_model pinecone_key;
         g ← get_globals;
         set_globals
           (Globals (medical_embeddings_model g) document_retriever
              (medical_language_model g) (medical_rag_chain g));;
         match document_retriever with
         | None =>
             run (logger ERROR
                    [Lit "Cannot proceed without document retriever"]);;
             mret false
         | Some document_retriever =>
             language_model ← initialize_medical_language_model groq_key;
             g ← get_globals;
             set_globals
               (Globals (medical_embeddings_model g)
                  (medical_document_retriever g) language_model
                  (medical_rag_chain g));;
             match language_model with
             | None =>
                 run (logger ERROR
                        [Lit "Cannot proceed without language model"]);;
                 mret false
             | Some language_model =>
                 rag_chain ←
                   create_medical_rag_chain language_model
                     document_retriever;
                 g ← get_globals;
                 set_globals
                   (Globals (medical_embeddings_model g)
                      (medical_document_retriever g)
                      (medical_language_model g) rag_chain);;
                 match rag_chain with
                 | None =>
                     run (logger ERROR
                            [Lit "Cannot proceed without RAG chain"]);;
                     mret false
                 | Some _ =>
                     run (logger INFO
                            [Lit "Medical chatbot system initialization completed successfully!"]);;
                     run (logger INFO
                            [Lit "Ready to serve medical AI assistance"]);;
                     mret true
                 end
             end
         end
     end)
    (λ error,
       run (logger ERROR
              [Lit "Critical error during system initialization: ";
               Str (exn_message error)]);;
       mret false).

End app.

(** ** app.py: the query endpoint *)

(** What can be raised inside the handler, by class as its [except]
    clauses tell them apart: the exception of [abort(code)], a [KeyError],
    a [TimeoutError], any other [Exception]; each with its [str(error)]. *)
Inductive raised :=
  | HTTPException (code : Z) (message : text)
  | KeyError (message : text)
  | TimeoutError (message : text)
  | OtherException (message : text).

Definition raised_message (error : raised) : text :=
  match error with
  | HTTPException _ message | KeyError message | TimeoutError message
  | OtherException message => message
  end.

Inductive outcome (A : Type) :=
  | Return (a : A)
  | Throw (error : raised).
Arguments Return {A} a.
Arguments Throw {A} error.

(** A request handler logs, and returns a body or raises. *)
Definition Handler (A : Type) : Type :=
  list log_record → outcome A * list log_record.

#[global] Instance Handler_ret : MRet Handler := λ A a l, (Return a, l).
#[global] Instance Handler_bind : MBind Handler := λ A B f m l,
  match m l with
  | (Return a, l') => f a l'
  | (Throw error, l') => (Throw error, l')
  end.

Definition throw {A} (error : raised) : Handler A := λ l, (Throw error, l).

Definition handler_try {A} (body : Handler A) (handler : raised → Handler A)
  : Handler A := λ l,
  match body l with
  | (Return a, l') => (Return a, l')
  | (Throw error, l') => handler error l'
  end.

Definition handler_log (lvl : level) (msg : list fragment) : Handler unit :=
  λ l, (Return (), l ++ [LogRecord lvl msg]).

(** [request.method] and [request.form] *)
Record Request := {
  method : text;
  form : gmap text text
}.

Section endpoint.
Local Open Scope Z_scope.
Context {HuggingFaceEmbeddings Retriever ChatGroq RagChain : Type}.

(** [medical_rag_chain.invoke({"input": question})], and the [str] of the
    exception that [abort(code)] raises. *)
Variable invoke : RagChain → text → outcome (gmap text text).
Variable http_message : Z → text.

Definition abort {A} (code : Z) : Handler A :=
  throw (HTTPException code (http_message code)).

(** [request.form[key]] *)
Definition form_getitem (request : Request) (key : text) : Handler text :=
  match form request !! key with
  | Some v => mret v
  | None => throw (KeyError key)
  end.

Definition medical_disclaimer : text :=
  [newline; newline]
  ++ lit " Important: This information is for educational purposes only. "
  ++ lit "Always consult with a qualified healthcare professional for medical advice.".

(** The globals are read when the request is served. *)
Definition process_medical_query (request : Request)
  (g : @globals HuggingFaceEmbeddings Retriever ChatGroq RagChain)
  : Handler text :=
  handler_try
    ((if negb (bool_decide (method request = lit "POST")) then
        handler_log WARNING
          [Lit "Invalid request method for medical query"];;
        abort 400
      else mret ());;
     (if negb (bool_decide (is_Some (form request !! lit "msg"))) then
        handler_log WARNING [Lit "Missing medical question in request"];;
        abort 400
      else mret ());;
     msg ← form_getitem request (lit "msg");
     let user_medical_question := strip msg in
     if negb (truthy user_medical_question) then
       mret (lit "Please provide a medical question for me to help you with.")
     else if 1000 <? len user_medical_question then
       mret (lit "Please keep your medical question under 1000 characters for better processing.")
     else
       handler_log INFO
         [Lit "Processing medical query: ";
          Str (take 100 user_medical_question); Lit "..."];;
       match medical_rag_chain g, medical_document_retriever g,
             medical_language_model g with
       | Some rag_chain, Some _, Some _ =>
           rag_response ← (λ l, (invoke rag_chain user_medical_question, l));
           match rag_response !! lit "answer" with
           | None =>
               handler_log ERROR
                 [Lit "Invalid response format from RAG system"];;
               mret (lit "I apologize, but I encountered an issue generating a response. Please try again.")
           | Some answer =>
               let medical_ai_response := strip answer in
               handler_log INFO
                 [Lit " Generated medical response: ";
                  Str (take 100 medical_ai_response); Lit "..."];;
               mret (medical_ai_response ++ medical_disclaimer)
           end
       | _, _, _ =>
           handler_log ERROR [Lit "Medical AI system components unavailable"];;
           mret (lit "Sorry, the medical AI assistant is currently unavailable. "
                 ++ lit "Please try again later or consult with a healthcare professional.")
       end)
    (λ error,
       match error with
       | KeyError message =>
           handler_log ERROR
             [Lit " Missing required data in medical query request: ";
              Str message];;
           abort 400
       | TimeoutError _ =>
           handler_log ERROR [Lit "Timeout processing medical query"];;
           mret (lit "The medical AI system is experiencing high load. "
                 ++ lit "Please try again in a moment.")
       | _ =>
           handler_log ERROR
             [Lit "Error processing medical query: ";
              Str (raised_message error)];;
           mret (lit "I apologize, but I encountered an error processing your medical question. "
                 ++ lit "Please try again or consult with a healthcare professional.")
       end).

End endpoint.

(** ** simple_app.py

    The application that answers from a table of three conditions by
    keyword matching. *)
Module SimpleApp.

Local Open Scope Z_scope.

(** [str.lower] on a character with a code point below 256. *)
Definition lower_char (c : ascii) : ascii :=
  let n := N_of_ascii c in
  if ((65 <=? n) && (n <=? 90)
      || (192 <=? n) && (n <=? 222) && negb (n =? 215))%N
  then ascii_of_N (n + 32) else c.

Definition lower (s : text) : text := lower_char <$> s.

(** [sub in s] *)
Fixpoint contains (sub s : text) : bool :=
  startswith sub s
  || match s with [] => false | _ :: rest => contains sub rest end.

(** [any(word in s for word in words)] *)
Definition any_in (words : list text) (s : text) : bool :=
  existsb (λ word, contains word s) words.

Record condition_info := {
  symptoms : text;
  treatment : text;
  prevention : text
}.

(** The dict [MEDICAL_KNOWLEDGE], in the order of its keys. *)
Definition MEDICAL_KNOWLEDGE : list (text * condition_info) :=
  [ (lit "diabetes",
     {| symptoms := lit "Common symptoms of diabetes include increased thirst, frequent urination, fatigue, blurred vision, and unexplained weight loss.";
        treatment := lit "Diabetes treatment typically involves lifestyle changes, blood sugar monitoring, and may include medications or insulin therapy.";
        prevention := lit "Diabetes prevention includes maintaining a healthy weight, regular exercise, and a balanced diet." |});
    (lit "hypertension",
     {| symptoms := lit "Hypertension often has no symptoms but may cause headaches, shortness of breath, or nosebleeds in severe cases.";
        treatment := lit "Treatment includes lifestyle modifications like diet and exercise, and may require blood pressure medications.";
        prevention := lit "Prevention involves limiting sodium intake, regular exercise, maintaining healthy weight, and limiting alcohol." |});
    (lit "heart disease",
     {| symptoms := lit "Symptoms may include chest pain, shortness of breath, fatigue, and irregular heartbeat.";
        treatment := lit "Treatment varies but may include medications, lifestyle changes, and in some cases, surgical procedures.";
        prevention := lit "Prevention includes a heart-healthy diet, regular exercise, not smoking, and managing stress." |}) ].

(** The degree sign, U+00B0. *)
Definition degree : ascii := ascii_of_nat 176.

(** The loop [for condition, info in MEDICAL_KNOWLEDGE.items()]: the
    answer it returns, or [None] when it runs to its end. *)
Fixpoint check_conditions (knowledge : list (text * condition_info))
  (user_question_lower : text) : option text :=
  match knowledge with
  | [] => None
  | (condition, info) :: rest =>
      if contains condition user_question_lower then
        if contains (lit "symptom") user_question_lower then
          Some (lit "Regarding " ++ condition ++ lit " symptoms: "
                ++ symptoms info)
        else if contains (lit "treatment") user_question_lower
                || contains (lit "treat") user_question_lower then
          Some (lit "Regarding " ++ condition ++ lit " treatment: "
                ++ treatment info)
        else if contains (lit "prevention") user_question_lower
                || contains (lit "prevent") user_question_lower then
          Some (lit "Regarding " ++ condition ++ lit " prevention: "
                ++ prevention info)
        else
          Some (lit "About " ++ condition ++ lit ": " ++ symptoms info
                ++ lit " For treatment and prevention information, please consult with a healthcare professional.")
      else check_conditions rest user_question_lower
  end.

Definition get_medical_response (user_question : text) : M text :=
  try_except
    (let user_question_lower := lower user_question in
     match check_conditions MEDICAL_KNOWLEDGE user_question_lower with
     | Some response => mret response
     | None =>
         if any_in [lit "pain"; lit "hurt"; lit "ache"] user_question_lower
         then
           mret (lit "For pain management, it's important to identify the cause. Common approaches include rest, ice/heat therapy, and over-the-counter pain relievers. Please consult a healthcare professional for persistent or severe pain.")
         else if any_in [lit "fever"; lit "temperature"] user_question_lower
         then
           mret (lit "Fever is often a sign that your body is fighting an infection. Stay hydrated, rest, and consider fever-reducing medications if needed. Seek medical attention if fever is high (over 103"
                 ++ [degree] ++ lit "F/39.4" ++ [degree]
                 ++ lit "C) or persistent.")
         else if any_in [lit "headache"; lit "migraine"] user_question_lower
         then
           mret (lit "Headaches can have various causes including stress, dehydration, or underlying conditions. Stay hydrated, rest in a dark room, and consider over-the-counter pain relief. Consult a doctor for frequent or severe headaches.")
         else
           mret (lit "I understand you have a medical question. While I can provide general health information, it's important to consult with a qualified healthcare professional for personalized medical advice, diagnosis, and treatment recommendations.")
     end)
    (λ e,
       logger ERROR
         [Lit "Error generating medical response: "; Str (exn_message e)];;
       mret (lit "I apologize, but I encountered an error processing your medical question. Please try again or consult with a healthcare professional.")).

Definition medical_disclaimer : text :=
  [newline; newline]
  ++ lit "Important: This information is for educational purposes only. "
  ++ lit "Always consult with a qualified healthcare professional for medical advice.".

(** The view returns a body, or a body and a status; Flask answers a
    bare body with status 200. *)
Definition process_medical_query (request : Request) : M (text * Z) :=
  try_except
    (if negb (bool_decide (method request = lit "POST")) then
       logger WARNING [Lit "Invalid request method for medical query"];;
       mret (lit "Invalid request method", 400)
     else
       match form request !! lit "msg" with
       | None =>
           logger WARNING [Lit "Missing medical question in request"];;
           mret (lit "Missing medical question", 400)
       | Some msg =>
           let user_medical_question := strip msg in
           if negb (truthy user_medical_question) then
             mret (lit "Please provide a medical question for me to help you with.", 200)
           else if 1000 <? len user_medical_question then
             mret (lit "Please keep your medical question under 1000 characters for better processing.", 200)
           else
             logger INFO
               [Lit "Processing medical query: ";
                Str (take 100 user_medical_question); Lit "..."];;
             medical_ai_response ←
               get_medical_response user_medical_question;
             mret (medical_ai_response ++ medical_disclaimer, 200)
       end)
    (λ error,
       logger ERROR
         [Lit "Error processing medical query: "; Str (exn_message error)];;
       mret (lit "I apologize, but I encountered an error processing your medical question. "
             ++ lit "Please try again or consult with a healthcare professional.",
             200)).

End SimpleApp.

(** ** The transcription tool

    [transcription.py], [cleanup.py] and the cleanup endpoint of
    [main.py].  The speech model, the HTTP client and the web framework
    are outside; a computation threads the cached model and the log. *)
Module Transcription.

Local Open Scope Z_scope.

(** What is raised, by class as the [except] clauses tell them apart;
    the message is what [str(e)] gives, in the fragments of an
    f-string. *)
Inductive exception :=
  | Timeout (message : list fragment)
  | ConnectionError (message : list fragment)
  | HTTPException (status_code : Z) (detail : list fragment)
  | Exception (message : list fragment).

Inductive outcome (A : Type) :=
  | Return (a : A)
  | Throw (e : exception).
Arguments Return {A} a.
Arguments Throw {A} e.

(** The answer of [requests.post]: the status, the body as text, and the
    body as [response.json()] reads it. *)
Record Response := {
  status_code : Z;
  response_text : text;
  response_json : outcome (gmap text text)
}.

(** The argument [json=payload]; the two options are 0.3 and 0.9, given
    in tenths. *)
Record Payload := {
  payload_model : text;
  prompt : text;
  stream : bool;
  option_temperature : Z;
  option_top_p : Z
}.



Section tool.
Context {Whisper : Type}.

Record tool_state := ToolState {
  _model : option Whisper;
  records : list log_record
}.

Definition Tool (A : Type) : Type := tool_state → outcome A * tool_state.

#[global] Instance Tool_ret : MRet Tool := λ A a s, (Return a, s).
#[global] Instance Tool_bind : MBind Tool := λ A B f m s,
  match m s with
  | (Return a, s') => f a s'
  | (Throw e, s') => (Throw e, s')
  end.

Definition throw {A} (e : exception) : Tool A := λ s, (Throw e, s).

Definition call {A} (r : outcome A) : Tool A := λ s, (r, s).

Definition tool_try {A} (body : Tool A) (handler : exception → Tool A)
  : Tool A := λ s,
  match body s with
  | (Return a, s') => (Return a, s')
  | (Throw e, s') => handler e s'
  end.

Definition tool_log (lvl : level) (msg : list fragment) : Tool unit := λ s,
  (Return (), ToolState (_model s) (records s ++ [LogRecord lvl msg])).

(** [str(e)] *)
Variable http_str : Z → list fragment → list fragment.

Definition str (e : exception) : list fragment :=
  match e with
  | Timeout message | ConnectionError message | Exception message => message
  | HTTPException status_code detail => http_str status_code detail
  end.

(** The settings read from the environment when the modules are
    imported, and the libraries. *)
Variable MODEL_SIZE OLLAMA_HOST OLLAMA_MODEL : text.
Variable load_model : text → outcome Whisper.
Variable model_transcribe : Whisper → text → outcome (gmap text text).
Variable requests_post : text → Payload → Z → outcome Response.

(** *** transcription.py *)

Definition get_model : Tool Whisper := λ s,
  match _model s with
  | None =>
      (tool_log INFO [Lit "Loading Whisper model: "; Str MODEL_SIZE];;
       model ← call (load_model MODEL_SIZE);
       (λ s, (Return (), ToolState (Some model) (records s)));;
       tool_log INFO [Lit "Whisper model loaded successfully"];;
       mret model) s
  | Some model => (Return model, s)
  end.

(** [d[key]] *)
Definition getitem (d : gmap text text) (key : text) : Tool text :=
  match d !! key with
  | Some v => mret v
  | None => throw (Exception [Str key])
  end.

Definition transcribe_audio (audio_path : text) : Tool text :=
  tool_try
    (tool_log INFO [Lit "Starting transcription for: "; Str audio_path];;
     model ← get_model;
     result ← call (model_transcribe model audio_path);
     transcript ← getitem result (lit "text");
     tool_log INFO
       [Lit "Transcription completed. Length: "; Num (len transcript);
        Lit " characters"];;
     mret (strip transcript))
    (λ e,
       tool_log ERROR (Lit "Transcription error: " :: str e);;
       throw (Exception (Lit "Failed to transcribe audio: " :: str e))).

(** *** cleanup.py *)

Definition cleanup_prompt (transcript : text) : text :=
  lit "You are a transcript editor. Clean up the following transcript by:"
  ++ [newline]
  ++ lit "1. Removing filler words (um, uh, like, you know, etc.)"
  ++ [newline] ++ lit "2. Fixing grammar and punctuation"
  ++ [newline] ++ lit "3. Organizing the text into proper paragraphs"
  ++ [newline] ++ lit "4. Maintaining the original meaning and tone"
  ++ [newline]
  ++ lit "5. Making it more readable while keeping all important information"
  ++ [newline; newline]
  ++ lit "Do not add any commentary or explanations. Only return the cleaned transcript."
  ++ [newline; newline] ++ lit "Original Transcript:" ++ [newline]
  ++ transcript ++ [newline; newline] ++ lit "Cleaned Transcript:".

Definition cleanup_transcript (transcript : text) : Tool text :=
  tool_try
    (tool_log INFO [Lit "Starting cleanup with model: "; Str OLLAMA_MODEL];;
     let prompt := cleanup_prompt transcript in
     let url := OLLAMA_HOST ++ lit "/api/generate" in
     let payload :=
       {| payload_model := OLLAMA_MODEL;
          prompt := prompt;
          stream := false;
          option_temperature := 3;
          option_top_p := 9 |} in
     tool_log INFO [Lit "Calling Ollama at "; Str url];;
     response ← call (requests_post url payload 300);
     (if negb (status_code response =? 200) then
        let error_msg :=
          [Lit "Ollama API error: "; Num (status_code response); Lit " - ";
           Str (response_text response)] in
        tool_log ERROR error_msg;;
        throw (Exception error_msg)
      else mret ());;
     result ← call (response_json response);
     let cleaned_text := strip (default [] (result !! lit "response")) in
     (if negb (truthy cleaned_text)
      then throw (Exception [Lit "Ollama returned empty response"])
      else mret ());;
     tool_log INFO
       [Lit "Cleanup completed. Original length: "; Num (len transcript);
        Lit ", Cleaned length: "; Num (len cleaned_text)];;
     mret cleaned_text)
    (λ e,
       match e with
       | Timeout _ =>
           let error_msg :=
             [Lit "Ollama request timed out. The transcript might be too long."] in
           tool_log ERROR error_msg;;
           throw (Exception error_msg)
       | ConnectionError _ =>
           let error_msg :=
             [Lit "Cannot connect to Ollama at "; Str OLLAMA_HOST;
              Lit ". Make sure Ollama is running."] in
           tool_log ERROR error_msg;;
           throw (Exception error_msg)
       | _ =>
           tool_log ERROR (Lit "Cleanup error: " :: str e);;
           throw (Exception (Lit "Failed to cleanup transcript: " :: str e))
       end).

(** *** main.py: [cleanup] *)


End tool.

End Transcription.

(** * Specification vocabulary *)

(** A string has ink when one of its characters is not whitespace. *)
Definition ink (s : text) : bool := existsb (λ c, negb (isspace c)) s.

(** The total length of a list of pieces. *)
Definition sum_len (parts : list text) : Z := len (concat parts).

(** A piece or chunk fits when it is no longer than the chunk size. *)
Definition fits (self : LangChain.TextSplitter) (c : text) : Prop :=
  (len c ≤ LangChain._chunk_size self)%Z.

(** The loop invariant of [_merge_splits]: the total is the length of
    [current_doc] and fits, the finished chunks fit, and ink seen so far
    is in a finished chunk or still in [current_doc]. *)
Definition merge_inv (self : LangChain.TextSplitter) (seen : list text)
  (st : list text * list text * Z) : Prop :=
  let '(docs, current_doc, total) := st in
  total = sum_len current_doc
  ∧ (total ≤ LangChain._chunk_size self)%Z
  ∧ Forall (fits self) docs
  ∧ (existsb ink seen = true →
     docs ≠ [] ∨ existsb ink current_doc = true).

(** What splitting a piece delivers: chunks that fit, and at least one
    chunk when the piece has ink. *)
Definition splits_well (self : LangChain.TextSplitter)
  (recur : text → result (list text)) : Prop :=
  ∀ piece, ∃ chunks, recur piece = Ok chunks
                     ∧ Forall (fits self) chunks
                     ∧ (ink piece = true → chunks ≠ []).

(** The allocator never hands out a location in use. *)
Definition wf (σ : state) : Prop :=
  ∀ l : loc, (next_loc σ ≤ l)%nat → heap σ !! l = None.

(** [σ'] comes after [σ]: every object allocated in [σ] is unchanged, and
    the log has only grown. *)
Definition extends (σ σ' : state) : Prop :=
  (next_loc σ ≤ next_loc σ')%nat
  ∧ (∀ l : loc, (l < next_loc σ)%nat → heap σ' !! l = heap σ !! l)
  ∧ log σ `prefix_of` log σ'.

(** What a [Document] at [l] holds: its content and the items of its
    metadata dict. *)
Definition doc_view (σ : state) (l : loc)
  : option (text * gmap text value) :=
  match heap σ !! l with
  | Some (Document content md) =>
      match heap σ !! md with
      | Some (Dict items) => Some (content, items)
      | _ => None
      end
  | _ => None
  end.

(** [post m σ Q]: running [m] in [σ] ends in a result and a state that
    satisfy [Q]. *)
Definition post {A} (m : M A) (σ : state) (Q : result A → state → Prop)
  : Prop :=
  Q (m σ).1 (m σ).2.

(** A splitter with sound parameters and the character fallback. *)
Definition well_configured (splitter : LangChain.TextSplitter) : Prop :=
  (0 ≤ LangChain._chunk_overlap splitter)%Z
  ∧ (1 ≤ LangChain._chunk_size splitter)%Z
  ∧ [] ∈ LangChain._separators splitter.

(** ** What the splitter is expected to produce *)

(** The metadata of chunk number [chunk_index] of document number
    [doc_index], whose metadata has the items [items]. *)
Definition enhanced_items (items : gmap text value)
  (doc_index chunk_index total_chunks : Z) (chunk : text)
  : gmap text value :=
  with_items items
    [(lit "chunk_index", VInt chunk_index);
     (lit "total_chunks", VInt total_chunks);
     (lit "chunk_size", VInt (len chunk));
     (lit "parent_document_index", VInt doc_index)].

(** The chunks of one document, as content and metadata items. *)
Definition chunk_views (splitter : LangChain.TextSplitter) (doc_index : Z)
  (view : text * gmap text value) : list (text * gmap text value) :=
  match LangChain.split_text splitter view.1 with
  | Ok chunks =>
      imap (λ j chunk,
              (chunk,
               enhanced_items view.2 doc_index (Z.of_nat j) (len chunks)
                 chunk)) chunks
  | Raise _ => []
  end.

(** The splitter that [split_documents_into_semantic_chunks] configures. *)
Definition medical_splitter (chunk_size chunk_overlap : Z)
  : LangChain.TextSplitter :=
  {| LangChain._chunk_size := chunk_size;
     LangChain._chunk_overlap := chunk_overlap;
     LangChain._separators := medical_separators |}.

(** The parameters that the splitter rejects. *)
Definition rejected (chunk_size chunk_overlap : Z) : Prop :=
  (chunk_size ≤ 0 ∨ chunk_overlap < 0 ∨ chunk_size ≤ chunk_overlap)%Z.

(** The documents at [documents] hold the contents and metadata [views]. *)
Definition documents_at (σ : state) (documents : list loc)
  (views : list (text * gmap text value)) : Prop :=
  Forall2 (λ d v, doc_view σ d = Some v) documents views.

(** What a caller sees of a run of the splitter: the contents and metadata
    of the returned chunks in order, or the exception. *)
Definition outcome_view (run : result (list loc) * state)
  : result (list (option (text * gmap text value))) :=
  match run.1 with
  | Ok chunks => Ok (doc_view run.2 <$> chunks)
  | Raise e => Raise e
  end.

(** A heap with one document, for the examples. *)
Definition example_heap : gmap loc object :=
  {[ 0%nat := Dict {[ lit "filename" := VStr (lit "a.pdf") ]};
     1%nat := Document (lit "A. B. C.") 0%nat ]}.

Definition example_state : state := State example_heap 2 [].

Definition example_views : list (text * gmap text value) :=
  [ (lit "A. B. C.", {[ lit "filename" := VStr (lit "a.pdf") ]}) ].

(** A heap whose only document holds a single space. *)
Definition blank_state : state :=
  State {[ 0%nat := Dict ∅; 1%nat := Document (lit " ") 0%nat ]} 2 [].

(** ** What the loader is expected to produce *)

(** The text that the loader gathers from the pages of a file. *)
Definition gather_page (document_text : text) (page : result text) : text :=
  match page with
  | Ok page_text =>
      if truthy (strip page_text)
      then document_text ++ page_text ++ [newline; newline]
      else document_text
  | Raise _ => document_text
  end.

Definition extracted_text (reader : PdfReader) : text :=
  foldl gather_page [] (pages reader).

Definition pdf_metadata (pdf_file_path : Path) (reader : PdfReader)
  : gmap text value :=
  with_items ∅
    [(lit "source", VStr (path_str pdf_file_path));
     (lit "filename", VStr (name pdf_file_path));
     (lit "document_type", VStr (lit "medical_pdf"));
     (lit "page_count", VInt (len (pages reader)))].

(** The document of a file: none when the file cannot be read or has no
    text. *)
Definition source_document (pdf_file_path : Path)
  : option (text * gmap text value) :=
  match read_pdf pdf_file_path with
  | Ok reader =>
      let document_text := extracted_text reader in
      if truthy (strip document_text)
      then Some (strip document_text, pdf_metadata pdf_file_path reader)
      else None
  | Raise _ => None
  end.

(** The record that the loader logs for a file it could not read. *)
Definition file_error_record (pdf_file_path : Path) (file_error : exn)
  : log_record :=
  LogRecord ERROR
    [Lit "Error processing PDF file "; Str (name pdf_file_path);
     Lit ": "; Str (exn_message file_error)].

(** A directory with three files, the second of them corrupted. *)
Definition example_files : list Path :=
  [ {| path_str := lit "Documents/a.pdf"; name := lit "a.pdf";
       read_pdf := Ok {| pages := [Ok (lit "A. B. C.")] |} |};
    {| path_str := lit "Documents/b.pdf"; name := lit "b.pdf";
       read_pdf := Raise (Exn PdfReadError (lit "EOF marker not found")) |};
    {| path_str := lit "Documents/c.pdf"; name := lit "c.pdf";
       read_pdf := Ok {| pages := [Ok (lit " x "); Ok (lit "y")] |} |} ].

Definition example_fs : filesystem := λ p,
  if decide (p = lit "Documents/") then Directory example_files
  else Missing.

Definition empty_state : state := State ∅ 0 [].

(** The configuration that the initializer passes to the model library. *)
Definition medical_configuration (name : text) : model_configuration :=
  {| model_name := name;
     device := lit "cpu";
     trust_remote_code := false;
     normalize_embeddings := true;
     batch_size := 32 |}.

(** A document as the loader leaves it: not empty, and no whitespace at
    either end. *)
Definition stripped (content : text) : Prop :=
  content ≠ []
  ∧ (∀ c, head content = Some c → isspace c = false)
  ∧ (∀ c, last content = Some c → isspace c = false).

(** ** What the further properties speak about *)


(** The record that the loader logs for a page whose text could not be
    extracted; pages are numbered from 1 in the message. *)
Definition page_error_record (pdf_file_path : Path) (page_index : nat)
  (page_error : exn) : log_record :=
  LogRecord WARNING
    [Lit "Error extracting text from page "; Num (Z.of_nat page_index + 1);
     Lit " in "; Str (name pdf_file_path); Lit ": ";
     Str (exn_message page_error)].

(** The record that the loader logs for a file without text. *)
Definition no_text_record (pdf_file_path : Path) : log_record :=
  LogRecord WARNING
    [Lit "No text content extracted from "; Str (name pdf_file_path)].

(** [sub in s] for Python strings, as a proposition. *)
Definition substring_of (sub s : text) : Prop :=
  ∃ before after, s = before ++ sub ++ after.

(** A page has ink when its text could be extracted and is not blank; a
    file has text when it opens and one of its pages has ink. *)
Definition page_has_ink (page : result text) : bool :=
  match page with Ok page_text => ink page_text | Raise _ => false end.

Definition has_text (pdf_file_path : Path) : bool :=
  match read_pdf pdf_file_path with
  | Ok reader => existsb page_has_ink (pages reader)
  | Raise _ => false
  end.

(** The record that closes a failed run of the loader. *)
Definition load_error_record (error : exn) : log_record :=
  LogRecord ERROR
    [Lit "Error loading medical documents from directory: ";
     Str (exn_message error)].

(** A directory with a damaged file, whose second page cannot be
    extracted and whose third is blank, and a file with blank pages only. *)
Definition damaged_reader : PdfReader :=
  {| pages := [Ok (lit " x "); Raise (Exn PdfReadError (lit "bad page"));
               Ok (lit "  "); Ok (lit "y")] |}.

Definition damaged_file : Path :=
  {| path_str := lit "Scans/d.pdf"; name := lit "d.pdf";
     read_pdf := Ok damaged_reader |}.

Definition blank_reader : PdfReader :=
  {| pages := [Ok (lit "  "); Ok []] |}.

Definition blank_file : Path :=
  {| path_str := lit "Scans/e.pdf"; name := lit "e.pdf";
     read_pdf := Ok blank_reader |}.

Definition damaged_fs : filesystem := λ p,
  if decide (p = lit "Scans") then Directory [damaged_file; blank_file]
  else Missing.

(** The keys that the splitter writes into the metadata of a chunk. *)
Definition chunk_keys : gset text :=
  {[ lit "chunk_index"; lit "total_chunks"; lit "chunk_size";
     lit "parent_document_index" ]}.

(** The metadata dict that the document at [l] refers to. *)
Definition metadata_of (σ : state) (l : loc) : option loc :=
  match heap σ !! l with
  | Some (Document _ md) => Some md
  | _ => None
  end.
Arguments metadata_of : simpl never.

(** The documents [locs], with the metadata dicts [mds] in the same order,
    are objects allocated between [σ] and [σ'], and all different. *)
Definition owned (σ σ' : state) (locs mds : list loc) : Prop :=
  Forall2 (λ l m, metadata_of σ' l = Some m) locs mds
  ∧ NoDup (locs ++ mds)
  ∧ Forall (λ l, (next_loc σ ≤ l < next_loc σ')%nat) (locs ++ mds).

(** The record that the splitter logs for a document it could not chunk. *)
Definition chunk_error_record (doc_index : nat) (doc_error : exn)
  : log_record :=
  LogRecord ERROR
    [Lit "Error chunking document "; Num (Z.of_nat doc_index + 1);
     Lit ": "; Str (exn_message doc_error)].

(** What attribute access raises on an object of the wrong class. *)
Definition no_such_attribute : exn :=
  Exn AttributeError (lit "object has no such attribute").

(** The record that [text_split] logs first. *)
Definition text_split_deprecation : log_record :=
  LogRecord WARNING
    [Lit "text_split() is deprecated. Use split_documents_into_semantic_chunks() instead."].

(** A model library without network access: the constructor fails. *)
Definition offline_embeddings (_ : model_configuration) : result unit :=
  Raise (Exn OSError (lit "offline")).

Definition no_embedding (_ : unit) (_ : text) : result (list Z) := Ok [].

Definition first_example_file : Path :=
  {| path_str := lit "Documents/a.pdf"; name := lit "a.pdf";
     read_pdf := Ok {| pages := [Ok (lit "A. B. C.")] |} |}.

(** The globals as the module sets them when it is imported. *)
Definition no_globals {HuggingFaceEmbeddings Retriever ChatGroq RagChain}
  : @globals HuggingFaceEmbeddings Retriever ChatGroq RagChain :=
  Globals None None None None.

(** A [.env] file that provides the two keys when they are not set. *)
Definition example_dotenv (environ : gmap text text)
  : result (gmap text text) :=
  Ok (<[lit "GROQ_API_KEY" := lit "gsk"]>
        (<[lit "PINECONE_API_KEY" := lit "pck"]> environ)).

Definition example_environ : gmap text text :=
  <[lit "GROQ_API_KEY" := lit "gsk"]>
    (<[lit "PINECONE_API_KEY" := lit "pck"]> ∅).

(** A process without the keys in its environment, before start-up. *)
Definition example_world : @world unit unit unit unit :=
  World ∅ no_globals empty_state.

(** Libraries that all succeed. *)
Definition example_start : App bool :=
  initialize_medical_chatbot_system (float := Z) (VectorStore := unit)
    (ChatPromptTemplate := unit) (DocumentsChain := unit)
    example_dotenv (λ _, Ok ()) (λ _ _, Ok []) (λ _ _, Ok ())
    (λ _ _ _, Ok ()) (λ _, Ok ()) [] (λ _, Ok ()) (λ _ _, Ok ())
    (λ _ _, Ok ()).

Definition example_request : Request :=
  {| method := lit "POST"; form := {[ lit "msg" := lit " Fever? " ]} |}.

Definition ready_globals : @globals unit unit unit unit :=
  Globals (Some ()) (Some ()) (Some ()) (Some ()).

(** A chain that answers, and one that fails with a [KeyError]. *)
Definition example_chain (_ : unit) (question : text)
  : outcome (gmap text text) :=
  Return {[ lit "input" := question; lit "answer" := lit " Rest. " ]}.

Definition failing_chain (_ : unit) (_ : text)
  : outcome (gmap text text) :=
  Throw (KeyError (lit "'input'")).

Definition example_http_message (code : Z) : text := lit "Bad Request".

(** The answers of [simple_app.py] about pain and about headaches. *)
Definition pain_answer : text :=
  lit "For pain management, it's important to identify the cause. Common approaches include rest, ice/heat therapy, and over-the-counter pain relievers. Please consult a healthcare professional for persistent or severe pain.".

Definition headache_answer : text :=
  lit "Headaches can have various causes including stress, dehydration, or underlying conditions. Stay hydrated, rest in a dark room, and consider over-the-counter pain relief. Consult a doctor for frequent or severe headaches.".

(** The two records of statistics that close a run of the splitter. *)
Definition average_record (total count : Z) : log_record :=
  LogRecord INFO
    [Lit "Average chunk size: "; Mean total count; Lit " characters"].

Definition range_record (smallest largest : Z) : log_record :=
  LogRecord INFO
    [Lit "Chunk size range: "; Num smallest; Lit " - "; Num largest;
     Lit " characters"].

(** * Properties *)

(** ** Strings *)

Section strings.
Local Open Scope Z_scope.
Implicit Types s t : text.

Lemma len_nil {A} : len (@nil A) = 0.
Proof. done. Qed.

Lemma len_app {A} (l k : list A) : len (l ++ k) = len l + len k.
Proof. unfold len. rewrite length_app. lia. Qed.

Lemma len_nonneg {A} (l : list A) : 0 ≤ len l.
Proof. unfold len. lia. Qed.

Lemma truthy_true {A} (l : list A) : truthy l = true ↔ l ≠ [].
Proof. by destruct l. Qed.

Lemma truthy_false {A} (l : list A) : truthy l = false ↔ l = [].
Proof. by destruct l. Qed.

Lemma ink_app s t : ink (s ++ t) = ink s || ink t.
Proof. apply existsb_app. Qed.

Lemma ink_rev s : ink (rev s) = ink s.
Proof.
  induction s as [|c s IH]; [done|]. simpl. rewrite ink_app, IH. simpl.
  rewrite orb_false_r. apply orb_comm.
Qed.

Lemma ink_concat (parts : list text) :
  ink (concat parts) = existsb ink parts.
Proof.
  induction parts as [|p parts IH]; [done|]. simpl. by rewrite ink_app, IH.
Qed.

Lemma lstrip_suffix s : ∃ k, s = k ++ lstrip s.
Proof.
  induction s as [|c s [k IH]]; [by exists []|]. simpl.
  destruct (isspace c); [|by exists []].
  exists (c :: k). simpl. by f_equal.
Qed.

Lemma lstrip_head s c t : lstrip s = c :: t → isspace c = false.
Proof.
  induction s as [|c' s IH]; [done|]. simpl.
  destruct (isspace c') eqn:Hc; [done|]. by intros [= -> _].
Qed.

Lemma ink_lstrip s : ink (lstrip s) = ink s.
Proof.
  induction s as [|c s IH]; [done|]. simpl.
  destruct (isspace c) eqn:Hc; simpl; by rewrite ?Hc.
Qed.

Lemma lstrip_truthy s : truthy (lstrip s) = ink s.
Proof.
  rewrite <-ink_lstrip. destruct (lstrip s) as [|c t] eqn:Hs; [done|].
  simpl. by rewrite (lstrip_head _ _ _ Hs).
Qed.

Lemma truthy_rev {A} (l : list A) : truthy (rev l) = truthy l.
Proof. destruct l as [|a l]; [done|]. simpl. by destruct (rev l). Qed.

Lemma rstrip_truthy s : truthy (rstrip s) = ink s.
Proof. unfold rstrip. by rewrite truthy_rev, lstrip_truthy, ink_rev. Qed.

Lemma ink_rstrip s : ink (rstrip s) = ink s.
Proof. unfold rstrip. by rewrite ink_rev, ink_lstrip, ink_rev. Qed.

(** [s.strip()] is non-empty exactly when [s] has ink. *)
Lemma strip_truthy s : truthy (strip s) = ink s.
Proof. unfold strip. by rewrite rstrip_truthy, ink_lstrip. Qed.

Lemma rstrip_prefix s : ∃ k, s = rstrip s ++ k.
Proof.
  unfold rstrip. destruct (lstrip_suffix (rev s)) as [k Hk].
  exists (rev k). rewrite <-rev_app_distr, <-Hk. by rewrite rev_involutive.
Qed.

Lemma rstrip_last s c : last (rstrip s) = Some c → isspace c = false.
Proof.
  unfold rstrip. destruct (lstrip (rev s)) as [|c' t] eqn:Hs; [done|].
  simpl. rewrite last_snoc. intros [= ->]. by eapply lstrip_head.
Qed.

Lemma len_strip s : len (strip s) ≤ len s.
Proof.
  unfold strip. destruct (lstrip_suffix s) as [k Hk].
  destruct (rstrip_prefix (lstrip s)) as [k' Hk'].
  rewrite Hk at 2. rewrite Hk' at 2. rewrite !len_app.
  pose proof (len_nonneg k). pose proof (len_nonneg k'). lia.
Qed.

Lemma strip_head s c : head (strip s) = Some c → isspace c = false.
Proof.
  unfold strip. destruct (rstrip_prefix (lstrip s)) as [k Hk].
  destruct (rstrip (lstrip s)) as [|c' t]; [done|].
  intros [= ->]. by eapply lstrip_head.
Qed.

Lemma strip_last s c : last (strip s) = Some c → isspace c = false.
Proof. apply rstrip_last. Qed.

Lemma str_join_nil (parts : list text) : str_join [] parts = concat parts.
Proof.
  induction parts as [|p [|q parts] IH]; simpl in *;
    [done|by rewrite app_nil_r|by rewrite IH].
Qed.

Lemma sum_len_cons p (parts : list text) :
  sum_len (p :: parts) = len p + sum_len parts.
Proof. unfold sum_len. simpl. by rewrite len_app. Qed.

Lemma sum_len_snoc p (parts : list text) :
  sum_len (parts ++ [p]) = sum_len parts + len p.
Proof.
  unfold sum_len. rewrite concat_app, len_app. simpl.
  by rewrite app_nil_r.
Qed.

Lemma startswith_app sep s :
  startswith sep s = true → s = sep ++ drop (length sep) s.
Proof.
  revert s. induction sep as [|p sep IH]; intros [|c s]; simpl; try done.
  rewrite andb_true_iff, bool_decide_eq_true. intros [-> Hs].
  f_equal. by apply IH.
Qed.

End strings.

(** ** The splitter at work *)

(** The text of the first scenario: sentence boundaries are preferred,
    and each chunk has at most four characters. *)
Example split_text_sentences :
  LangChain.split_text (medical_splitter 4 1) (lit "A. B. C.")
  = Ok [lit "A. B"; lit ". C."].
Proof. vm_compute. reflexivity. Qed.

(** A text without any separator falls back to single characters, merged
    into windows that overlap. *)
Example split_text_characters :
  LangChain.split_text (medical_splitter 3 2) (lit "abcde")
  = Ok [lit "abc"; lit "bcd"; lit "cde"].
Proof. vm_compute. reflexivity. Qed.

(** A chunk of whitespace is stripped away. *)
Example split_text_blank :
  LangChain.split_text (medical_splitter 500 50) (lit " ") = Ok [].
Proof. vm_compute. reflexivity. Qed.

(** The splitter of [helper.py] on the document of [example_state]: two
    chunks, each with the parent's entry and the four chunk entries. *)
Example split_example_document :
  outcome_view
    (split_documents_into_semantic_chunks [1%nat] 4 1 example_state)
  = Ok [ Some (lit "A. B",
               enhanced_items {[ lit "filename" := VStr (lit "a.pdf") ]}
                 0 0 2 (lit "A. B"));
         Some (lit ". C.",
               enhanced_items {[ lit "filename" := VStr (lit "a.pdf") ]}
                 0 1 2 (lit ". C.")) ].
Proof. vm_compute. reflexivity. Qed.

(** The loader on a directory of three files, the second corrupted: the
    documents of the first and the third. *)
Example load_example_directory :
  outcome_view
    (load_medical_documents_from_directory example_fs (lit "Documents/")
       empty_state)
  = Ok (Some <$> omap source_document example_files).
Proof. vm_compute. reflexivity. Qed.

Example load_example_contents :
  fst <$> omap source_document example_files
  = [lit "A. B. C."; ["x"; " "; newline; newline; "y"]%char].
Proof. vm_compute. reflexivity. Qed.

(** ** The recursive splitter *)

Module LangChainFacts.
Import LangChain.
Local Open Scope Z_scope.

Lemma pair_up_even tl ps :
  pair_up tl = Ok ps → Z.even (len tl) = true.
Proof.
  revert ps.
  cut ((∀ ps, pair_up tl = Ok ps → Z.even (len tl) = true)
       ∧ (∀ a ps, pair_up (a :: tl) = Ok ps
                  → Z.even (len (a :: tl)) = true)); [tauto|].
  induction tl as [|b tl [IH1 IH2]]; [done|].
  split; [apply IH2|]. intros a ps Hpair. simpl in Hpair.
  destruct (pair_up tl) as [ps'|] eqn:Hps; [|done].
  unfold len in *. rewrite !length_cons, !Nat2Z.inj_succ, Z.even_succ_succ.
  by eapply IH1.
Qed.

(** The pieces and matches of [re.split] with a capture group come in
    pairs after the first piece, and together they are the string. *)
Lemma re_split_from_spec sep s skip cur :
  sep ≠ [] →
  ∃ ps, pair_up (tail (re_split_from sep s skip cur)) = Ok ps
        ∧ head (re_split_from sep s skip cur) ≫= (λ first,
            Some (first ++ concat ps)) = Some (cur ++ drop skip s).
Proof.
  intros Hsep. revert skip cur.
  induction s as [|c rest IH]; intros skip cur; simpl.
  { exists []. by rewrite drop_nil. }
  destruct skip as [|k]; [|apply IH].
  destruct (startswith sep (c :: rest)) eqn:Hstart.
  - destruct (IH (length sep - 1)%nat []) as (ps & Hps & Hcat).
    destruct (re_split_from sep rest (length sep - 1) []) as [|first tl];
      [done|].
    simpl in *. rewrite Hps. simpl. eexists; split; [done|].
    injection Hcat as Hcat. simpl. rewrite <-app_assoc, Hcat. do 2 f_equal.
    apply startswith_app in Hstart. rewrite Hstart at 1.
    f_equal. destruct sep as [|p sep]; [done|]. simpl.
    by rewrite Nat.sub_0_r.
  - destruct (IH 0%nat (cur ++ [c])) as (ps & Hps & Hcat).
    exists ps. split; [done|]. rewrite Hcat. simpl.
    by rewrite <-app_assoc.
Qed.

Lemma concat_filter_nonempty (parts : list text) :
  concat (filter (λ p, p ≠ []) parts) = concat parts.
Proof.
  induction parts as [|p parts IH]; [done|].
  rewrite filter_cons. destruct p; simpl; by rewrite IH.
Qed.

(** [_split_text_with_regex] cuts the string into non-empty pieces, and
    into single characters for the empty separator. *)
Lemma _split_text_with_regex_spec s separator :
  ∃ pieces, _split_text_with_regex s separator = Ok pieces
            ∧ concat pieces = s
            ∧ (separator = [] → Forall (λ p, len p = 1) pieces).
Proof.
  unfold _split_text_with_regex.
  destruct separator as [|p sep]; simpl truthy; cbv iota.
  - eexists. split; [done|]. rewrite concat_filter_nonempty. split.
    + unfold chars. induction s; simpl; by f_equal.
    + intros _. apply Forall_forall. intros x [_ Hx]%list_elem_of_filter.
      unfold chars in Hx. apply list_elem_of_fmap in Hx as (c & -> & _).
      done.
  - destruct (re_split_from_spec (p :: sep) s 0 []) as (ps & Hps & Hcat);
      [done|].
    unfold re_split_capture.
    destruct (re_split_from (p :: sep) s 0 []) as [|first tl] eqn:Hsplit;
      [done|].
    simpl in Hps, Hcat. simpl tail. rewrite Hps.
    assert (Z.even (len (first :: tl)) = false) as Hodd.
    { apply pair_up_even in Hps. unfold len in *.
      rewrite length_cons, Nat2Z.inj_succ, Z.even_succ.
      by rewrite <-Z.negb_even, Hps. }
    cbn -[filter]. rewrite Hodd.
    eexists. split; [done|]. split; [|done].
    rewrite concat_filter_nonempty. simpl. by injection Hcat.
Qed.

Lemma scan_separators_shorter s separators default :
  (length (scan_separators s separators default).2
   ≤ length separators - 1)%nat.
Proof.
  induction separators as [|_s rest IH]; simpl; [lia|].
  repeat case_match; simpl in *; lia.
Qed.

Lemma choose_separator_shorter s separators separator new_separators :
  choose_separator s separators = Ok (separator, new_separators) →
  (length new_separators < length separators)%nat.
Proof.
  unfold choose_separator. intros Hsel.
  destruct (last separators) as [default|] eqn:Hlast; [|done].
  pose proof (scan_separators_shorter s separators default) as Hlt.
  injection Hsel as Hsel. rewrite Hsel in Hlt.
  destruct separators; [done|]. simpl in *. lia.
Qed.

Section splitter_facts.
Variable self : TextSplitter.
Hypothesis overlap_nonneg : 0 ≤ _chunk_overlap self.
Hypothesis size_pos : 1 ≤ _chunk_size self.

Lemma sep_if_0 c : sep_if c 0 = 0.
Proof. by destruct c. Qed.

(** With the running total equal to the length of the pieces, the
    [while] loop never indexes an empty list, and it leaves room for
    the next piece. *)
Lemma pop_front_spec _len current_doc :
  ∃ rest, pop_front self 0 _len current_doc (sum_len current_doc)
          = Ok (rest, sum_len rest)
          ∧ (sum_len rest + _len ≤ _chunk_size self ∨ sum_len rest = 0).
Proof.
  induction current_doc as [|first rest IH]; simpl.
  - rewrite ?sep_if_0. unfold sum_len. simpl. rewrite len_nil.
    rewrite (proj2 (Z.ltb_ge _ _) overlap_nonneg). simpl.
    rewrite andb_false_r. exists []. split; [done|]. by right.
  - rewrite ?sep_if_0, sum_len_cons.
    destruct (_ || _) eqn:Hcond.
    + replace (len first + sum_len rest - (len first + 0))
        with (sum_len rest) by lia.
      apply IH.
    + exists (first :: rest). rewrite sum_len_cons. split; [done|].
      apply orb_false_iff in Hcond as [_ Hcond].
      pose proof (len_nonneg first). pose proof (len_nonneg (concat rest)).
      unfold sum_len in *.
      apply andb_false_iff in Hcond as [Hcond|Hcond]; [left|right]; lia.
Qed.

Lemma _join_docs_spec docs doc :
  _join_docs docs [] = Some doc →
  len doc ≤ sum_len docs.
Proof.
  unfold _join_docs. rewrite str_join_nil. case_match; [|done].
  intros [= <-]. apply len_strip.
Qed.

Lemma _join_docs_ink docs :
  existsb ink docs = true → is_Some (_join_docs docs []).
Proof.
  unfold _join_docs. rewrite str_join_nil, strip_truthy, ink_concat.
  by intros ->.
Qed.

Lemma merge_step_spec seen st d :
  merge_inv self seen st → fits self d →
  ∃ st', merge_step self [] st d = Ok st'
         ∧ merge_inv self (seen ++ [d]) st'.
Proof.
  destruct st as [[docs current_doc] total].
  intros (-> & Hfit & Hdocs & Hink) Hd. unfold merge_step. red in Hd.
  change (len (@nil ascii)) with 0. rewrite !sep_if_0, !Z.add_0_r.
  assert (∀ docs' cd',
    (sum_len cd' + len d ≤ _chunk_size self ∨ sum_len cd' = 0) →
    Forall (fits self) docs' →
    (existsb ink seen = true →
       docs' ≠ [] ∨ existsb ink cd' = true) →
    merge_inv self (seen ++ [d])
      (docs', cd' ++ [d], sum_len cd' + len d)) as Hclose.
  { intros docs' cd' Hroom Hdocs' Hink'. red.
    rewrite sum_len_snoc. split_and!; [done|lia|done|].
    rewrite !existsb_app. simpl. rewrite !orb_false_r.
    intros [Hs| ->]%orb_true_iff; [|right; by rewrite orb_true_r].
    destruct (Hink' Hs) as [? | Hcd]; [by left|right; by rewrite Hcd]. }
  destruct (_chunk_size self <? sum_len current_doc + len d) eqn:Hbig;
    simpl.
  - destruct (0 <? len current_doc) eqn:Hne; simpl.
    + destruct (pop_front_spec (len d) current_doc) as (rest & -> & Hroom).
      simpl. eexists. split; [done|].
      assert (∀ doc, _join_docs current_doc [] = Some doc → fits self doc).
      { intros doc Hj. apply _join_docs_spec in Hj. red. lia. }
      rewrite sep_if_0, Z.add_0_r. apply Hclose; [done|..].
      * case_match; [|done]. apply Forall_app. split; [done|].
        apply Forall_singleton. eauto.
      * intros [? | Hcd]%Hink; [left|].
        { case_match; [|done]. by destruct docs. }
        apply _join_docs_ink in Hcd as [doc ->]. left. by destruct docs.
    + eexists. split; [done|].
      assert (current_doc = []) as ->.
      { destruct current_doc; [done|]. apply Z.ltb_ge in Hne.
        unfold len in Hne. simpl in Hne. lia. }
      rewrite sep_if_0, Z.add_0_r. apply Hclose; [by right|done|done].
  - eexists. split; [done|]. rewrite sep_if_0, Z.add_0_r.
    apply Hclose; [left; lia|done|done].
Qed.

Lemma merge_loop_spec splits seen st :
  merge_inv self seen st → Forall (fits self) splits →
  ∃ st', for_each splits st (merge_step self []) = Ok st'
         ∧ merge_inv self (seen ++ splits) st'.
Proof.
  revert seen st. induction splits as [|d splits IH]; intros seen st.
  { intros. exists st. by rewrite app_nil_r. }
  intros Hinv [Hd Hsplits]%Forall_cons. simpl.
  destruct (merge_step_spec seen st d) as (st' & -> & Hinv'); [done..|].
  simpl. destruct (IH (seen ++ [d]) st') as (st'' & -> & Hinv'');
    [done..|].
  exists st''. by rewrite <-app_assoc in Hinv''.
Qed.

(** [_merge_splits] returns, its chunks fit, and ink is never lost. *)
Lemma _merge_splits_spec splits :
  Forall (fits self) splits →
  ∃ docs, _merge_splits self splits [] = Ok docs
          ∧ Forall (fits self) docs
          ∧ (existsb ink splits = true → docs ≠ []).
Proof.
  intros Hsplits. unfold _merge_splits.
  destruct (merge_loop_spec splits [] ([], [], 0)) as (st & -> & Hinv);
    [|done|].
  { red. unfold sum_len. simpl. split_and!; try done. lia. }
  destruct st as [[docs current_doc] total]. simpl in *.
  destruct Hinv as (-> & Hfit & Hdocs & Hink).
  destruct (_join_docs current_doc []) as [doc|] eqn:Hjoin.
  - eexists. split; [done|]. split; [|by destruct docs].
    apply Forall_app. split; [done|]. apply Forall_singleton.
    apply _join_docs_spec in Hjoin. red. lia.
  - eexists. split; [done|]. split; [done|].
    intros [? | Hcd]%Hink; [done|].
    apply _join_docs_ink in Hcd as [? ?]. congruence.
Qed.

Lemma flush_good_spec final good :
  Forall (fits self) final → Forall (fits self) good →
  ∃ final',
    (if truthy good
     then merged_text ← _merge_splits self good [];
          Ok (final ++ merged_text)
     else Ok final) = Ok final'
    ∧ Forall (fits self) final'
    ∧ (final ≠ [] ∨ existsb ink good = true → final' ≠ []).
Proof.
  intros Hfinal Hgood. destruct (truthy good) eqn:Htruthy.
  - destruct (_merge_splits_spec good Hgood) as (docs & -> & Hdocs & Hink).
    simpl. eexists. split; [done|]. split; [by apply Forall_app|].
    intros [?|?%Hink]; [by destruct final|].
    destruct docs; [done|]. by destruct final.
  - exists final. split; [done|]. split; [done|].
    apply truthy_false in Htruthy as ->. by intros [?|?].
Qed.

Lemma split_loop_spec new_separators recur splits seen final good :
  (new_separators = [] → Forall (fits self) splits) →
  (new_separators ≠ [] → splits_well self recur) →
  Forall (fits self) final → Forall (fits self) good →
  (existsb ink seen = true → final ≠ [] ∨ existsb ink good = true) →
  ∃ final' good',
    for_each splits (final, good) (split_step self new_separators recur)
    = Ok (final', good')
    ∧ Forall (fits self) final' ∧ Forall (fits self) good'
    ∧ (existsb ink (seen ++ splits) = true →
       final' ≠ [] ∨ existsb ink good' = true).
Proof.
  intros Hraw Hrecur. revert seen final good.
  induction splits as [|piece splits IH]; intros seen final good.
  { intros. exists final, good. by rewrite app_nil_r. }
  intros Hfinal Hgood Hink. simpl.
  assert (∀ final1 good1,
    Forall (fits self) final1 → Forall (fits self) good1 →
    (existsb ink (seen ++ [piece]) = true →
       final1 ≠ [] ∨ existsb ink good1 = true) →
    ∃ final' good',
      for_each splits (final1, good1)
        (split_step self new_separators recur) = Ok (final', good')
      ∧ Forall (fits self) final' ∧ Forall (fits self) good'
      ∧ (existsb ink (seen ++ piece :: splits) = true →
         final' ≠ [] ∨ existsb ink good' = true)) as Hnext.
  { intros final1 good1 ? ? ?.
    destruct (IH (λ H, Forall_inv_tail (Hraw H)) (seen ++ [piece])
                final1 good1) as (final' & good' & ? & ? & ? & Hink');
      [done..|].
    exists final', good'. by rewrite <-app_assoc in Hink'. }
  assert (existsb ink (seen ++ [piece]) = existsb ink seen || ink piece)
    as Hseen.
  { rewrite existsb_app. simpl. by rewrite orb_false_r. }
  destruct (len piece <? _chunk_size self) eqn:Hsmall; simpl.
  - apply Hnext; [done|..].
    + apply Forall_app. split; [done|]. apply Forall_singleton. red. lia.
    + rewrite Hseen, existsb_app. simpl. rewrite orb_false_r.
      intros [[?|Hg]%Hink|Hp]%orb_true_iff; [by left|right..].
      * by rewrite Hg.
      * by rewrite Hp, orb_true_r.
  - destruct (flush_good_spec final good) as (final1 & -> & Hfinal1 & Hne);
      [done..|].
    simpl. destruct (truthy new_separators) eqn:Hnew; simpl.
    + apply truthy_true in Hnew.
      destruct (Hrecur Hnew piece) as (chunks & -> & Hchunks & Hchunk).
      simpl. apply Hnext; [by apply Forall_app|done|].
      rewrite Hseen. intros [Hs|Hp]%orb_true_iff; left.
      * apply Hink in Hs. by destruct final1; [apply Hne in Hs|].
      * apply Hchunk in Hp. destruct chunks; [done|]. by destruct final1.
    + apply truthy_false in Hnew. apply Hnext; [|done|].
      * apply Forall_app. split; [done|]. apply Forall_singleton.
        by eapply Forall_inv, Hraw.
      * intros _. left. by destruct final1.
Qed.

Lemma split_pieces_spec new_separators recur splits :
  (new_separators = [] → Forall (fits self) splits) →
  (new_separators ≠ [] → splits_well self recur) →
  ∃ chunks, split_pieces self new_separators recur splits = Ok chunks
            ∧ Forall (fits self) chunks
            ∧ (existsb ink splits = true → chunks ≠ []).
Proof.
  intros Hraw Hrecur. unfold split_pieces.
  destruct (split_loop_spec new_separators recur splits [] [] [])
    as (final & good & -> & Hfinal & Hgood & Hink); [done..|].
  simpl in *.
  destruct (flush_good_spec final good) as (final' & -> & ? & Hne);
    [done..|].
  exists final'. split; [done|]. split; [done|].
  intros Hs. by apply Hne, Hink.
Qed.

Lemma scan_separators_spec s separators default :
  [] ∈ separators →
  (scan_separators s separators default).1 = []
  ∧ (scan_separators s separators default).2 = []
  ∨ (scan_separators s separators default).1 ≠ []
    ∧ [] ∈ (scan_separators s separators default).2.
Proof.
  induction separators as [|_s rest IH]; [by intros ?%elem_of_nil|].
  intros Hin. simpl. destruct _s as [|c _s]; simpl; [by left|].
  apply elem_of_cons in Hin as [?|Hin]; [done|].
  destruct (re_search (c :: _s) s); [by right|]. by apply IH.
Qed.

Lemma _split_text_unfold s separators :
  _split_text self s separators =
    '(separator, new_separators) ← choose_separator s separators;
    splits ← _split_text_with_regex s separator;
    split_pieces self new_separators
      (λ piece, _split_text self piece new_separators) splits.
Proof.
  rewrite _split_text_equation_1. unfold _split_text_unfold_clause_1.
  unfold Logic.inspect.
  by destruct (choose_separator s separators) as [[? ?]|].
Qed.

(** With the empty separator among the separators, [_split_text]
    returns chunks that fit, and at least one for a string with ink. *)
Lemma _split_text_spec separators :
  [] ∈ separators → splits_well self (λ s, _split_text self s separators).
Proof.
  remember (length separators) as n eqn:Hn. revert separators Hn.
  induction n as [n IH] using lt_wf_ind. intros separators -> Hin s.
  rewrite _split_text_unfold. unfold choose_separator.
  destruct (last separators) as [default|] eqn:Hlast.
  2: { apply last_None in Hlast as ->. by apply elem_of_nil in Hin. }
  pose proof (scan_separators_spec s separators default Hin) as Hscan.
  assert (length (scan_separators s separators default).2
          < length separators)%nat as Hlt.
  { eapply (choose_separator_shorter s).
    unfold choose_separator. rewrite Hlast. f_equal.
    apply surjective_pairing. }
  destruct (scan_separators s separators default)
    as [separator new_separators].
  simpl in *.
  destruct (_split_text_with_regex_spec s separator)
    as (pieces & -> & Hcat & Hchars). simpl.
  destruct (split_pieces_spec new_separators
              (λ piece, _split_text self piece new_separators) pieces)
    as (chunks & -> & Hchunks & Hink).
  - intros ->. destruct Hscan as [[-> _]|[_ ?%elem_of_nil]]; [|done].
    eapply Forall_impl; [by apply Hchars|]. intros p Hp.
    unfold fits. simpl in Hp. lia.
  - intros Hnew. destruct Hscan as [[_ ->]|[_ Hin']]; [done|].
    by eapply IH.
  - exists chunks. split; [done|]. split; [done|].
    intros Hs. apply Hink. by rewrite <-ink_concat, Hcat.
Qed.

(** [split_text] under the separators of [helper.py]. *)
Lemma split_text_spec :
  [] ∈ _separators self → splits_well self (split_text self).
Proof. apply _split_text_spec. Qed.

End splitter_facts.

End LangChainFacts.

(** ** Reasoning about computations *)

Section logic.
Context {A B : Type}.
Implicit Types (σ : state) (Q : result A → state → Prop).

Lemma post_mono (m : M A) σ Q Q' :
  post m σ Q → (∀ r σ', Q r σ' → Q' r σ') → post m σ Q'.
Proof. unfold post. auto. Qed.

Lemma post_ret (a : A) σ Q : Q (Ok a) σ → post (mret a) σ Q.
Proof. done. Qed.

Lemma post_raise e σ Q : Q (Raise e) σ → post (raise e) σ Q.
Proof. done. Qed.

Lemma post_lift (r : result A) σ Q : Q r σ → post (lift r) σ Q.
Proof. done. Qed.

Lemma post_bind (m : M B) (f : B → M A) σ Q :
  post m σ (λ r σ', match r with
                    | Ok b => post (f b) σ' Q
                    | Raise e => Q (Raise e) σ'
                    end) →
  post (m ≫= f) σ Q.
Proof.
  unfold post, mbind, M_bind. by destruct (m σ) as [[b|e] σ'].
Qed.

Lemma post_try (m : M A) (handler : exn → M A) σ Q :
  post m σ (λ r σ', match r with
                    | Ok a => Q (Ok a) σ'
                    | Raise e => post (handler e) σ' Q
                    end) →
  post (try_except m handler) σ Q.
Proof.
  unfold post, try_except. by destruct (m σ) as [[a|e] σ'].
Qed.

(** A [for] loop with invariant [Inv i st σ] before iteration [i]. *)
Lemma post_for_each {St} (Inv : nat → St → state → Prop)
  (xs : list B) (body : St → B → M St) (st : St) σ
  (Q : result St → state → Prop) :
  Inv 0%nat st σ →
  (∀ i x st σ, xs !! i = Some x → Inv i st σ →
     post (body st x) σ (λ r σ', match r with
                                 | Ok st' => Inv (S i) st' σ'
                                 | Raise e => Q (Raise e) σ'
                                 end)) →
  (∀ st σ, Inv (length xs) st σ → Q (Ok st) σ) →
  post (for_each xs st body) σ Q.
Proof.
  revert Inv st σ. induction xs as [|x xs IH]; intros Inv st σ H0 Hstep Hend.
  { by apply Hend. }
  simpl. unfold post, mbind, M_bind.
  pose proof (Hstep 0%nat x st σ eq_refl H0) as Hx. unfold post in Hx.
  destruct (body st x σ) as [[st'|e] σ']; [|done]. simpl in Hx.
  apply (IH (λ i, Inv (S i))); [done| |done].
  intros i y st1 σ1 Hy. by apply (Hstep (S i)).
Qed.

End logic.

Section primitives.
Context {A : Type}.
Implicit Types (σ : state) (Q : result A → state → Prop).

Lemma post_logger lvl msg σ (Q : result unit → state → Prop) :
  Q (Ok ()) (State (heap σ) (next_loc σ) (log σ ++ [LogRecord lvl msg])) →
  post (logger lvl msg) σ Q.
Proof. done. Qed.

Lemma post_alloc o σ (Q : result loc → state → Prop) :
  Q (Ok (next_loc σ))
    (State (<[next_loc σ := o]> (heap σ)) (S (next_loc σ)) (log σ)) →
  post (alloc o) σ Q.
Proof. done. Qed.

Lemma post_get_page_content doc content md σ
  (Q : result text → state → Prop) :
  heap σ !! doc = Some (Document content md) →
  Q (Ok content) σ → post (get_page_content doc) σ Q.
Proof. unfold post, get_page_content. by intros ->. Qed.

Lemma post_get_metadata doc content md σ (Q : result loc → state → Prop) :
  heap σ !! doc = Some (Document content md) →
  Q (Ok md) σ → post (get_metadata doc) σ Q.
Proof. unfold post, get_metadata. by intros ->. Qed.

Lemma post_set_metadata doc content md md' σ
  (Q : result unit → state → Prop) :
  heap σ !! doc = Some (Document content md) →
  Q (Ok ()) (State (<[doc := Document content md']> (heap σ))
               (next_loc σ) (log σ)) →
  post (set_metadata doc md') σ Q.
Proof. unfold post, set_metadata. by intros ->. Qed.

Lemma post_dict_copy d items σ (Q : result loc → state → Prop) :
  heap σ !! d = Some (Dict items) →
  Q (Ok (next_loc σ))
    (State (<[next_loc σ := Dict items]> (heap σ)) (S (next_loc σ))
       (log σ)) →
  post (dict_copy d) σ Q.
Proof.
  unfold post, dict_copy, mbind, M_bind, dict_items. by intros ->.
Qed.

Lemma post_dict_get d key dflt items σ (Q : result value → state → Prop) :
  heap σ !! d = Some (Dict items) →
  Q (Ok (default dflt (items !! key))) σ →
  post (dict_get d key dflt) σ Q.
Proof.
  unfold post, dict_get, mbind, M_bind, dict_items. by intros ->.
Qed.

Lemma post_dict_update d kvs items σ (Q : result unit → state → Prop) :
  heap σ !! d = Some (Dict items) →
  Q (Ok ()) (State (<[d := Dict (with_items items kvs)]> (heap σ))
               (next_loc σ) (log σ)) →
  post (dict_update d kvs) σ Q.
Proof.
  unfold post, dict_update, mbind, M_bind, dict_items. by intros ->.
Qed.

End primitives.

Section frames.
Implicit Types σ : state.

Lemma extends_refl σ : extends σ σ.
Proof. done. Qed.

Lemma extends_trans σ1 σ2 σ3 :
  extends σ1 σ2 → extends σ2 σ3 → extends σ1 σ3.
Proof.
  intros (Hn & Hh & Hl) (Hn' & Hh' & Hl'). split_and!; [lia| |by etrans].
  intros l Hlt. rewrite Hh' by lia. by apply Hh.
Qed.

Lemma wf_lookup σ l o : wf σ → heap σ !! l = Some o → (l < next_loc σ)%nat.
Proof.
  intros Hwf Hl. destruct (decide (l < next_loc σ)%nat); [done|].
  rewrite Hwf in Hl by lia. done.
Qed.

Lemma extends_lookup σ σ' l o :
  wf σ → extends σ σ' → heap σ !! l = Some o → heap σ' !! l = Some o.
Proof.
  intros Hwf (_ & Hh & _) Hl. rewrite Hh; [done|]. by eapply wf_lookup.
Qed.

Lemma doc_view_extends σ σ' l v :
  wf σ → extends σ σ' → doc_view σ l = Some v → doc_view σ' l = Some v.
Proof.
  intros Hwf Hext. unfold doc_view.
  destruct (heap σ !! l) as [[content md|]|] eqn:Hl; [|done..].
  destruct (heap σ !! md) as [[|items]|] eqn:Hmd; [done| |done].
  intros <-.
  rewrite (extends_lookup σ σ' l _ Hwf Hext Hl).
  by rewrite (extends_lookup σ σ' md _ Hwf Hext Hmd).
Qed.

Lemma doc_view_Some σ l content items :
  doc_view σ l = Some (content, items) ↔
  ∃ md, heap σ !! l = Some (Document content md)
        ∧ heap σ !! md = Some (Dict items).
Proof.
  unfold doc_view. split.
  - destruct (heap σ !! l) as [[c md|]|]; [|done..].
    destruct (heap σ !! md) as [[|i]|] eqn:Hmd; [done| |done].
    intros [= -> ->]. eauto.
  - intros (md & -> & ->). done.
Qed.

(** The steps a computation takes on the state. *)
Lemma wf_log h n l r : wf (State h n l) → wf (State h n (l ++ [r])).
Proof. done. Qed.

Lemma extends_log σ0 h n l r :
  extends σ0 (State h n l) → extends σ0 (State h n (l ++ [r])).
Proof.
  intros (? & ? & ?). split_and!; [done..|]. simpl.
  by apply prefix_app_r.
Qed.

Lemma wf_alloc σ o :
  wf σ → wf (State (<[next_loc σ := o]> (heap σ)) (S (next_loc σ)) (log σ)).
Proof.
  intros Hwf l Hl. simpl in *. rewrite lookup_insert_ne by lia.
  apply Hwf. lia.
Qed.

Lemma extends_alloc σ0 σ o :
  extends σ0 σ →
  extends σ0
    (State (<[next_loc σ := o]> (heap σ)) (S (next_loc σ)) (log σ)).
Proof.
  intros (? & Hh & ?). split_and!; simpl; [lia| |done].
  intros l Hl. rewrite lookup_insert_ne by lia. by apply Hh.
Qed.

Lemma wf_store σ l o :
  wf σ → (l < next_loc σ)%nat →
  wf (State (<[l := o]> (heap σ)) (next_loc σ) (log σ)).
Proof.
  intros Hwf Hl l' Hl'. simpl in *. rewrite lookup_insert_ne by lia.
  by apply Hwf.
Qed.

(** A store to an object allocated after [σ0] leaves [σ0] alone. *)
Lemma extends_store σ0 σ l o :
  extends σ0 σ → (next_loc σ0 ≤ l)%nat →
  extends σ0 (State (<[l := o]> (heap σ)) (next_loc σ) (log σ)).
Proof.
  intros (? & Hh & ?) Hl. split_and!; simpl; [done| |done].
  intros l' Hl'. rewrite lookup_insert_ne by lia. by apply Hh.
Qed.

End frames.

(** ** [split_documents] allocates fresh documents *)

Section library_documents.
Import LangChain.
Variable self : TextSplitter.

(** The documents that [create_documents] builds for the chunks of one
    text are new objects, one per chunk and all different; nothing that
    was allocated before is touched. *)
Lemma create_document_loop_spec s md items chunks σ0 σ :
  wf σ → extends σ0 σ → wf σ0 →
  heap σ0 !! md = Some (Dict items) →
  post (for_each chunks (0%Z, 0%Z, []) (create_document self s md)) σ
    (λ r σ', ∃ index previous_chunk_len locs,
       r = Ok (index, previous_chunk_len, locs)
       ∧ wf σ' ∧ extends σ0 σ'
       ∧ Forall2 (λ l c, ∃ m, heap σ' !! l = Some (Document c m))
           locs chunks
       ∧ Forall (λ l, (next_loc σ ≤ l < next_loc σ')%nat) locs
       ∧ NoDup locs).
Proof.
  intros Hwf Hext Hwf0 Hmd.
  apply (post_for_each (λ k st σ',
    wf σ' ∧ extends σ0 σ' ∧ (next_loc σ ≤ next_loc σ')%nat
    ∧ Forall2 (λ l c, ∃ m, heap σ' !! l = Some (Document c m))
        st.2 (take k chunks)
    ∧ Forall (λ l, (next_loc σ ≤ l < next_loc σ')%nat) st.2
    ∧ NoDup st.2)).
  - simpl. split_and!; try done. apply NoDup_nil_2.
  - intros k chunk [[index previous_chunk_len] locs] σ1 Hchunk.
    intros (Hwf1 & Hext1 & Hnext & Hlocs & Hfresh & Hnodup). simpl in *.
    unfold create_document. apply post_bind.
    eapply post_dict_copy;
      [exact (extends_lookup σ0 σ1 md _ Hwf0 Hext1 Hmd)|].
    apply post_bind. unfold dict_setitem.
    eapply post_dict_update; [apply lookup_insert_eq|]. simpl.
    apply post_bind. apply post_alloc. simpl. apply post_ret. simpl.
    set (n := next_loc σ1).
    split_and!.
    + intros l Hl. simpl in *. rewrite !lookup_insert_ne by lia.
      apply Hwf1. lia.
    + destruct Hext1 as (? & Hh & ?). split_and!; simpl; [lia| |done].
      intros l Hl. rewrite !lookup_insert_ne by lia. by apply Hh.
    + lia.
    + erewrite take_S_r by done. apply Forall2_app.
      * eapply Forall2_impl; [done|]. simpl. intros l c [m Hl].
        exists m. rewrite !lookup_insert_ne; [done|..];
          apply (wf_lookup _ _ _ Hwf1) in Hl; lia.
      * constructor; [|done]. eexists. apply lookup_insert_eq.
    + apply Forall_app. split.
      * eapply Forall_impl; [done|]. simpl. lia.
      * apply Forall_singleton. lia.
    + apply NoDup_app. split_and!; [done| |apply NoDup_singleton].
      intros l Hl ->%list_elem_of_singleton.
      rewrite Forall_forall in Hfresh. apply Hfresh in Hl. lia.
  - intros [[index previous_chunk_len] locs] σ1.
    intros (? & ? & ? & Hlocs & ? & ?). simpl in *.
    rewrite firstn_all in Hlocs. eauto 10.
Qed.

Lemma split_documents_spec doc content md items chunks σ :
  wf σ →
  heap σ !! doc = Some (Document content md) →
  heap σ !! md = Some (Dict items) →
  split_text self content = Ok chunks →
  post (split_documents self [doc]) σ
    (λ r σ', ∃ locs,
       r = Ok locs ∧ wf σ' ∧ extends σ σ'
       ∧ Forall2 (λ l c, ∃ m, heap σ' !! l = Some (Document c m))
           locs chunks
       ∧ Forall (λ l, (next_loc σ ≤ l < next_loc σ')%nat) locs
       ∧ NoDup locs).
Proof.
  intros Hwf Hdoc Hmd Hsplit. unfold split_documents. apply post_bind.
  simpl. apply post_bind. apply post_bind.
  eapply post_get_page_content; [done|]. apply post_bind.
  eapply post_get_metadata; [done|]. apply post_ret, post_ret.
  unfold create_documents. simpl. apply post_bind. apply post_bind.
  apply post_lift. rewrite Hsplit. apply post_bind.
  eapply post_mono;
    [by eapply (create_document_loop_spec content md items chunks σ σ)|].
  simpl. intros r σ' (index & plen & locs & -> & ? & ? & ? & ? & ?).
  apply post_ret, post_ret. eauto 10.
Qed.

(** When [split_text] raises, [split_documents] raises the same exception
    and has done nothing. *)
Lemma split_documents_raises doc content md e σ :
  heap σ !! doc = Some (Document content md) →
  split_text self content = Raise e →
  post (split_documents self [doc]) σ (λ r σ', r = Raise e ∧ σ' = σ).
Proof.
  intros Hdoc Hsplit. unfold split_documents. apply post_bind.
  simpl. apply post_bind. apply post_bind.
  eapply post_get_page_content; [done|]. apply post_bind.
  eapply post_get_metadata; [done|]. apply post_ret, post_ret.
  unfold create_documents. simpl. apply post_bind. apply post_bind.
  apply post_lift. by rewrite Hsplit.
Qed.

End library_documents.

(** ** The splitter of [helper.py], document by document *)

Section chunk_document.
Import LangChain.

Lemma lookup_enumerate {A} (xs : list A) i x :
  xs !! i = Some x → enumerate xs !! i = Some (Z.of_nat i, x).
Proof. intros Hx. unfold enumerate. by rewrite list_lookup_imap, Hx. Qed.

Lemma lookup_enumerate_inv {A} (xs : list A) i nx :
  enumerate xs !! i = Some nx → nx.1 = Z.of_nat i ∧ xs !! i = Some nx.2.
Proof.
  unfold enumerate. rewrite list_lookup_imap.
  destruct (xs !! i); [|done]. by intros [= <-].
Qed.

Lemma length_enumerate {A} (xs : list A) :
  length (enumerate xs) = length xs.
Proof. apply length_imap. Qed.

(** After the loop over the chunks of a document, every chunk carries a
    fresh dict with the parent's items and the four chunk entries. *)
Lemma enhance_loop_spec document content md items doc_index locs chunks
  σ0 σ :
  wf σ0 → wf σ → extends σ0 σ →
  heap σ0 !! document = Some (Document content md) →
  heap σ0 !! md = Some (Dict items) →
  Forall2 (λ l c, ∃ m, heap σ !! l = Some (Document c m)) locs chunks →
  Forall (λ l, (next_loc σ0 ≤ l < next_loc σ)%nat) locs →
  NoDup locs →
  post (for_each (enumerate locs) ()
          (enhance_chunk document doc_index locs)) σ
    (λ r σ',
       r = Ok () ∧ wf σ' ∧ extends σ0 σ'
       ∧ Forall2 (λ l v, doc_view σ' l = Some v) locs
           (imap (λ j chunk,
                    (chunk,
                     enhanced_items items doc_index (Z.of_nat j)
                       (len locs) chunk)) chunks)).
Proof.
  intros Hwf0 Hwf Hext Hdoc Hmd Hlocs Hfresh Hnodup.
  pose proof (Forall2_length _ _ _ Hlocs) as Hlen.
  apply (post_for_each (λ k (_ : unit) σ1,
    wf σ1 ∧ extends σ0 σ1 ∧ (next_loc σ ≤ next_loc σ1)%nat
    ∧ ∀ j l c, locs !! j = Some l → chunks !! j = Some c →
        ∃ m, heap σ1 !! l = Some (Document c m)
             ∧ ((j < k)%nat →
                (next_loc σ ≤ m)%nat
                ∧ heap σ1 !! m
                  = Some (Dict (enhanced_items items doc_index
                                  (Z.of_nat j) (len locs) c))))).
  - split_and!; [done..|]. intros j l c Hl Hc.
    destruct (Forall2_lookup_lr _ _ _ _ _ _ Hlocs Hl Hc) as [m Hm].
    exists m. split; [done|lia].
  - intros k [chunk_index chunk] [] σ1 Hk (Hwf1 & Hext1 & Hnext & Hinv).
    apply lookup_enumerate_inv in Hk as [Hidx Hk]. simpl in Hidx, Hk.
    subst chunk_index.
    destruct (lookup_lt_is_Some_2 chunks k) as [c Hc].
    { rewrite <-Hlen. by eapply lookup_lt_Some. }
    destruct (Hinv k chunk c Hk Hc) as (m & Hchunk & _).
    rewrite Forall_forall in Hfresh.
    pose proof (Hfresh chunk (list_elem_of_lookup_2 _ _ _ Hk)) as Hbound.
    unfold enhance_chunk. apply post_bind.
    eapply post_get_metadata;
      [exact (extends_lookup σ0 σ1 _ _ Hwf0 Hext1 Hdoc)|].
    apply post_bind.
    eapply post_dict_copy;
      [exact (extends_lookup σ0 σ1 _ _ Hwf0 Hext1 Hmd)|].
    set (n := next_loc σ1). apply post_bind.
    eapply post_get_page_content.
    { simpl. rewrite lookup_insert_ne by lia. done. }
    apply post_bind.
    eapply post_dict_update; [apply lookup_insert_eq|]. simpl.
    eapply post_set_metadata.
    { simpl. rewrite !lookup_insert_ne by lia. done. }
    simpl. split_and!.
    + intros l Hl. simpl in *. rewrite !lookup_insert_ne by lia.
      apply Hwf1. lia.
    + destruct Hext1 as (? & Hh & ?). split_and!; simpl; [lia| |done].
      intros l Hl. rewrite !lookup_insert_ne by lia. by apply Hh.
    + lia.
    + intros j l c' Hl Hc'.
      destruct (Hinv j l c' Hl Hc') as (m' & Hm' & Hdone).
      pose proof (Hfresh l (list_elem_of_lookup_2 _ _ _ Hl)) as Hbound'.
      destruct (decide (j = k)) as [->|Hjk].
      * assert (l = chunk) as -> by congruence.
        assert (c' = c) as -> by congruence.
        exists n. split; [apply lookup_insert_eq|]. intros _.
        split; [lia|]. rewrite lookup_insert_ne by lia.
        rewrite lookup_insert_eq. done.
      * assert (l ≠ chunk) as Hne.
        { intros ->. apply Hjk. by eapply NoDup_lookup. }
        exists m'. rewrite !lookup_insert_ne by lia. split; [done|].
        intros Hlt. destruct Hdone as [Hm1 Hm2]; [lia|]. split; [done|].
        apply (wf_lookup _ _ _ Hwf1) in Hm2 as Hm3.
        rewrite !lookup_insert_ne by lia. done.
  - intros [] σ1 (Hwf1 & Hext1 & _ & Hinv). split_and!; [done..|].
    apply Forall2_same_length_lookup_2.
    { by rewrite length_imap. }
    intros j l v Hl. rewrite list_lookup_imap.
    destruct (chunks !! j) as [c|] eqn:Hc; [|done]. intros [= <-].
    destruct (Hinv j l c Hl Hc) as (m & Hm & Hdone).
    rewrite length_enumerate in Hdone.
    destruct Hdone as [_ Hitems]; [by eapply lookup_lt_Some|].
    apply doc_view_Some. eauto.
Qed.

Lemma doc_view_log σ r l :
  doc_view (State (heap σ) (next_loc σ) (log σ ++ [r])) l = doc_view σ l.
Proof. done. Qed.

(** One iteration of the loop over the documents: the chunks of a
    well-formed document are appended, with the expected content and
    metadata; when the text splitter raises, the document is skipped.
    Nothing raises. *)
Lemma chunk_document_spec splitter all doc_index document view σ :
  wf σ → doc_view σ document = Some view →
  post (chunk_document splitter all (doc_index, document)) σ
    (λ r σ', ∃ locs,
       r = Ok (all ++ locs) ∧ wf σ' ∧ extends σ σ'
       ∧ Forall2 (λ l v, doc_view σ' l = Some v) locs
           (chunk_views splitter doc_index view)).
Proof.
  intros Hwf Hview.
  destruct view as [content items].
  apply doc_view_Some in Hview as (md & Hdoc & Hmd).
  unfold chunk_document. apply post_try. apply post_bind.
  eapply post_get_metadata; [done|]. apply post_bind.
  eapply post_dict_get; [done|]. apply post_bind.
  apply post_logger. apply post_bind.
  destruct (split_text splitter content) as [chunks|e] eqn:Hsplit.
  - eapply post_mono.
    { eapply split_documents_spec; [by apply wf_log|done..]. }
    simpl.
    intros r σ1 (locs & -> & Hwf1 & Hext1 & Hlocs & Hfresh & Hnodup).
    assert (extends σ σ1) as Hext.
    { eapply extends_trans; [|done]. by apply extends_log. }
    apply post_bind. eapply post_mono.
    { by eapply (enhance_loop_spec document content md items doc_index
                   locs chunks σ σ1). }
    simpl. intros r σ2 (-> & Hwf2 & Hext2 & Hviews).
    apply post_bind.
    eapply post_get_metadata;
      [exact (extends_lookup σ σ2 _ _ Hwf Hext2 Hdoc)|].
    apply post_bind.
    eapply post_dict_get;
      [exact (extends_lookup σ σ2 _ _ Hwf Hext2 Hmd)|].
    apply post_bind. apply post_logger. apply post_ret.
    exists locs. split_and!; [done|by apply wf_log|by apply extends_log|].
    unfold chunk_views. simpl. rewrite Hsplit.
    unfold len. rewrite <-(Forall2_length _ _ _ Hlocs). done.
  - eapply post_mono.
    { by eapply split_documents_raises. }
    simpl. intros r σ1 [-> ->]. apply post_bind, post_logger, post_ret.
    exists []. rewrite app_nil_r.
    split_and!; [done|by do 2 apply wf_log| |].
    + do 2 apply extends_log. apply extends_refl.
    + unfold chunk_views. simpl. rewrite Hsplit. constructor.
Qed.

(** The loop over the documents yields one group of chunks per
    document, in order. *)
Lemma chunk_documents_spec splitter documents views σ :
  wf σ →
  Forall2 (λ d v, doc_view σ d = Some v) documents views →
  post (for_each (enumerate documents) [] (chunk_document splitter)) σ
    (λ r σ', ∃ groups,
       r = Ok (concat groups) ∧ wf σ' ∧ extends σ σ'
       ∧ Forall2 (Forall2 (λ l v, doc_view σ' l = Some v)) groups
           (imap (λ i v, chunk_views splitter (Z.of_nat i) v) views)).
Proof.
  intros Hwf Hdocs.
  pose proof (Forall2_length _ _ _ Hdocs) as Hlen.
  apply (post_for_each (λ k all σ1,
    wf σ1 ∧ extends σ σ1
    ∧ ∃ groups, all = concat groups
        ∧ Forall2 (Forall2 (λ l v, doc_view σ1 l = Some v)) groups
            (take k (imap (λ i v, chunk_views splitter (Z.of_nat i) v)
                       views)))).
  - split_and!; [done..|]. exists []. by rewrite take_0.
  - intros k [doc_index document] all σ1 Hk.
    intros (Hwf1 & Hext1 & groups & -> & Hgroups).
    apply lookup_enumerate_inv in Hk as [Hidx Hk]. simpl in Hidx, Hk.
    subst doc_index.
    destruct (Forall2_lookup_l _ _ _ _ _ Hdocs Hk) as (view & Hv & Hview).
    eapply post_mono.
    { eapply chunk_document_spec; [done..|].
      exact (doc_view_extends σ σ1 _ _ Hwf Hext1 Hview). }
    simpl. intros r σ2 (locs & -> & Hwf2 & Hext2 & Hlocs).
    split_and!; [done|by eapply extends_trans|].
    exists (groups ++ [locs]). split.
    { rewrite concat_app. simpl. by rewrite app_nil_r. }
    erewrite take_S_r; [|by rewrite list_lookup_imap, Hv].
    apply Forall2_app; [|by constructor].
    eapply Forall2_impl; [done|]. simpl. intros group vs Hgroup.
    eapply Forall2_impl; [done|]. simpl. intros l v.
    by apply doc_view_extends.
  - intros all σ1 (Hwf1 & Hext1 & groups & -> & Hgroups).
    rewrite length_enumerate in Hgroups. exists groups.
    split_and!; [done..|].
    rewrite firstn_all2 in Hgroups; [done|]. rewrite length_imap. lia.
Qed.

(** The closing statistics only read the chunks and write the log. *)
Lemma log_statistics_spec all σ :
  all ≠ [] →
  Forall (λ l, ∃ c m, heap σ !! l = Some (Document c m)) all →
  post (log_statistics all) σ
    (λ r σ', r = Ok () ∧ heap σ' = heap σ ∧ next_loc σ' = next_loc σ
             ∧ log σ `prefix_of` log σ').
Proof.
  intros Hne Hall. unfold log_statistics. apply post_bind.
  apply (post_for_each (λ k chunk_sizes σ1,
           σ1 = σ ∧ length chunk_sizes = k)); [done|..].
  - intros k l chunk_sizes σ1 Hl [-> Hlen].
    rewrite Forall_forall in Hall.
    destruct (Hall l (list_elem_of_lookup_2 _ _ _ Hl)) as (c & m & Hc).
    apply post_bind. eapply post_get_page_content; [done|].
    apply post_ret. split; [done|]. rewrite length_app. simpl. lia.
  - intros chunk_sizes σ1 [-> Hlen]. apply post_bind, post_lift.
    unfold py_mean. destruct (len chunk_sizes =? 0)%Z eqn:Hzero.
    { apply Z.eqb_eq in Hzero. unfold len in Hzero.
      destruct all; [done|]. simpl in *. lia. }
    apply post_bind, post_logger, post_bind, post_lift.
    destruct chunk_sizes as [|size0 sizes].
    { destruct all; [done|]. simpl in *. lia. }
    simpl. apply post_bind, post_lift. simpl. apply post_logger. simpl.
    split_and!; [done..|]. rewrite <-app_assoc. by apply prefix_app_r.
Qed.

End chunk_document.

(** ** The splitter of [helper.py] as a whole *)

Section split_documents_into_semantic_chunks.
Local Open Scope Z_scope.

Lemma elem_of_concat {A} (x : A) (ls : list (list A)) :
  x ∈ concat ls → ∃ l, x ∈ l ∧ l ∈ ls.
Proof.
  induction ls as [|l ls IH]; simpl; [by intros ?%elem_of_nil|].
  intros [Hx|Hx]%elem_of_app.
  - exists l. split; [done|]. apply list_elem_of_here.
  - destruct (IH Hx) as (l' & ? & ?). exists l'. split; [done|].
    by apply list_elem_of_further.
Qed.

Lemma medical_splitter_well_configured chunk_size chunk_overlap :
  0 ≤ chunk_overlap < chunk_size →
  well_configured (medical_splitter chunk_size chunk_overlap).
Proof.
  intros ?. split_and!; simpl; [lia..|].
  unfold medical_separators. do 8 apply list_elem_of_further.
  apply list_elem_of_here.
Qed.

(** With rejected parameters the function raises [ValueError] after
    three log records and nothing else. *)
Lemma split_rejects documents chunk_size chunk_overlap σ :
  rejected chunk_size chunk_overlap →
  ∃ msg records,
    split_documents_into_semantic_chunks documents chunk_size
      chunk_overlap σ
    = (Raise (Exn ValueError msg),
       State (heap σ) (next_loc σ) (log σ ++ records)).
Proof.
  intros Hrej. unfold split_documents_into_semantic_chunks, try_except.
  unfold mbind, M_bind, when, logger, raise. simpl.
  destruct (chunk_size <=? 0) eqn:H1; simpl.
  { rewrite <-!app_assoc. eauto. }
  destruct (chunk_overlap <? 0) eqn:H2; simpl.
  { rewrite <-!app_assoc. eauto. }
  destruct (chunk_size <=? chunk_overlap) eqn:H3; simpl.
  { rewrite <-!app_assoc. eauto. }
  unfold rejected in Hrej. lia.
Qed.

(** With accepted parameters the function returns the chunks of the
    documents, group by group, as new objects. *)
Lemma split_accepts documents views chunk_size chunk_overlap σ :
  0 ≤ chunk_overlap < chunk_size →
  wf σ → documents_at σ documents views →
  post (split_documents_into_semantic_chunks documents chunk_size
          chunk_overlap) σ
    (λ r σ', ∃ groups,
       r = Ok (concat groups) ∧ wf σ' ∧ extends σ σ'
       ∧ Forall2 (documents_at σ') groups
           (imap (λ i v,
                    chunk_views (medical_splitter chunk_size chunk_overlap)
                      (Z.of_nat i) v) views)).
Proof.
  intros Hvalid Hwf Hdocs.
  unfold split_documents_into_semantic_chunks. apply post_try.
  apply post_bind, post_logger, post_bind, post_logger.
  unfold when.
  rewrite (proj2 (Z.leb_gt chunk_size 0)) by lia.
  rewrite (proj2 (Z.ltb_ge chunk_overlap 0)) by lia.
  rewrite (proj2 (Z.leb_gt chunk_size chunk_overlap)) by lia.
  do 3 (apply post_bind, post_ret).
  destruct documents as [|document documents].
  { simpl. apply post_bind, post_logger, post_ret.
    apply Forall2_nil_inv_l in Hdocs as ->. exists [].
    split_and!; [done|by apply wf_log| |by constructor].
    do 3 apply extends_log. apply extends_refl. }
  cbn [truthy negb]. apply post_bind, post_lift.
  unfold LangChain.RecursiveCharacterTextSplitter.
  rewrite (proj2 (Z.leb_gt chunk_size 0)) by lia.
  rewrite (proj2 (Z.ltb_ge chunk_overlap 0)) by lia.
  rewrite (proj2 (Z.ltb_ge chunk_size chunk_overlap)) by lia.
  apply post_bind. eapply post_mono.
  { eapply (chunk_documents_spec (medical_splitter chunk_size chunk_overlap));
      [|done]. by do 2 apply wf_log. }
  simpl. intros r σ1 (groups & -> & Hwf1 & Hext1 & Hgroups).
  assert (extends σ σ1) as Hext.
  { eapply extends_trans; [|done]. do 2 apply extends_log.
    apply extends_refl. }
  apply post_bind, post_logger, post_bind.
  destruct (concat groups) as [|chunk chunks] eqn:Hall.
  { simpl. apply post_ret, post_ret. exists groups.
    split_and!;
      [by rewrite Hall|by apply wf_log|by apply extends_log|done]. }
  cbn [truthy when]. rewrite <-Hall. eapply post_mono.
  { eapply log_statistics_spec; [by rewrite Hall|].
    apply Forall_forall. intros l Hl. simpl.
    apply elem_of_concat in Hl as (group & Hl & Hgroup).
    apply list_elem_of_lookup in Hgroup as [i Hgroup].
    destruct (Forall2_lookup_l _ _ _ _ _ Hgroups Hgroup)
      as (vs & _ & Hvs).
    apply list_elem_of_lookup in Hl as [j Hl].
    destruct (Forall2_lookup_l _ _ _ _ _ Hvs Hl) as ([c items] & _ & Hv).
    apply doc_view_Some in Hv as (m & ? & ?). eauto. }
  simpl. intros r σ2 (-> & Hheap & Hnext & Hlog). apply post_ret.
  exists groups. split_and!; [done|..].
  - intros l Hl. rewrite Hheap. apply Hwf1. simpl. lia.
  - destruct Hext as (? & Hh & ?). split_and!; [simpl in *; lia|..].
    + intros l Hl. rewrite Hheap. simpl. by apply Hh.
    + etrans; [done|]. etrans; [|done]. simpl. by apply prefix_app_r.
  - eapply Forall2_impl; [done|]. simpl. intros group vs Hgroup.
    eapply Forall2_impl; [done|]. simpl. intros l v.
    unfold doc_view. by rewrite Hheap.
Qed.

End split_documents_into_semantic_chunks.

(** ** The claims about the splitter *)

Section splitter_claims.
Local Open Scope Z_scope.
Implicit Types (σ : state) (documents : list loc).

Lemma post_run {A} (m : M A) σ (Q : result A → state → Prop) :
  post m σ Q → ∃ r σ', m σ = (r, σ') ∧ Q r σ'.
Proof. unfold post. destruct (m σ) as [r σ']. eauto. Qed.

Lemma example_state_wf : wf example_state.
Proof.
  intros l Hl. simpl in *. unfold example_heap.
  rewrite lookup_insert_ne by lia. apply lookup_singleton_ne. lia.
Qed.

Lemma example_documents : documents_at example_state [1%nat] example_views.
Proof. repeat constructor. Qed.

Lemma chunk_views_lookup splitter doc_index content items j view :
  chunk_views splitter doc_index (content, items) !! j = Some view →
  ∃ chunks chunk,
    LangChain.split_text splitter content = Ok chunks
    ∧ chunks !! j = Some chunk
    ∧ length (chunk_views splitter doc_index (content, items))
      = length chunks
    ∧ view = (chunk,
              enhanced_items items doc_index (Z.of_nat j) (len chunks)
                chunk).
Proof.
  unfold chunk_views. simpl.
  destruct (LangChain.split_text splitter content) as [chunks|]; [|done].
  rewrite list_lookup_imap, length_imap.
  destruct (chunks !! j) as [chunk|] eqn:Hchunk; [|done].
  intros [= <-]. by exists chunks, chunk.
Qed.

Lemma chunk_views_fit splitter doc_index view chunk_view :
  well_configured splitter →
  chunk_view ∈ chunk_views splitter doc_index view →
  len chunk_view.1 ≤ LangChain._chunk_size splitter.
Proof.
  intros (Hoverlap & Hsize & Hseps) [j Hj]%list_elem_of_lookup.
  destruct view as [content items].
  apply chunk_views_lookup in Hj
    as (chunks & chunk & Hsplit & Hchunk & _ & ->).
  destruct (LangChainFacts.split_text_spec splitter Hoverlap Hsize Hseps
              content) as (chunks' & Hsplit' & Hfit & _).
  assert (chunks' = chunks) as -> by congruence.
  rewrite Forall_forall in Hfit. simpl.
  by eapply Hfit, list_elem_of_lookup_2.
Qed.

Lemma chunk_views_nonempty splitter doc_index content items :
  well_configured splitter →
  ink content = true →
  chunk_views splitter doc_index (content, items) ≠ [].
Proof.
  intros (Hoverlap & Hsize & Hseps) Hink.
  destruct (LangChainFacts.split_text_spec splitter Hoverlap Hsize Hseps
              content) as (chunks & Hsplit & _ & Hne).
  unfold chunk_views. simpl. rewrite Hsplit.
  specialize (Hne Hink). by destruct chunks.
Qed.

(** The entries of a chunk's metadata. *)
Lemma enhanced_items_lookup items doc_index chunk_index total chunk :
  let enhanced :=
    enhanced_items items doc_index chunk_index total chunk in
  enhanced !! lit "chunk_index" = Some (VInt chunk_index)
  ∧ enhanced !! lit "total_chunks" = Some (VInt total)
  ∧ enhanced !! lit "chunk_size" = Some (VInt (len chunk))
  ∧ enhanced !! lit "parent_document_index" = Some (VInt doc_index)
  ∧ dom items ⊆ dom enhanced.
Proof.
  unfold enhanced_items, with_items. simpl. split_and!.
  - do 3 (rewrite lookup_insert_ne by done). apply lookup_insert_eq.
  - do 2 (rewrite lookup_insert_ne by done). apply lookup_insert_eq.
  - rewrite lookup_insert_ne by done. apply lookup_insert_eq.
  - apply lookup_insert_eq.
  - rewrite !dom_insert. set_solver.
Qed.

(** The chunks seen from the final state are the expected ones. *)
Lemma groups_views σ' (groups : list (list loc))
  (expected : list (list (text * gmap text value))) :
  Forall2 (documents_at σ') groups expected →
  doc_view σ' <$> concat groups = Some <$> concat expected.
Proof.
  induction 1 as [|group vs groups expected Hgroup _ IH]; [done|].
  simpl. rewrite !fmap_app, IH. f_equal.
  clear -Hgroup. induction Hgroup as [|l v ls vs Hl _ IH']; [done|].
  rewrite !fmap_cons. by rewrite Hl, IH'.
Qed.

(** The common ground of the claims: with accepted parameters the run
    returns groups of chunks, one group per document. *)
Lemma split_run documents views chunk_size chunk_overlap σ :
  0 ≤ chunk_overlap < chunk_size →
  wf σ → documents_at σ documents views →
  ∃ groups σ',
    split_documents_into_semantic_chunks documents chunk_size
      chunk_overlap σ = (Ok (concat groups), σ')
    ∧ wf σ' ∧ extends σ σ'
    ∧ Forall2 (documents_at σ') groups
        (imap (λ i v,
                 chunk_views (medical_splitter chunk_size chunk_overlap)
                   (Z.of_nat i) v) views).
Proof.
  intros Hvalid Hwf Hdocs.
  destruct (post_run _ _ _
              (split_accepts documents views chunk_size chunk_overlap σ
                 Hvalid Hwf Hdocs))
    as (r & σ' & Hrun & groups & -> & ? & ? & ?).
  by exists groups, σ'.
Qed.

(** C1. For every list of documents and every parameter pair with
    [0 <= chunk_overlap < chunk_size], the splitter returns, and every
    chunk it returns has a content of at most [chunk_size] characters.
    With the empty separator last in the separator list a split point
    always exists, so the bound has no exception. *)
Theorem chunks_fit_chunk_size documents views chunk_size chunk_overlap σ :
  0 ≤ chunk_overlap < chunk_size →
  wf σ → documents_at σ documents views →
  ∃ chunks σ',
    split_documents_into_semantic_chunks documents chunk_size
      chunk_overlap σ = (Ok chunks, σ')
    ∧ Forall (λ chunk, ∃ content items,
                doc_view σ' chunk = Some (content, items)
                ∧ len content ≤ chunk_size) chunks.
Proof.
  intros Hvalid Hwf Hdocs.
  destruct (split_run documents views chunk_size chunk_overlap σ)
    as (groups & σ' & Hrun & _ & _ & Hgroups); [done..|].
  exists (concat groups), σ'. split; [done|].
  apply Forall_forall. intros chunk Hchunk.
  apply elem_of_concat in Hchunk as (group & Hchunk & Hgroup).
  apply list_elem_of_lookup in Hgroup as [i Hgroup].
  destruct (Forall2_lookup_l _ _ _ _ _ Hgroups Hgroup) as (vs & Hvs & Hg).
  apply list_elem_of_lookup in Hchunk as [j Hchunk].
  destruct (Forall2_lookup_l _ _ _ _ _ Hg Hchunk)
    as ([content items] & Hv & Hview).
  exists content, items. split; [done|].
  rewrite list_lookup_imap in Hvs.
  destruct (views !! i) as [view|]; [|done]. injection Hvs as <-.
  apply (chunk_views_fit (medical_splitter chunk_size chunk_overlap)
           (Z.of_nat i) view (content, items)).
  - by apply medical_splitter_well_configured.
  - by eapply list_elem_of_lookup_2.
Qed.

Lemma chunks_fit_chunk_size_witness :
  0 ≤ 1 < 4 ∧ wf example_state
  ∧ documents_at example_state [1%nat] example_views
  ∧ ∃ chunks σ',
      split_documents_into_semantic_chunks [1%nat] 4 1 example_state
      = (Ok chunks, σ')
      ∧ Forall (λ chunk, ∃ content items,
                  doc_view σ' chunk = Some (content, items)
                  ∧ len content ≤ 4) chunks.
Proof.
  split_and!; [lia..|apply example_state_wf|apply example_documents|].
  apply (chunks_fit_chunk_size [1%nat] example_views 4 1 example_state);
    [lia|apply example_state_wf|apply example_documents].
Defined.

(** C2. The splitter fails if and only if [chunk_size <= 0], or
    [chunk_overlap < 0], or [chunk_overlap >= chunk_size]; the failure is
    a [ValueError], and it comes before any document is processed: the
    heap is as it was.  In particular [chunk_overlap = chunk_size - 1] is
    accepted for a positive [chunk_size], and [chunk_overlap = chunk_size]
    is rejected. *)
Theorem split_rejects_exactly_bad_parameters documents views chunk_size σ :
  wf σ → documents_at σ documents views →
  let run chunk_overlap :=
    split_documents_into_semantic_chunks documents chunk_size
      chunk_overlap σ in
  (∀ chunk_overlap,
     ((∃ e, (run chunk_overlap).1 = Raise e)
      ↔ rejected chunk_size chunk_overlap)
     ∧ (∀ e, (run chunk_overlap).1 = Raise e → exn_type e = ValueError)
     ∧ (rejected chunk_size chunk_overlap →
        heap (run chunk_overlap).2 = heap σ
        ∧ next_loc (run chunk_overlap).2 = next_loc σ))
  ∧ (0 < chunk_size → ∃ chunks, (run (chunk_size - 1)).1 = Ok chunks)
  ∧ (∃ e, (run chunk_size).1 = Raise e ∧ exn_type e = ValueError).
Proof.
  intros Hwf Hdocs run. subst run. simpl. split_and!.
  - intros chunk_overlap.
    destruct (decide (rejected chunk_size chunk_overlap)) as [Hrej|Hok].
    + destruct (split_rejects documents chunk_size chunk_overlap σ Hrej)
        as (msg & records & ->). simpl.
      split_and!; [|by intros e [= <-]|done]. split; [done|]. eauto.
    + destruct (split_run documents views chunk_size chunk_overlap σ)
        as (groups & σ' & -> & _); [unfold rejected in Hok; lia|done..|].
      simpl. split_and!; [|done..]. split; [by intros [e ?]|done].
  - intros Hsize.
    destruct (split_run documents views chunk_size (chunk_size - 1) σ)
      as (groups & σ' & -> & _); [lia|done..|]. simpl. eauto.
  - destruct (split_rejects documents chunk_size chunk_size σ)
      as (msg & records & ->); [unfold rejected; lia|]. simpl. eauto.
Qed.

Lemma split_rejects_exactly_bad_parameters_witness :
  wf example_state ∧ documents_at example_state [1%nat] example_views
  ∧ let run chunk_overlap :=
      split_documents_into_semantic_chunks [1%nat] 5 chunk_overlap
        example_state in
    (∀ chunk_overlap,
       ((∃ e, (run chunk_overlap).1 = Raise e) ↔ rejected 5 chunk_overlap)
       ∧ (∀ e, (run chunk_overlap).1 = Raise e → exn_type e = ValueError)
       ∧ (rejected 5 chunk_overlap →
          heap (run chunk_overlap).2 = heap example_state
          ∧ next_loc (run chunk_overlap).2 = next_loc example_state))
    ∧ (0 < 5 → ∃ chunks, (run (5 - 1)).1 = Ok chunks)
    ∧ (∃ e, (run 5).1 = Raise e ∧ exn_type e = ValueError).
Proof.
  split_and!; [apply example_state_wf|apply example_documents|].
  apply (split_rejects_exactly_bad_parameters [1%nat] example_views 5
           example_state);
    [apply example_state_wf|apply example_documents].
Defined.

(** C3. Every chunk produced from a parent document D carries a metadata
    dict that has every key of D's metadata, and the chunk's 0-based index
    within D, the number of chunks of D, the chunk's length and D's
    position among the input documents. *)
Theorem chunk_metadata_extends_parent
  documents views chunk_size chunk_overlap σ :
  0 ≤ chunk_overlap < chunk_size →
  wf σ → documents_at σ documents views →
  ∃ groups σ',
    split_documents_into_semantic_chunks documents chunk_size
      chunk_overlap σ = (Ok (concat groups), σ')
    ∧ length groups = length documents
    ∧ ∀ i j parent parent_content parent_items group chunk,
        documents !! i = Some parent →
        doc_view σ parent = Some (parent_content, parent_items) →
        groups !! i = Some group →
        group !! j = Some chunk →
        ∃ content items,
          doc_view σ' chunk = Some (content, items)
          ∧ dom parent_items ⊆ dom items
          ∧ items !! lit "chunk_index" = Some (VInt (Z.of_nat j))
          ∧ items !! lit "total_chunks" = Some (VInt (len group))
          ∧ items !! lit "chunk_size" = Some (VInt (len content))
          ∧ items !! lit "parent_document_index"
            = Some (VInt (Z.of_nat i)).
Proof.
  intros Hvalid Hwf Hdocs.
  destruct (split_run documents views chunk_size chunk_overlap σ)
    as (groups & σ' & Hrun & _ & _ & Hgroups); [done..|].
  exists groups, σ'. split; [done|]. split.
  { rewrite (Forall2_length _ _ _ Hgroups), length_imap.
    symmetry. by eapply Forall2_length. }
  intros i j parent parent_content parent_items group chunk
    Hparent Hview Hgroup Hchunk.
  destruct (Forall2_lookup_l _ _ _ _ _ Hdocs Hparent) as (view & Hv & Hpv).
  assert (view = (parent_content, parent_items)) as -> by congruence.
  destruct (Forall2_lookup_l _ _ _ _ _ Hgroups Hgroup) as (vs & Hvs & Hg).
  rewrite list_lookup_imap, Hv in Hvs. injection Hvs as <-.
  destruct (Forall2_lookup_l _ _ _ _ _ Hg Hchunk) as (cv & Hcv & Hchunkv).
  apply chunk_views_lookup in Hcv
    as (chunks & content & _ & _ & Hlen & ->).
  exists content,
    (enhanced_items parent_items (Z.of_nat i) (Z.of_nat j) (len chunks)
       content).
  split; [done|].
  assert (len group = len chunks) as ->.
  { unfold len. by rewrite (Forall2_length _ _ _ Hg), Hlen. }
  pose proof (enhanced_items_lookup parent_items (Z.of_nat i)
                (Z.of_nat j) (len chunks) content) as Hitems.
  simpl in Hitems. tauto.
Qed.

Lemma chunk_metadata_extends_parent_witness :
  0 ≤ 1 < 4 ∧ wf example_state
  ∧ documents_at example_state [1%nat] example_views
  ∧ ∃ groups σ',
      split_documents_into_semantic_chunks [1%nat] 4 1 example_state
      = (Ok (concat groups), σ')
      ∧ length groups = length [1%nat]
      ∧ ∀ i j parent parent_content parent_items group chunk,
          [1%nat] !! i = Some parent →
          doc_view example_state parent
          = Some (parent_content, parent_items) →
          groups !! i = Some group →
          group !! j = Some chunk →
          ∃ content items,
            doc_view σ' chunk = Some (content, items)
            ∧ dom parent_items ⊆ dom items
            ∧ items !! lit "chunk_index" = Some (VInt (Z.of_nat j))
            ∧ items !! lit "total_chunks" = Some (VInt (len group))
            ∧ items !! lit "chunk_size" = Some (VInt (len content))
            ∧ items !! lit "parent_document_index"
              = Some (VInt (Z.of_nat i)).
Proof.
  split_and!; [lia..|apply example_state_wf|apply example_documents|].
  apply (chunk_metadata_extends_parent [1%nat] example_views 4 1
           example_state);
    [lia|apply example_state_wf|apply example_documents].
Defined.

(** C6, as stated, fails: a document whose content is a single space is
    not empty, and the splitter returns no chunk for it. *)
Lemma blank_document_yields_no_chunk :
  ∃ content items,
    doc_view blank_state 1%nat = Some (content, items)
    ∧ content ≠ []
    ∧ (split_documents_into_semantic_chunks [1%nat] 500 50
         blank_state).1 = Ok [].
Proof.
  exists (lit " "), ∅. split_and!; [done|done|]. vm_compute. done.
Qed.

(** C6, amended. For every document whose content has a character that
    is not whitespace, the splitter produces at least one chunk for that
    document. *)
Theorem inked_document_yields_chunk
  documents views chunk_size chunk_overlap σ i parent content items :
  0 ≤ chunk_overlap < chunk_size →
  wf σ → documents_at σ documents views →
  documents !! i = Some parent →
  doc_view σ parent = Some (content, items) →
  ink content = true →
  ∃ groups σ' group chunk chunk_content chunk_items,
    split_documents_into_semantic_chunks documents chunk_size
      chunk_overlap σ = (Ok (concat groups), σ')
    ∧ groups !! i = Some group
    ∧ chunk ∈ group
    ∧ doc_view σ' chunk = Some (chunk_content, chunk_items)
    ∧ chunk_items !! lit "parent_document_index"
      = Some (VInt (Z.of_nat i)).
Proof.
  intros Hvalid Hwf Hdocs Hparent Hview Hink.
  destruct (split_run documents views chunk_size chunk_overlap σ)
    as (groups & σ' & Hrun & _ & _ & Hgroups); [done..|].
  destruct (Forall2_lookup_l _ _ _ _ _ Hdocs Hparent) as (view & Hv & Hpv).
  assert (view = (content, items)) as -> by congruence.
  destruct (Forall2_lookup_r _ _ _ i
              (chunk_views (medical_splitter chunk_size chunk_overlap)
                 (Z.of_nat i) (content, items)) Hgroups)
    as (group & Hgroup & Hg); [by rewrite list_lookup_imap, Hv|].
  pose proof (chunk_views_nonempty
                (medical_splitter chunk_size chunk_overlap) (Z.of_nat i)
                content items
                (medical_splitter_well_configured _ _ Hvalid) Hink) as Hne.
  destruct group as [|chunk group].
  { apply Forall2_nil_inv_l in Hg. done. }
  destruct (Forall2_lookup_l _ _ _ 0%nat chunk Hg eq_refl)
    as (cv & Hcv & Hchunkv).
  apply chunk_views_lookup in Hcv as (chunks & c & _ & _ & _ & ->).
  eexists groups, σ', (chunk :: group), chunk, c, _.
  split_and!; [done|done|apply list_elem_of_here|done|].
  apply enhanced_items_lookup.
Qed.

Lemma inked_document_yields_chunk_witness :
  0 ≤ 1 < 4 ∧ wf example_state
  ∧ documents_at example_state [1%nat] example_views
  ∧ [1%nat] !! 0%nat = Some 1%nat
  ∧ doc_view example_state 1%nat
    = Some (lit "A. B. C.", {[ lit "filename" := VStr (lit "a.pdf") ]})
  ∧ ink (lit "A. B. C.") = true
  ∧ ∃ groups σ' group chunk chunk_content chunk_items,
      split_documents_into_semantic_chunks [1%nat] 4 1 example_state
      = (Ok (concat groups), σ')
      ∧ groups !! 0%nat = Some group
      ∧ chunk ∈ group
      ∧ doc_view σ' chunk = Some (chunk_content, chunk_items)
      ∧ chunk_items !! lit "parent_document_index"
        = Some (VInt (Z.of_nat 0)).
Proof.
  split_and!;
    [lia..|apply example_state_wf|apply example_documents
     |reflexivity|reflexivity|reflexivity|].
  apply (inked_document_yields_chunk [1%nat] example_views 4 1
           example_state 0%nat 1%nat (lit "A. B. C.")
           {[ lit "filename" := VStr (lit "a.pdf") ]});
    [lia|apply example_state_wf|apply example_documents
    |reflexivity|reflexivity|reflexivity].
Defined.

(** C7. Two runs on document sequences with the same contents and
    metadata, with the same parameters, yield the same chunk contents in
    the same order with the same metadata (or the same exception),
    whatever else the two heaps and logs hold. *)
Theorem split_deterministic
  documents1 documents2 views chunk_size chunk_overlap σ1 σ2 :
  wf σ1 → wf σ2 →
  documents_at σ1 documents1 views → documents_at σ2 documents2 views →
  outcome_view
    (split_documents_into_semantic_chunks documents1 chunk_size
       chunk_overlap σ1)
  = outcome_view
      (split_documents_into_semantic_chunks documents2 chunk_size
         chunk_overlap σ2).
Proof.
  intros Hwf1 Hwf2 Hdocs1 Hdocs2.
  destruct (decide (rejected chunk_size chunk_overlap)) as [Hrej|Hok].
  - unfold split_documents_into_semantic_chunks, try_except, outcome_view.
    unfold mbind, M_bind, when, logger, raise. simpl.
    destruct (chunk_size <=? 0) eqn:H1; simpl; [done|].
    destruct (chunk_overlap <? 0) eqn:H2; simpl; [done|].
    destruct (chunk_size <=? chunk_overlap) eqn:H3; simpl; [done|].
    unfold rejected in Hrej. lia.
  - assert (0 ≤ chunk_overlap < chunk_size) as Hvalid.
    { unfold rejected in Hok. lia. }
    destruct (split_run documents1 views chunk_size chunk_overlap σ1)
      as (groups1 & σ1' & -> & _ & _ & Hgroups1); [done..|].
    destruct (split_run documents2 views chunk_size chunk_overlap σ2)
      as (groups2 & σ2' & -> & _ & _ & Hgroups2); [done..|].
    unfold outcome_view. simpl. f_equal.
    by rewrite (groups_views _ _ _ Hgroups1), (groups_views _ _ _ Hgroups2).
Qed.

Lemma split_deterministic_witness :
  wf example_state ∧ wf example_state
  ∧ documents_at example_state [1%nat] example_views
  ∧ documents_at example_state [1%nat] example_views
  ∧ outcome_view
      (split_documents_into_semantic_chunks [1%nat] 4 1 example_state)
    = outcome_view
        (split_documents_into_semantic_chunks [1%nat] 4 1 example_state).
Proof.
  split_and!;
    [apply example_state_wf..|apply example_documents
     |apply example_documents|].
  apply (split_deterministic [1%nat] [1%nat] example_views 4 1
           example_state example_state);
    [apply example_state_wf..|apply example_documents
    |apply example_documents].
Defined.

(** C9. The splitter never mutates its input: every object that exists
    before the call, so every input document and every metadata dict, is
    the same after the call, whatever the parameters; the documents hold
    the contents and metadata they held. *)
Theorem split_preserves_input documents views chunk_size chunk_overlap σ :
  wf σ → documents_at σ documents views →
  let σ' :=
    (split_documents_into_semantic_chunks documents chunk_size
       chunk_overlap σ).2 in
  (∀ l o, heap σ !! l = Some o → heap σ' !! l = Some o)
  ∧ documents_at σ' documents views.
Proof.
  intros Hwf Hdocs σ'. subst σ'.
  assert (extends σ
            (split_documents_into_semantic_chunks documents chunk_size
               chunk_overlap σ).2) as Hext.
  { destruct (decide (rejected chunk_size chunk_overlap)) as [Hrej|Hok].
    - destruct (split_rejects documents chunk_size chunk_overlap σ Hrej)
        as (msg & records & ->). simpl.
      split_and!; [done..|]. by apply prefix_app_r.
    - destruct (split_run documents views chunk_size chunk_overlap σ)
        as (groups & σ' & -> & _ & ? & _);
        [unfold rejected in Hok; lia|done..]. }
  split.
  - intros l o. by apply extends_lookup.
  - eapply Forall2_impl; [done|]. simpl. intros d v.
    by apply doc_view_extends.
Qed.

Lemma split_preserves_input_witness :
  wf example_state ∧ documents_at example_state [1%nat] example_views
  ∧ let σ' :=
      (split_documents_into_semantic_chunks [1%nat] 4 1 example_state).2 in
    (∀ l o, heap example_state !! l = Some o → heap σ' !! l = Some o)
    ∧ documents_at σ' [1%nat] example_views.
Proof.
  split_and!; [apply example_state_wf|apply example_documents|].
  apply (split_preserves_input [1%nat] example_views 4 1 example_state);
    [apply example_state_wf|apply example_documents].
Defined.

End splitter_claims.

(** ** The loader *)

Section loader.
Local Open Scope Z_scope.
Variable fs : filesystem.
Implicit Types (σ : state) (pdf_file_path : Path).

(** The page loop gathers the text of the readable pages; it touches
    only the log. *)
Lemma extract_pages_spec pdf_file_path reader σ :
  post (for_each (enumerate (pages reader)) []
          (extract_page pdf_file_path)) σ
    (λ r σ', r = Ok (extracted_text reader)
             ∧ heap σ' = heap σ ∧ next_loc σ' = next_loc σ
             ∧ log σ `prefix_of` log σ').
Proof.
  apply (post_for_each (λ k document_text σ1,
    document_text = foldl gather_page [] (take k (pages reader))
    ∧ heap σ1 = heap σ ∧ next_loc σ1 = next_loc σ
    ∧ log σ `prefix_of` log σ1)).
  - by rewrite take_0.
  - intros k [page_number page] document_text σ1 Hk.
    intros (-> & Hheap & Hnext & Hlog).
    apply lookup_enumerate_inv in Hk as [_ Hk]. simpl in Hk.
    erewrite take_S_r by done. rewrite foldl_app. simpl.
    unfold extract_page. apply post_try, post_bind, post_lift.
    destruct page as [page_text|page_error]; simpl.
    + by destruct (truthy (strip page_text)); apply post_ret.
    + apply post_bind, post_logger, post_ret. simpl.
      split_and!; [done..|]. by apply prefix_app_r.
  - intros document_text σ1 (-> & ? & ? & ?).
    rewrite length_enumerate, firstn_all. done.
Qed.

(** One iteration of the loop over the files: the document of the file,
    if it has one, is appended as a new object; a file that cannot be read
    is logged and skipped; nothing raises. *)
Lemma process_pdf_spec extracted_documents pdf_file_path σ :
  wf σ →
  post (process_pdf extracted_documents pdf_file_path) σ
    (λ r σ', ∃ new,
       r = Ok (extracted_documents ++ new) ∧ wf σ' ∧ extends σ σ'
       ∧ documents_at σ' new (option_list (source_document pdf_file_path))
       ∧ ∀ e, read_pdf pdf_file_path = Raise e →
              file_error_record pdf_file_path e ∈ log σ').
Proof.
  intros Hwf. unfold process_pdf, source_document.
  apply post_try, post_bind, post_logger, post_bind, post_lift.
  destruct (read_pdf pdf_file_path) as [reader|file_error]; simpl.
  - apply post_bind. eapply post_mono; [apply extract_pages_spec|].
    simpl. intros r σ1 (-> & Hheap & Hnext & Hlog).
    assert (wf σ1) as Hwf1.
    { intros l Hl. rewrite Hheap. apply Hwf. lia. }
    assert (extends σ σ1) as Hext1.
    { split_and!; [lia| |].
      - intros l _. by rewrite Hheap.
      - etrans; [|done]. by apply prefix_app_r. }
    destruct (truthy (strip (extracted_text reader))) eqn:Htext.
    + apply post_bind, post_alloc, post_bind, post_alloc, post_bind.
      apply post_logger, post_ret. simpl.
      exists [S (next_loc σ1)]. split_and!; [done|..|done].
      * intros l Hl. simpl in *. rewrite !lookup_insert_ne by lia.
        apply Hwf1. lia.
      * destruct Hext1 as (? & Hh & ?).
        split_and!; simpl; [lia| |by apply prefix_app_r].
        intros l Hl. rewrite !lookup_insert_ne by lia. by apply Hh.
      * constructor; [|constructor]. apply doc_view_Some.
        exists (next_loc σ1). simpl. rewrite lookup_insert_eq.
        rewrite lookup_insert_ne by lia. by rewrite lookup_insert_eq.
    + apply post_bind, post_logger, post_ret. exists [].
      rewrite app_nil_r.
      split_and!; [done|by apply wf_log|by apply extends_log
                  |constructor|done].
  - apply post_bind, post_logger, post_ret. exists [].
    rewrite app_nil_r.
    split_and!; [done|by do 2 apply wf_log| |constructor|].
    + do 2 apply extends_log. apply extends_refl.
    + intros e [= <-]. simpl. apply elem_of_app. right.
      apply list_elem_of_here.
Qed.

Lemma process_pdf_loop_spec pdf_files σ :
  wf σ →
  post (for_each pdf_files [] process_pdf) σ
    (λ r σ', ∃ documents,
       r = Ok documents ∧ wf σ' ∧ extends σ σ'
       ∧ documents_at σ' documents (omap source_document pdf_files)
       ∧ ∀ pdf_file_path e,
           pdf_file_path ∈ pdf_files →
           read_pdf pdf_file_path = Raise e →
           file_error_record pdf_file_path e ∈ log σ').
Proof.
  intros Hwf.
  apply (post_for_each (λ k documents σ1,
    wf σ1 ∧ extends σ σ1
    ∧ documents_at σ1 documents (omap source_document (take k pdf_files))
    ∧ ∀ pdf_file_path e,
        pdf_file_path ∈ take k pdf_files →
        read_pdf pdf_file_path = Raise e →
        file_error_record pdf_file_path e ∈ log σ1)).
  - rewrite take_0. split_and!; [done..|constructor|].
    by intros ? ? ?%elem_of_nil.
  - intros k pdf_file_path documents σ1 Hk (Hwf1 & Hext1 & Hdocs & Hlog).
    eapply post_mono; [by apply process_pdf_spec|]. simpl.
    intros r σ2 (new & -> & Hwf2 & Hext2 & Hnew & Hlog2).
    erewrite take_S_r by done. rewrite omap_app. simpl.
    split_and!; [done|by eapply extends_trans| |].
    + apply Forall2_app.
      * eapply Forall2_impl; [done|]. simpl. intros l v.
        by apply doc_view_extends.
      * by destruct (source_document pdf_file_path).
    + intros f e [Hf|Hf]%elem_of_app Hread.
      * destruct Hext2 as (_ & _ & Hprefix).
        eapply elem_of_prefix; [|done]. by eapply Hlog.
      * apply list_elem_of_singleton in Hf as ->. by apply Hlog2.
  - intros documents σ1 (? & ? & Hdocs & Hlog).
    rewrite firstn_all in Hdocs, Hlog. eauto 10.
Qed.

(** The loader on a directory: the documents of the files that have
    one, in the order of the files. *)
Lemma load_directory_spec data_directory pdf_files σ :
  fs data_directory = Directory pdf_files →
  wf σ →
  post (load_medical_documents_from_directory fs data_directory) σ
    (λ r σ', ∃ documents,
       r = Ok documents ∧ wf σ' ∧ extends σ σ'
       ∧ documents_at σ' documents (omap source_document pdf_files)
       ∧ ∀ pdf_file_path e,
           pdf_file_path ∈ pdf_files →
           read_pdf pdf_file_path = Raise e →
           file_error_record pdf_file_path e ∈ log σ').
Proof.
  intros Hdir Hwf. unfold load_medical_documents_from_directory.
  unfold path_exists, path_is_dir, path_glob_pdf. rewrite Hdir. simpl.
  apply post_try, post_bind, post_logger.
  do 2 (apply post_bind, post_ret).
  destruct pdf_files as [|pdf_file_path pdf_files].
  { simpl. apply post_bind, post_logger, post_ret. exists [].
    split_and!; [done|by do 2 apply wf_log| |constructor|].
    - do 2 apply extends_log. apply extends_refl.
    - by intros ? ? ?%elem_of_nil. }
  cbn [truthy negb]. apply post_bind, post_logger, post_bind.
  eapply post_mono.
  { apply process_pdf_loop_spec. by do 2 apply wf_log. }
  simpl. intros r σ1 (documents & -> & Hwf1 & Hext1 & Hdocs & Hlog).
  assert (extends σ σ1) as Hext.
  { eapply extends_trans; [|done]. do 2 apply extends_log.
    apply extends_refl. }
  apply post_bind, post_logger, post_bind. unfold when.
  destruct (negb (truthy documents)).
  - apply post_logger, post_ret. exists documents.
    split_and!; [done|by do 2 apply wf_log|by do 2 apply extends_log
                |done|].
    intros f e Hf Hread. simpl. do 2 (apply elem_of_app; left).
    by eapply Hlog.
  - apply post_ret, post_ret. exists documents.
    split_and!; [done|by apply wf_log|by apply extends_log|done|].
    intros f e Hf Hread. simpl. apply elem_of_app; left. by eapply Hlog.
Qed.

End loader.

(** ** The claims about the loader and the initializer *)

Section loader_claims.
Local Open Scope Z_scope.
Implicit Types (σ : state) (fs : filesystem).

Lemma empty_state_wf : wf empty_state.
Proof. intros l _. apply lookup_empty. Qed.

(** Outside a directory the loader raises. *)
Lemma load_raises_outside_directory fs data_directory σ :
  path_is_dir fs data_directory = false →
  ∃ e, (load_medical_documents_from_directory fs data_directory σ).1
       = Raise e.
Proof.
  unfold load_medical_documents_from_directory, try_except.
  unfold mbind, M_bind, when, logger, raise.
  unfold path_exists, path_is_dir, path_glob_pdf. simpl.
  destruct (fs data_directory); simpl; [eauto..|done].
Qed.

(** C4. The loader raises [FileNotFoundError] when the path does not
    exist, raises [ValueError] when the path exists and is not a
    directory, and returns the empty list, raising nothing, when the
    directory has no matching PDF file. *)
Theorem loader_checks_directory fs data_directory σ :
  let run := load_medical_documents_from_directory fs data_directory σ in
  match fs data_directory with
  | Missing =>
      run.1 = Raise (Exn FileNotFoundError
                       (lit "Directory not found: " ++ data_directory))
  | NotDirectory =>
      run.1 = Raise (Exn ValueError
                       (lit "Path is not a directory: " ++ data_directory))
  | Directory [] => run.1 = Ok []
  | Directory (_ :: _) => True
  end.
Proof.
  unfold load_medical_documents_from_directory, try_except.
  unfold mbind, M_bind, when, logger, raise.
  unfold path_exists, path_is_dir, path_glob_pdf. simpl.
  by destruct (fs data_directory) as [| |[|pdf_file_path pdf_files]].
Qed.

(** C5. Whatever files of a batch cannot be opened or parsed, the loader
    does not raise: it returns the documents of the remaining files that
    have text, in order; a file that raised is not among them, and an
    error record naming it is in the log. *)
Theorem loader_skips_unreadable_files fs data_directory pdf_files σ :
  fs data_directory = Directory pdf_files →
  wf σ →
  ∃ documents σ',
    load_medical_documents_from_directory fs data_directory σ
    = (Ok documents, σ')
    ∧ documents_at σ' documents (omap source_document pdf_files)
    ∧ ∀ pdf_file_path e,
        pdf_file_path ∈ pdf_files →
        read_pdf pdf_file_path = Raise e →
        source_document pdf_file_path = None
        ∧ file_error_record pdf_file_path e ∈ log σ'.
Proof.
  intros Hdir Hwf.
  destruct (post_run _ _ _
              (load_directory_spec fs data_directory pdf_files σ Hdir Hwf))
    as (r & σ' & Hrun & documents & -> & _ & _ & Hdocs & Hlog).
  exists documents, σ'. split_and!; [done..|].
  intros f e Hf Hread. split; [|by eapply Hlog].
  unfold source_document. by rewrite Hread.
Qed.

Lemma loader_skips_unreadable_files_witness :
  example_fs (lit "Documents/") = Directory example_files
  ∧ wf empty_state
  ∧ ∃ documents σ',
      load_medical_documents_from_directory example_fs (lit "Documents/")
        empty_state = (Ok documents, σ')
      ∧ documents_at σ' documents (omap source_document example_files)
      ∧ ∀ pdf_file_path e,
          pdf_file_path ∈ example_files →
          read_pdf pdf_file_path = Raise e →
          source_document pdf_file_path = None
          ∧ file_error_record pdf_file_path e ∈ log σ'.
Proof.
  split_and!; [reflexivity|apply empty_state_wf|].
  apply (loader_skips_unreadable_files example_fs (lit "Documents/")
           example_files empty_state);
    [reflexivity|apply empty_state_wf].
Defined.

Lemma source_document_stripped pdf_file_path content items :
  source_document pdf_file_path = Some (content, items) →
  stripped content.
Proof.
  unfold source_document.
  destruct (read_pdf pdf_file_path) as [reader|]; [|done]. simpl.
  destruct (truthy (strip (extracted_text reader))) eqn:Htext; [|done].
  intros [= <- _]. split_and!.
  - by apply truthy_true.
  - apply strip_head.
  - apply strip_last.
Qed.

(** C10. Every document that the loader returns has a content that is
    not empty and has no whitespace at its start or at its end. *)
Theorem loaded_documents_are_stripped fs data_directory σ :
  wf σ →
  let run := load_medical_documents_from_directory fs data_directory σ in
  match run.1 with
  | Ok documents =>
      Forall (λ document, ∃ content items,
                doc_view run.2 document = Some (content, items)
                ∧ stripped content) documents
  | Raise _ => True
  end.
Proof.
  intros Hwf run. subst run.
  destruct (fs data_directory) as [| |pdf_files] eqn:Hdir.
  - destruct (load_raises_outside_directory fs data_directory σ)
      as [e ->]; [unfold path_is_dir; by rewrite Hdir|done].
  - destruct (load_raises_outside_directory fs data_directory σ)
      as [e ->]; [unfold path_is_dir; by rewrite Hdir|done].
  - destruct (post_run _ _ _
                (load_directory_spec fs data_directory pdf_files σ Hdir
                   Hwf))
      as (r & σ' & -> & documents & -> & _ & _ & Hdocs & _).
    simpl. apply Forall_forall. intros document Hdoc.
    apply list_elem_of_lookup in Hdoc as [i Hdoc].
    destruct (Forall2_lookup_l _ _ _ _ _ Hdocs Hdoc)
      as ([content items] & Hview & Hv).
    exists content, items. split; [done|].
    apply list_elem_of_lookup_2, list_elem_of_omap in Hview
      as (pdf_file_path & _ & Hsource).
    by eapply source_document_stripped.
Qed.

Lemma loaded_documents_are_stripped_witness :
  wf empty_state
  ∧ let run :=
      load_medical_documents_from_directory example_fs (lit "Documents/")
        empty_state in
    match run.1 with
    | Ok documents =>
        Forall (λ document, ∃ content items,
                  doc_view run.2 document = Some (content, items)
                  ∧ stripped content) documents
    | Raise _ => True
    end.
Proof.
  split; [apply empty_state_wf|].
  apply (loaded_documents_are_stripped example_fs (lit "Documents/")
           empty_state).
  apply empty_state_wf.
Defined.

(** C8. The initializer never raises.  It returns the model it
    constructed only when the construction succeeded and embedding the
    fixed sample query with that model succeeded; when either fails it
    returns [None]. *)
Theorem initializer_returns_tested_model_or_none
  {HuggingFaceEmbeddings float : Type}
  (new_embeddings : model_configuration → result HuggingFaceEmbeddings)
  (embed_query : HuggingFaceEmbeddings → text → result (list float))
  (name : text) σ :
  (initialize_medical_embedding_model new_embeddings embed_query name
     σ).1
  = Ok match new_embeddings (medical_configuration name) with
       | Ok medical_embeddings =>
           match embed_query medical_embeddings
                   (lit "What are the common symptoms of hypertension?")
           with
           | Ok _ => Some medical_embeddings
           | Raise _ => None
           end
       | Raise _ => None
       end.
Proof.
  unfold initialize_medical_embedding_model, try_except.
  unfold mbind, M_bind, logger, lift, medical_configuration, test_query.
  simpl.
  destruct (new_embeddings _) as [medical_embeddings|error]; simpl;
    [|done].
  by destruct (embed_query medical_embeddings _) as [test_embedding|].
Qed.

End loader_claims.

(** ** More about the loader *)

Section loader_logs.
Local Open Scope Z_scope.
Implicit Types (σ : state) (pdf_file_path : Path).

Lemma post_and {A} (m : M A) σ (Q1 Q2 : result A → state → Prop) :
  post m σ Q1 → post m σ Q2 → post m σ (λ r σ', Q1 r σ' ∧ Q2 r σ').
Proof. unfold post. auto. Qed.

Lemma extract_pages_log pdf_file_path reader σ :
  post (for_each (enumerate (pages reader)) []
          (extract_page pdf_file_path)) σ
    (λ r σ', ∀ i e, pages reader !! i = Some (Raise e) →
                    page_error_record pdf_file_path i e ∈ log σ').
Proof.
  apply (post_for_each (λ k (_ : text) σ1,
    ∀ i e, (i < k)%nat → pages reader !! i = Some (Raise e) →
           page_error_record pdf_file_path i e ∈ log σ1)).
  - intros i e Hi. lia.
  - intros k [page_number page] document_text σ1 Hk Hinv.
    apply lookup_enumerate_inv in Hk as [Hnum Hk]. simpl in Hnum, Hk.
    subst page_number.
    unfold extract_page. apply post_try, post_bind, post_lift.
    destruct page as [page_text|page_error]; simpl.
    + assert (∀ i e, (i < S k)%nat →
                pages reader !! i = Some (Raise e) →
                page_error_record pdf_file_path i e ∈ log σ1) as Hnext.
      { intros i e Hi Hpage. destruct (decide (i = k)) as [->|Hne].
        - congruence.
        - apply Hinv; [lia|done]. }
      by destruct (truthy (strip page_text)); apply post_ret.
    + apply post_bind, post_logger, post_ret. simpl.
      intros i e Hi Hpage. apply elem_of_app.
      destruct (decide (i = k)) as [->|Hne].
      * right. assert (e = page_error) as -> by congruence.
        apply list_elem_of_here.
      * left. apply Hinv; [lia|done].
  - intros document_text σ1 Hinv i e Hpage. apply Hinv; [|done].
    rewrite length_enumerate. by eapply lookup_lt_Some.
Qed.

Lemma process_pdf_log extracted_documents pdf_file_path σ :
  post (process_pdf extracted_documents pdf_file_path) σ
    (λ r σ', ∀ reader,
       read_pdf pdf_file_path = Ok reader →
       (∀ i e, pages reader !! i = Some (Raise e) →
               page_error_record pdf_file_path i e ∈ log σ')
       ∧ (ink (extracted_text reader) = false →
          no_text_record pdf_file_path ∈ log σ')).
Proof.
  unfold process_pdf.
  apply post_try, post_bind, post_logger, post_bind, post_lift.
  destruct (read_pdf pdf_file_path) as [reader|file_error]; simpl.
  - apply post_bind. eapply post_mono.
    { apply post_and; [apply extract_pages_spec|apply extract_pages_log]. }
    simpl. intros r σ1 [(-> & _ & _ & _) Hpages].
    rewrite strip_truthy.
    destruct (ink (extracted_text reader)) eqn:Htext.
    + apply post_bind, post_alloc, post_bind, post_alloc, post_bind.
      apply post_logger, post_ret. simpl.
      intros reader' [= <-]. split; [|by rewrite Htext].
      intros i e Hpage. apply elem_of_app. left. by apply Hpages.
    + apply post_bind, post_logger, post_ret. simpl.
      intros reader' [= <-]. split.
      * intros i e Hpage. apply elem_of_app. left. by apply Hpages.
      * intros _. apply elem_of_app. right. apply list_elem_of_here.
  - apply post_bind, post_logger, post_ret. by intros reader.
Qed.

Lemma process_pdf_loop_log pdf_files σ :
  wf σ →
  post (for_each pdf_files [] process_pdf) σ
    (λ r σ', ∀ pdf_file_path reader,
       pdf_file_path ∈ pdf_files →
       read_pdf pdf_file_path = Ok reader →
       (∀ i e, pages reader !! i = Some (Raise e) →
               page_error_record pdf_file_path i e ∈ log σ')
       ∧ (ink (extracted_text reader) = false →
          no_text_record pdf_file_path ∈ log σ')).
Proof.
  intros Hwf.
  apply (post_for_each (λ k (_ : list loc) σ1,
    wf σ1
    ∧ ∀ pdf_file_path reader,
        pdf_file_path ∈ take k pdf_files →
        read_pdf pdf_file_path = Ok reader →
        (∀ i e, pages reader !! i = Some (Raise e) →
                page_error_record pdf_file_path i e ∈ log σ1)
        ∧ (ink (extracted_text reader) = false →
           no_text_record pdf_file_path ∈ log σ1))).
  - split; [done|]. rewrite take_0. by intros ? ? ?%elem_of_nil.
  - intros k pdf_file_path documents σ1 Hk [Hwf1 Hinv].
    eapply post_mono.
    { apply post_and; [by apply process_pdf_spec|apply process_pdf_log]. }
    simpl. intros r σ2 [(new & -> & Hwf2 & Hext2 & _) Hlog].
    split; [done|]. erewrite take_S_r by done.
    destruct Hext2 as (_ & _ & Hprefix).
    intros f reader [Hf|Hf]%elem_of_app Hread.
    + destruct (Hinv f reader Hf Hread) as [Hpages Hblank]. split.
      * intros i e Hpage. eapply elem_of_prefix; [|done]. by apply Hpages.
      * intros Htext. eapply elem_of_prefix; [|done]. by apply Hblank.
    + apply list_elem_of_singleton in Hf as ->. by apply Hlog.
  - intros documents σ1 [_ Hinv]. by rewrite firstn_all in Hinv.
Qed.

Lemma load_directory_log fs data_directory pdf_files σ :
  fs data_directory = Directory pdf_files →
  wf σ →
  post (load_medical_documents_from_directory fs data_directory) σ
    (λ r σ', ∀ pdf_file_path reader,
       pdf_file_path ∈ pdf_files →
       read_pdf pdf_file_path = Ok reader →
       (∀ i e, pages reader !! i = Some (Raise e) →
               page_error_record pdf_file_path i e ∈ log σ')
       ∧ (ink (extracted_text reader) = false →
          no_text_record pdf_file_path ∈ log σ')).
Proof.
  intros Hdir Hwf. unfold load_medical_documents_from_directory.
  unfold path_exists, path_is_dir, path_glob_pdf. rewrite Hdir. simpl.
  apply post_try, post_bind, post_logger.
  do 2 (apply post_bind, post_ret).
  destruct pdf_files as [|pdf_file_path pdf_files].
  { simpl. apply post_bind, post_logger, post_ret.
    by intros ? ? ?%elem_of_nil. }
  cbn [truthy negb]. apply post_bind, post_logger, post_bind.
  eapply post_mono.
  { apply post_and;
      [apply process_pdf_loop_spec|apply process_pdf_loop_log];
      by do 2 apply wf_log. }
  simpl. intros r σ1 [(documents & -> & _) Hlog].
  apply post_bind, post_logger, post_bind. unfold when.
  destruct (negb (truthy documents)).
  - apply post_logger, post_ret. simpl. intros f reader Hf Hread.
    destruct (Hlog f reader Hf Hread) as [Hpages Hblank]. split.
    + intros i e Hpage. do 2 (apply elem_of_app; left). by apply Hpages.
    + intros Htext. do 2 (apply elem_of_app; left). by apply Hblank.
  - apply post_ret, post_ret. simpl. intros f reader Hf Hread.
    destruct (Hlog f reader Hf Hread) as [Hpages Hblank]. split.
    + intros i e Hpage. apply elem_of_app; left. by apply Hpages.
    + intros Htext. apply elem_of_app; left. by apply Hblank.
Qed.
End loader_logs.

Section loader_extras.
Local Open Scope Z_scope.
Implicit Types (σ : state) (pdf_file_path : Path) (s t : text).

Lemma substring_of_trans s t u :
  substring_of s t → substring_of t u → substring_of s u.
Proof.
  intros (a & b & ->) (c & d & ->). exists (c ++ a), (b ++ d).
  by rewrite <-!app_assoc.
Qed.

Lemma substring_of_app_l s t u : substring_of s t → substring_of s (t ++ u).
Proof.
  intros (a & b & ->). exists a, (b ++ u). by rewrite <-!app_assoc.
Qed.

Lemma substring_of_rev s t : substring_of s t → substring_of (rev s) (rev t).
Proof.
  intros (a & b & ->). exists (rev b), (rev a).
  by rewrite !rev_app_distr, <-app_assoc.
Qed.

(** Stripping on the left keeps a substring that starts with ink. *)
Lemma substring_of_lstrip c core t :
  isspace c = false →
  substring_of (c :: core) t → substring_of (c :: core) (lstrip t).
Proof.
  intros Hc (a & b & ->). induction a as [|c' a IH]; simpl.
  - rewrite Hc. exists [], b. done.
  - destruct (isspace c'); [done|]. by exists (c' :: a), b.
Qed.

Lemma strip_substring s : substring_of (strip s) s.
Proof.
  unfold strip. destruct (lstrip_suffix s) as [k Hk].
  destruct (rstrip_prefix (lstrip s)) as [k' Hk'].
  exists k, k'. rewrite <-Hk'. done.
Qed.

(** Stripping a string keeps every substring that starts and ends with
    ink. *)
Lemma substring_of_strip core t :
  (∀ c, head core = Some c → isspace c = false) →
  (∀ c, last core = Some c → isspace c = false) →
  core ≠ [] →
  substring_of core t → substring_of core (strip t).
Proof.
  intros Hhead Hlast Hne Hsub. unfold strip, rstrip.
  destruct core as [|c core]; [done|].
  apply (substring_of_lstrip c core t) in Hsub; [|by apply Hhead].
  apply substring_of_rev in Hsub.
  destruct (rev (c :: core)) as [|c' core'] eqn:Hrev.
  { apply (f_equal length) in Hrev. rewrite length_rev in Hrev. done. }
  apply (substring_of_lstrip c' core') in Hsub.
  - apply substring_of_rev in Hsub. rewrite <-Hrev in Hsub.
    by rewrite rev_involutive in Hsub.
  - apply Hlast. rewrite <-(rev_involutive (c :: core)), Hrev.
    simpl. by rewrite last_snoc.
Qed.

Lemma gather_page_substring x acc page :
  substring_of x acc → substring_of x (gather_page acc page).
Proof.
  intros Hx. unfold gather_page. destruct page as [page_text|]; [|done].
  destruct (truthy (strip page_text)); [|done]. by apply substring_of_app_l.
Qed.

Lemma gather_pages_substring x acc (ps : list (result text)) :
  substring_of x acc → substring_of x (foldl gather_page acc ps).
Proof.
  revert acc. induction ps as [|page ps IH]; intros acc Hx; [done|].
  simpl. by apply IH, gather_page_substring.
Qed.

(** The text of every page with ink is in the gathered text. *)
Lemma extracted_text_page reader i page_text :
  pages reader !! i = Some (Ok page_text) →
  ink page_text = true →
  substring_of page_text (extracted_text reader).
Proof.
  unfold extracted_text. generalize (@nil ascii) as acc.
  generalize (pages reader) as ps. clear reader.
  intros ps. revert i. induction ps as [|page ps IH]; intros i acc; [done|].
  destruct i as [|i]; simpl.
  - intros [= ->] Hink. apply gather_pages_substring.
    unfold gather_page. rewrite strip_truthy, Hink. exists acc, [newline; newline]. done.
  - apply IH.
Qed.

Lemma ink_substring s t : substring_of s t → ink s = true → ink t = true.
Proof.
  intros (a & b & ->) Hs. rewrite !ink_app, Hs. by rewrite orb_true_r.
Qed.

Lemma extracted_text_blank reader :
  Forall (λ page, ∀ t, page = Ok t → ink t = false) (pages reader) →
  extracted_text reader = [].
Proof.
  unfold extracted_text. induction 1 as [|page ps Hpage _ IH]; [done|].
  simpl. replace (gather_page [] page) with (@nil ascii); [done|].
  destruct page as [t|]; [|done]. simpl.
  by rewrite strip_truthy, (Hpage t eq_refl).
Qed.

Lemma documents_at_lookup σ documents views v :
  documents_at σ documents views → v ∈ views →
  ∃ d, d ∈ documents ∧ doc_view σ d = Some v.
Proof.
  intros Hdocs [i Hv]%list_elem_of_lookup.
  destruct (Forall2_lookup_r _ _ _ _ _ Hdocs Hv) as (d & Hd & Hview).
  exists d. split; [by eapply list_elem_of_lookup_2|done].
Qed.

(** X1. A page whose text cannot be extracted does not cost the file its
    document: when some page of a file that opens has text that is not
    blank, the loader returns a document for the file, the content of the
    document contains the stripped text of that page, and for every page
    that raised a warning with the 1-based page number, the file name and
    the error is in the log. *)
Theorem loader_tolerates_failed_pages
  fs data_directory pdf_files σ pdf_file_path reader i page_text :
  fs data_directory = Directory pdf_files →
  wf σ →
  pdf_file_path ∈ pdf_files →
  read_pdf pdf_file_path = Ok reader →
  pages reader !! i = Some (Ok page_text) →
  ink page_text = true →
  ∃ documents σ' document content items,
    load_medical_documents_from_directory fs data_directory σ
    = (Ok documents, σ')
    ∧ document ∈ documents
    ∧ doc_view σ' document = Some (content, items)
    ∧ items !! lit "source" = Some (VStr (path_str pdf_file_path))
    ∧ substring_of (strip page_text) content
    ∧ ∀ j e, pages reader !! j = Some (Raise e) →
             page_error_record pdf_file_path j e ∈ log σ'.
Proof.
  intros Hdir Hwf Hf Hread Hpage Hink.
  destruct (post_run _ _ _
              (post_and _ _ _ _
                 (load_directory_spec fs data_directory pdf_files σ Hdir Hwf)
                 (load_directory_log fs data_directory pdf_files σ Hdir Hwf)))
    as (r & σ' & Hrun & (documents & -> & _ & _ & Hdocs & _) & Hlog).
  pose proof (extracted_text_page reader i page_text Hpage Hink) as Hsub.
  assert (source_document pdf_file_path
          = Some (strip (extracted_text reader),
                  pdf_metadata pdf_file_path reader)) as Hsource.
  { unfold source_document. rewrite Hread. simpl.
    by rewrite strip_truthy, (ink_substring _ _ Hsub Hink). }
  destruct (documents_at_lookup σ' documents _
              (strip (extracted_text reader),
               pdf_metadata pdf_file_path reader) Hdocs)
    as (document & Hdoc & Hview).
  { apply list_elem_of_omap. eauto. }
  exists documents, σ', document, (strip (extracted_text reader)),
    (pdf_metadata pdf_file_path reader).
  split_and!; [done..| | |by apply (Hlog pdf_file_path reader)].
  - unfold pdf_metadata, with_items. simpl.
    do 3 (rewrite lookup_insert_ne by done). apply lookup_insert_eq.
  - assert (strip page_text ≠ []) as Hne.
    { apply truthy_true. by rewrite strip_truthy. }
    apply substring_of_strip; [apply strip_head|apply strip_last|done|].
    eapply substring_of_trans; [apply strip_substring|done].
Qed.

Lemma ink_gather_pages acc (ps : list (result text)) :
  ink (foldl gather_page acc ps) = ink acc || existsb page_has_ink ps.
Proof.
  revert acc. induction ps as [|page ps IH]; intros acc; simpl.
  { by rewrite orb_false_r. }
  rewrite IH. unfold gather_page.
  destruct page as [page_text|]; simpl; [|done].
  rewrite strip_truthy. destruct (ink page_text) eqn:Hink; [|done].
  rewrite !ink_app, Hink. simpl. by rewrite !orb_true_r.
Qed.

Lemma ink_extracted_text reader :
  ink (extracted_text reader) = existsb page_has_ink (pages reader).
Proof. apply ink_gather_pages. Qed.

Lemma source_document_has_text pdf_file_path :
  match source_document pdf_file_path with
  | Some view =>
      has_text pdf_file_path = true
      ∧ ∃ reader, read_pdf pdf_file_path = Ok reader
                  ∧ view = (strip (extracted_text reader),
                            pdf_metadata pdf_file_path reader)
  | None => has_text pdf_file_path = false
  end.
Proof.
  unfold source_document, has_text.
  destruct (read_pdf pdf_file_path) as [reader|e]; simpl; [|done].
  rewrite strip_truthy, ink_extracted_text.
  destruct (existsb page_has_ink (pages reader)); eauto.
Qed.

(** The files that have a document are the files with text. *)
Lemma source_documents_files (pdf_files : list Path) :
  Forall2 (λ view pdf_file_path, ∃ reader,
             read_pdf pdf_file_path = Ok reader
             ∧ view = (strip (extracted_text reader),
                       pdf_metadata pdf_file_path reader))
    (omap source_document pdf_files)
    (filter (λ pdf_file_path, has_text pdf_file_path = true) pdf_files).
Proof.
  induction pdf_files as [|f files IH]; [constructor|].
  rewrite filter_cons. simpl.
  pose proof (source_document_has_text f) as Hf.
  destruct (source_document f) as [view|].
  - destruct Hf as [Htext Hview]. rewrite decide_True by done.
    by constructor.
  - rewrite decide_False by (by rewrite Hf). done.
Qed.

Lemma Forall2_compose {A B C} (P : A → B → Prop) (Q : B → C → Prop)
  xs ys zs :
  Forall2 P xs ys → Forall2 Q ys zs →
  Forall2 (λ x z, ∃ y, P x y ∧ Q y z) xs zs.
Proof.
  intros HP. revert zs. induction HP as [|x y xs ys Hxy _ IH]; intros zs HQ.
  { apply Forall2_nil_inv_l in HQ as ->. constructor. }
  apply Forall2_cons_inv_l in HQ as (z & zs' & Hyz & HQ & ->).
  constructor; [eauto|by apply IH].
Qed.

Lemma pdf_metadata_items pdf_file_path reader :
  let items := pdf_metadata pdf_file_path reader in
  items !! lit "source" = Some (VStr (path_str pdf_file_path))
  ∧ items !! lit "filename" = Some (VStr (name pdf_file_path))
  ∧ items !! lit "document_type" = Some (VStr (lit "medical_pdf"))
  ∧ items !! lit "page_count" = Some (VInt (len (pages reader)))
  ∧ dom items
    = {[ lit "source"; lit "filename"; lit "document_type";
         lit "page_count" ]}.
Proof.
  unfold pdf_metadata, with_items. simpl. split_and!.
  - do 3 (rewrite lookup_insert_ne by done). apply lookup_insert_eq.
  - do 2 (rewrite lookup_insert_ne by done). apply lookup_insert_eq.
  - rewrite lookup_insert_ne by done. apply lookup_insert_eq.
  - apply lookup_insert_eq.
  - rewrite !dom_insert_L, dom_empty_L. set_solver.
Qed.

Lemma loader_tolerates_failed_pages_witness :
  damaged_fs (lit "Scans") = Directory [damaged_file; blank_file]
  ∧ wf empty_state
  ∧ damaged_file ∈ [damaged_file; blank_file]
  ∧ read_pdf damaged_file = Ok damaged_reader
  ∧ pages damaged_reader !! 0%nat = Some (Ok (lit " x "))
  ∧ ink (lit " x ") = true
  ∧ ∃ documents σ' document content items,
      load_medical_documents_from_directory damaged_fs (lit "Scans")
        empty_state = (Ok documents, σ')
      ∧ document ∈ documents
      ∧ doc_view σ' document = Some (content, items)
      ∧ items !! lit "source" = Some (VStr (path_str damaged_file))
      ∧ substring_of (strip (lit " x ")) content
      ∧ ∀ j e, pages damaged_reader !! j = Some (Raise e) →
               page_error_record damaged_file j e ∈ log σ'.
Proof.
  split_and!;
    [reflexivity|apply empty_state_wf|apply list_elem_of_here
    |reflexivity|reflexivity|reflexivity|].
  apply (loader_tolerates_failed_pages damaged_fs (lit "Scans")
           [damaged_file; blank_file] empty_state damaged_file
           damaged_reader 0%nat (lit " x "));
    [reflexivity|apply empty_state_wf|apply list_elem_of_here
    |reflexivity|reflexivity|reflexivity].
Defined.

(** X2. On a directory the loader returns exactly one document for every
    file that opens and has a page with text that is not blank, in the
    order of the files; the metadata of the document has the four keys
    [source], [filename], [document_type] and [page_count] and no other,
    with the path, the file name, ["medical_pdf"] and the number of pages
    of the file, counting the blank pages and those that raised. *)
Theorem loader_returns_one_document_per_file_with_text
  fs data_directory pdf_files σ :
  fs data_directory = Directory pdf_files →
  wf σ →
  ∃ documents σ',
    load_medical_documents_from_directory fs data_directory σ
    = (Ok documents, σ')
    ∧ Forall2 (λ document pdf_file_path, ∃ reader content items,
                 read_pdf pdf_file_path = Ok reader
                 ∧ doc_view σ' document = Some (content, items)
                 ∧ items !! lit "source"
                   = Some (VStr (path_str pdf_file_path))
                 ∧ items !! lit "filename"
                   = Some (VStr (name pdf_file_path))
                 ∧ items !! lit "document_type"
                   = Some (VStr (lit "medical_pdf"))
                 ∧ items !! lit "page_count"
                   = Some (VInt (len (pages reader)))
                 ∧ dom items
                   = {[ lit "source"; lit "filename"; lit "document_type";
                        lit "page_count" ]})
        documents
        (filter (λ pdf_file_path, has_text pdf_file_path = true) pdf_files).
Proof.
  intros Hdir Hwf.
  destruct (post_run _ _ _
              (load_directory_spec fs data_directory pdf_files σ Hdir Hwf))
    as (r & σ' & Hrun & documents & -> & _ & _ & Hdocs & _).
  exists documents, σ'. split; [done|].
  eapply Forall2_impl.
  { exact (Forall2_compose _ _ _ _ _ Hdocs
             (source_documents_files pdf_files)). }
  simpl. intros document f (view & Hview & reader & Hread & ->).
  exists reader, (strip (extracted_text reader)),
    (pdf_metadata f reader).
  split; [done|]. split; [done|]. apply pdf_metadata_items.
Qed.

Lemma length_omap_lt {A B} (f : A → option B) (l : list A) x :
  x ∈ l → f x = None → (length (omap f l) < length l)%nat.
Proof.
  intros Hx Hfx. induction l as [|y l IH]; [by apply elem_of_nil in Hx|].
  assert (length (omap f l) ≤ length l)%nat as Hle.
  { clear. induction l as [|z l IH]; simpl; [done|].
    destruct (f z); simpl; unfold omap in *; lia. }
  simpl. apply elem_of_cons in Hx as [<-|Hx].
  - rewrite Hfx. unfold omap in *. lia.
  - specialize (IH Hx). destruct (f y); simpl; unfold omap in *; lia.
Qed.

Lemma loader_returns_one_document_per_file_with_text_witness :
  example_fs (lit "Documents/") = Directory example_files
  ∧ wf empty_state
  ∧ ∃ documents σ',
      load_medical_documents_from_directory example_fs (lit "Documents/")
        empty_state = (Ok documents, σ')
      ∧ Forall2 (λ document pdf_file_path, ∃ reader content items,
                   read_pdf pdf_file_path = Ok reader
                   ∧ doc_view σ' document = Some (content, items)
                   ∧ items !! lit "source"
                     = Some (VStr (path_str pdf_file_path))
                   ∧ items !! lit "filename"
                     = Some (VStr (name pdf_file_path))
                   ∧ items !! lit "document_type"
                     = Some (VStr (lit "medical_pdf"))
                   ∧ items !! lit "page_count"
                     = Some (VInt (len (pages reader)))
                   ∧ dom items
                     = {[ lit "source"; lit "filename"; lit "document_type";
                          lit "page_count" ]})
          documents
          (filter (λ pdf_file_path, has_text pdf_file_path = true)
             example_files).
Proof.
  split_and!; [reflexivity|apply empty_state_wf|].
  apply (loader_returns_one_document_per_file_with_text example_fs
           (lit "Documents/") example_files empty_state);
    [reflexivity|apply empty_state_wf].
Defined.

(** X3. A file that opens but has no page with text that is not blank
    gets no document: the loader logs the warning that no text content
    was extracted from it, and returns fewer documents than there are
    files. *)
Theorem loader_warns_about_files_without_text
  fs data_directory pdf_files σ pdf_file_path reader :
  fs data_directory = Directory pdf_files →
  wf σ →
  pdf_file_path ∈ pdf_files →
  read_pdf pdf_file_path = Ok reader →
  Forall (λ page, ∀ page_text, page = Ok page_text → ink page_text = false)
    (pages reader) →
  ∃ documents σ',
    load_medical_documents_from_directory fs data_directory σ
    = (Ok documents, σ')
    ∧ no_text_record pdf_file_path ∈ log σ'
    ∧ (length documents < length pdf_files)%nat.
Proof.
  intros Hdir Hwf Hf Hread Hblank.
  destruct (post_run _ _ _
              (post_and _ _ _ _
                 (load_directory_spec fs data_directory pdf_files σ Hdir Hwf)
                 (load_directory_log fs data_directory pdf_files σ Hdir Hwf)))
    as (r & σ' & Hrun & (documents & -> & _ & _ & Hdocs & _) & Hlog).
  assert (ink (extracted_text reader) = false) as Hink.
  { by rewrite (extracted_text_blank reader Hblank). }
  exists documents, σ'. split_and!; [done|by apply (Hlog _ reader)|].
  rewrite (Forall2_length _ _ _ Hdocs).
  apply (length_omap_lt _ _ pdf_file_path); [done|].
  unfold source_document. rewrite Hread. simpl.
  by rewrite strip_truthy, Hink.
Qed.

Lemma loader_warns_about_files_without_text_witness :
  damaged_fs (lit "Scans") = Directory [damaged_file; blank_file]
  ∧ wf empty_state
  ∧ blank_file ∈ [damaged_file; blank_file]
  ∧ read_pdf blank_file = Ok blank_reader
  ∧ Forall (λ page, ∀ page_text, page = Ok page_text →
                                 ink page_text = false)
      (pages blank_reader)
  ∧ ∃ documents σ',
      load_medical_documents_from_directory damaged_fs (lit "Scans")
        empty_state = (Ok documents, σ')
      ∧ no_text_record blank_file ∈ log σ'
      ∧ (length documents < length [damaged_file; blank_file])%nat.
Proof.
  assert (Forall (λ page, ∀ page_text, page = Ok page_text →
                                       ink page_text = false)
            (pages blank_reader)) as Hblank.
  { repeat constructor; by intros ? [= <-]. }
  split_and!;
    [reflexivity|apply empty_state_wf
    |apply list_elem_of_further, list_elem_of_here|reflexivity
    |exact Hblank|].
  apply (loader_warns_about_files_without_text damaged_fs (lit "Scans")
           [damaged_file; blank_file] empty_state blank_file blank_reader);
    [reflexivity|apply empty_state_wf
    |apply list_elem_of_further, list_elem_of_here|reflexivity
    |exact Hblank].
Defined.

(** X4. The loader only adds: whatever the path is, every object that
    exists before the call is the same after it, and the log keeps the
    records it had.  When the loader raises it has allocated nothing, and
    the last record of the log is the error record with the message of the
    exception that it raises. *)
Theorem loader_only_adds fs data_directory σ :
  wf σ →
  let run := load_medical_documents_from_directory fs data_directory σ in
  (∀ l o, heap σ !! l = Some o → heap run.2 !! l = Some o)
  ∧ log σ `prefix_of` log run.2
  ∧ ∀ error, run.1 = Raise error →
      heap run.2 = heap σ
      ∧ next_loc run.2 = next_loc σ
      ∧ last (log run.2) = Some (load_error_record error).
Proof.
  intros Hwf run. subst run.
  destruct (fs data_directory) as [| |pdf_files] eqn:Hdir.
  - unfold load_medical_documents_from_directory, try_except.
    unfold mbind, M_bind, when, logger, raise.
    unfold path_exists, path_is_dir, path_glob_pdf. rewrite Hdir. simpl.
    split_and!; [done| |].
    + rewrite <-app_assoc. by apply prefix_app_r.
    + intros error [= <-]. split_and!; [done..|]. by rewrite last_snoc.
  - unfold load_medical_documents_from_directory, try_except.
    unfold mbind, M_bind, when, logger, raise.
    unfold path_exists, path_is_dir, path_glob_pdf. rewrite Hdir. simpl.
    split_and!; [done| |].
    + rewrite <-app_assoc. by apply prefix_app_r.
    + intros error [= <-]. split_and!; [done..|]. by rewrite last_snoc.
  - destruct (post_run _ _ _
                (load_directory_spec fs data_directory pdf_files σ Hdir
                   Hwf))
      as (r & σ' & -> & documents & -> & _ & Hext & _).
    simpl. split_and!; [|by destruct Hext as (_ & _ & ?)|done].
    intros l o. by apply extends_lookup.
Qed.

Lemma loader_only_adds_witness :
  wf empty_state
  ∧ let run :=
      load_medical_documents_from_directory example_fs (lit "Nowhere")
        empty_state in
    (∀ l o, heap empty_state !! l = Some o → heap run.2 !! l = Some o)
    ∧ log empty_state `prefix_of` log run.2
    ∧ ∀ error, run.1 = Raise error →
        heap run.2 = heap empty_state
        ∧ next_loc run.2 = next_loc empty_state
        ∧ last (log run.2) = Some (load_error_record error).
Proof.
  split; [apply empty_state_wf|].
  apply (loader_only_adds example_fs (lit "Nowhere") empty_state).
  apply empty_state_wf.
Defined.

End loader_extras.

(** ** More about the splitter *)

Section splitter_extras.
Local Open Scope Z_scope.
Implicit Types (σ : state) (documents : list loc).

Lemma enhanced_items_other items doc_index chunk_index total chunk key :
  key ∉ chunk_keys →
  enhanced_items items doc_index chunk_index total chunk !! key
  = items !! key.
Proof.
  unfold chunk_keys, enhanced_items, with_items. simpl.
  rewrite !not_elem_of_union, !not_elem_of_singleton.
  intros [[[? ?] ?] ?]. by rewrite !lookup_insert_ne.
Qed.

Lemma enhanced_items_dom items doc_index chunk_index total chunk :
  dom (enhanced_items items doc_index chunk_index total chunk)
  = dom items ∪ chunk_keys.
Proof.
  unfold chunk_keys, enhanced_items, with_items. simpl.
  rewrite !dom_insert_L. apply set_eq. intros key.
  rewrite !elem_of_union, !elem_of_singleton. tauto.
Qed.

(** X5. The metadata of a chunk is the metadata of its parent with the
    four chunk entries written over it and nothing else: its keys are the
    parent's keys and the four chunk keys, and under every other key it
    has what the parent has.  In particular the [start_index] that the
    text splitting library records for a chunk is not kept. *)
Theorem chunk_metadata_is_parent_plus_chunk_keys
  documents views chunk_size chunk_overlap σ :
  0 ≤ chunk_overlap < chunk_size →
  wf σ → documents_at σ documents views →
  ∃ groups σ',
    split_documents_into_semantic_chunks documents chunk_size
      chunk_overlap σ = (Ok (concat groups), σ')
    ∧ ∀ i j parent parent_content parent_items group chunk,
        documents !! i = Some parent →
        doc_view σ parent = Some (parent_content, parent_items) →
        groups !! i = Some group →
        group !! j = Some chunk →
        ∃ content items,
          doc_view σ' chunk = Some (content, items)
          ∧ dom items = dom parent_items ∪ chunk_keys
          ∧ (∀ key, key ∉ chunk_keys →
                    items !! key = parent_items !! key)
          ∧ items !! lit "start_index" = parent_items !! lit "start_index".
Proof.
  intros Hvalid Hwf Hdocs.
  destruct (split_run documents views chunk_size chunk_overlap σ)
    as (groups & σ' & Hrun & _ & _ & Hgroups); [done..|].
  exists groups, σ'. split; [done|].
  intros i j parent parent_content parent_items group chunk
    Hparent Hview Hgroup Hchunk.
  destruct (Forall2_lookup_l _ _ _ _ _ Hdocs Hparent) as (view & Hv & Hpv).
  assert (view = (parent_content, parent_items)) as -> by congruence.
  destruct (Forall2_lookup_l _ _ _ _ _ Hgroups Hgroup) as (vs & Hvs & Hg).
  rewrite list_lookup_imap, Hv in Hvs. injection Hvs as <-.
  destruct (Forall2_lookup_l _ _ _ _ _ Hg Hchunk) as (cv & Hcv & Hchunkv).
  apply chunk_views_lookup in Hcv
    as (chunks & content & _ & _ & Hlen & ->).
  exists content,
    (enhanced_items parent_items (Z.of_nat i) (Z.of_nat j) (len chunks)
       content).
  split_and!; [done|apply enhanced_items_dom| |].
  - intros key. apply enhanced_items_other.
  - apply enhanced_items_other. unfold chunk_keys.
    rewrite !not_elem_of_union, !not_elem_of_singleton. done.
Qed.


Lemma chunk_metadata_is_parent_plus_chunk_keys_witness :
  0 ≤ 1 < 4 ∧ wf example_state
  ∧ documents_at example_state [1%nat] example_views
  ∧ ∃ groups σ',
      split_documents_into_semantic_chunks [1%nat] 4 1 example_state
      = (Ok (concat groups), σ')
      ∧ ∀ i j parent parent_content parent_items group chunk,
          [1%nat] !! i = Some parent →
          doc_view example_state parent
          = Some (parent_content, parent_items) →
          groups !! i = Some group →
          group !! j = Some chunk →
          ∃ content items,
            doc_view σ' chunk = Some (content, items)
            ∧ dom items = dom parent_items ∪ chunk_keys
            ∧ (∀ key, key ∉ chunk_keys →
                      items !! key = parent_items !! key)
            ∧ items !! lit "start_index"
              = parent_items !! lit "start_index".
Proof.
  split_and!; [lia..|apply example_state_wf|apply example_documents|].
  apply (chunk_metadata_is_parent_plus_chunk_keys [1%nat] example_views 4 1
           example_state);
    [lia|apply example_state_wf|apply example_documents].
Defined.

Lemma metadata_of_Some σ l m :
  metadata_of σ l = Some m ↔ ∃ c, heap σ !! l = Some (Document c m).
Proof.
  unfold metadata_of. split.
  - destruct (heap σ !! l) as [[c md|]|]; [|done..]. intros [= ->]. eauto.
  - by intros [c ->].
Qed.

Lemma metadata_of_extends σ σ' l m :
  wf σ → extends σ σ' → metadata_of σ l = Some m →
  metadata_of σ' l = Some m.
Proof.
  intros Hwf Hext [c Hl]%metadata_of_Some. apply metadata_of_Some.
  exists c. by eapply extends_lookup.
Qed.

(** The loop over the chunks of a document gives every chunk a dict of
    its own, allocated by the loop. *)
Lemma enhance_loop_owned document content md items doc_index locs chunks
  σ0 σ :
  wf σ0 → wf σ → extends σ0 σ →
  heap σ0 !! document = Some (Document content md) →
  heap σ0 !! md = Some (Dict items) →
  Forall2 (λ l c, ∃ m, heap σ !! l = Some (Document c m)) locs chunks →
  Forall (λ l, (next_loc σ0 ≤ l < next_loc σ)%nat) locs →
  NoDup locs →
  post (for_each (enumerate locs) ()
          (enhance_chunk document doc_index locs)) σ
    (λ r σ', ∃ mds,
       (next_loc σ ≤ next_loc σ')%nat
       ∧ Forall2 (λ l m, metadata_of σ' l = Some m) locs mds
       ∧ NoDup mds
       ∧ Forall (λ m, (next_loc σ ≤ m < next_loc σ')%nat) mds).
Proof.
  intros Hwf0 Hwf Hext Hdoc Hmd Hlocs Hfresh Hnodup.
  pose proof (Forall2_length _ _ _ Hlocs) as Hlen.
  rewrite Forall_forall in Hfresh.
  apply (post_for_each (λ k (_ : unit) σ1,
    wf σ1 ∧ extends σ0 σ1 ∧ (next_loc σ ≤ next_loc σ1)%nat
    ∧ (∀ l, l ∈ locs → ∃ c m, heap σ1 !! l = Some (Document c m))
    ∧ ∃ mds,
        Forall2 (λ l m, metadata_of σ1 l = Some m) (take k locs) mds
        ∧ NoDup mds
        ∧ Forall (λ m, (next_loc σ ≤ m < next_loc σ1)%nat) mds)).
  - split_and!; [done..| |].
    + intros l [j Hl]%list_elem_of_lookup.
      destruct (Forall2_lookup_l _ _ _ _ _ Hlocs Hl) as (c & _ & m & Hm).
      eauto.
    + exists []. rewrite take_0. split_and!; constructor.
  - intros k [chunk_index chunk] [] σ1 Hk.
    intros (Hwf1 & Hext1 & Hnext & Hdocs & mds & Hmds & Hnd & Hbounds).
    apply lookup_enumerate_inv in Hk as [_ Hk]. simpl in Hk.
    pose proof (Hfresh chunk (list_elem_of_lookup_2 _ _ _ Hk)) as Hbound.
    destruct (Hdocs chunk (list_elem_of_lookup_2 _ _ _ Hk))
      as (c & m & Hchunk).
    unfold enhance_chunk. apply post_bind.
    eapply post_get_metadata;
      [exact (extends_lookup σ0 σ1 _ _ Hwf0 Hext1 Hdoc)|].
    apply post_bind.
    eapply post_dict_copy;
      [exact (extends_lookup σ0 σ1 _ _ Hwf0 Hext1 Hmd)|].
    set (n := next_loc σ1). apply post_bind.
    eapply post_get_page_content.
    { simpl. rewrite lookup_insert_ne by lia. done. }
    apply post_bind.
    eapply post_dict_update; [apply lookup_insert_eq|]. simpl.
    eapply post_set_metadata.
    { simpl. rewrite !lookup_insert_ne by lia. done. }
    simpl. split_and!.
    + intros l Hl. simpl in *. rewrite !lookup_insert_ne by lia.
      apply Hwf1. lia.
    + destruct Hext1 as (? & Hh & ?). split_and!; simpl; [lia| |done].
      intros l Hl. rewrite !lookup_insert_ne by lia. by apply Hh.
    + lia.
    + intros l Hl. destruct (decide (l = chunk)) as [->|Hne].
      * rewrite lookup_insert_eq. eauto.
      * pose proof (Hfresh l Hl). rewrite !lookup_insert_ne by lia.
        by apply Hdocs.
    + exists (mds ++ [n]). erewrite take_S_r by done. split_and!.
      * apply Forall2_app.
        -- apply Forall2_same_length_lookup_2;
             [by eapply Forall2_length|].
           intros j l m' Hl Hm'.
           pose proof (Forall2_lookup_lr _ _ _ _ _ _ Hmds Hl Hm') as Hlm.
           apply lookup_take_Some in Hl as [Hl Hj].
           assert (l ≠ chunk) as Hne.
           { intros ->. pose proof (NoDup_lookup _ _ _ _ Hnodup Hl Hk).
             lia. }
           pose proof (Hfresh l (list_elem_of_lookup_2 _ _ _ Hl)).
           cbv beta in Hlm. apply metadata_of_Some in Hlm as [c' Hlm].
           apply metadata_of_Some. exists c'. simpl.
           rewrite !lookup_insert_ne by lia. done.
        -- constructor; [|constructor]. apply metadata_of_Some.
           exists c. simpl. by rewrite lookup_insert_eq.
      * apply NoDup_app. split_and!; [done| |apply NoDup_singleton].
        intros m' Hm' ->%list_elem_of_singleton.
        rewrite Forall_forall in Hbounds. apply Hbounds in Hm'. lia.
      * apply Forall_app. split.
        -- eapply Forall_impl; [done|]. simpl. lia.
        -- apply Forall_singleton. lia.
  - intros [] σ1 (_ & _ & Hnext & _ & mds & Hmds & Hnd & Hbounds).
    rewrite length_enumerate, firstn_all in Hmds. eauto.
Qed.

Lemma owned_nil σ σ' : owned σ σ' [] [].
Proof. split_and!; constructor. Qed.

Lemma owned_app σ0 σ1 σ2 locs1 mds1 locs2 mds2 :
  wf σ1 → extends σ1 σ2 →
  owned σ0 σ1 locs1 mds1 → owned σ1 σ2 locs2 mds2 →
  (next_loc σ0 ≤ next_loc σ1)%nat →
  owned σ0 σ2 (locs1 ++ locs2) (mds1 ++ mds2).
Proof.
  intros Hwf1 Hext (Hmds1 & Hnd1 & Hb1) (Hmds2 & Hnd2 & Hb2) Hle.
  pose proof Hext as (Hle' & _ & _).
  rewrite Forall_forall in Hb1. rewrite Forall_forall in Hb2.
  split_and!.
  - apply Forall2_app; [|done].
    eapply Forall2_impl; [done|]. simpl. intros l m.
    by apply metadata_of_extends.
  - apply NoDup_app in Hnd1 as (Hl1 & Hdisj1 & Hm1).
    apply NoDup_app in Hnd2 as (Hl2 & Hdisj2 & Hm2).
    assert (∀ x y, x ∈ locs1 ++ mds1 → y ∈ locs2 ++ mds2 → x ≠ y) as Hsep.
    { intros x y Hx Hy ->. apply Hb1 in Hx. apply Hb2 in Hy. lia. }
    rewrite <-app_assoc. apply NoDup_app. split_and!; [done| |].
    + intros x Hx [Hx2|[Hx1|Hx2]%elem_of_app]%elem_of_app.
      * eapply (Hsep x x); [|by apply elem_of_app; left|done].
        by apply elem_of_app; left.
      * by eapply Hdisj1.
      * eapply (Hsep x x); [|by apply elem_of_app; right|done].
        by apply elem_of_app; left.
    + apply NoDup_app. split_and!.
      * done.
      * intros x Hx2 [Hx1|Hx2']%elem_of_app.
        -- eapply (Hsep x x); [|by apply elem_of_app; left|done].
           by apply elem_of_app; right.
        -- by eapply Hdisj2.
      * apply NoDup_app. split_and!; [done| |done].
        intros x Hx1 Hx2.
        eapply (Hsep x x); [|by apply elem_of_app; right|done].
        by apply elem_of_app; right.
  - apply Forall_forall. intros x.
    rewrite !elem_of_app. intros [[Hx|Hx]|[Hx|Hx]].
    + assert (x ∈ locs1 ++ mds1) as H by (apply elem_of_app; auto).
      apply Hb1 in H. lia.
    + assert (x ∈ locs2 ++ mds2) as H by (apply elem_of_app; auto).
      apply Hb2 in H. lia.
    + assert (x ∈ locs1 ++ mds1) as H by (apply elem_of_app; auto).
      apply Hb1 in H. lia.
    + assert (x ∈ locs2 ++ mds2) as H by (apply elem_of_app; auto).
      apply Hb2 in H. lia.
Qed.


Lemma owned_log σ h n l r locs mds :
  owned σ (State h n l) locs mds → owned σ (State h n (l ++ [r])) locs mds.
Proof. done. Qed.

(** One iteration of the loop over the documents: the chunks appended are
    new documents with new dicts. *)
Lemma chunk_document_owned splitter all doc_index document view σ :
  wf σ → doc_view σ document = Some view →
  post (chunk_document splitter all (doc_index, document)) σ
    (λ r σ', ∃ locs mds, r = Ok (all ++ locs) ∧ owned σ σ' locs mds).
Proof.
  intros Hwf Hview.
  destruct view as [content items].
  apply doc_view_Some in Hview as (md & Hdoc & Hmd).
  unfold chunk_document. apply post_try. apply post_bind.
  eapply post_get_metadata; [done|]. apply post_bind.
  eapply post_dict_get; [done|]. apply post_bind.
  apply post_logger. apply post_bind.
  destruct (LangChain.split_text splitter content) as [chunks|e] eqn:Hsplit.
  - eapply post_mono.
    { eapply split_documents_spec; [by apply wf_log|done..]. }
    simpl.
    intros r σ1 (locs & -> & Hwf1 & Hext1 & Hlocs & Hfresh & Hnodup).
    assert (extends σ σ1) as Hext.
    { eapply extends_trans; [|done]. by apply extends_log. }
    apply post_bind. eapply post_mono.
    { apply post_and.
      - by eapply (enhance_loop_spec document content md items doc_index
                     locs chunks σ σ1).
      - by eapply (enhance_loop_owned document content md items doc_index
                     locs chunks σ σ1). }
    simpl.
    intros r σ2 [(-> & Hwf2 & Hext2 & Hviews)
                 (mds & Hnext & Hmds & Hnd & Hbounds)].
    apply post_bind.
    eapply post_get_metadata;
      [exact (extends_lookup σ σ2 _ _ Hwf Hext2 Hdoc)|].
    apply post_bind.
    eapply post_dict_get;
      [exact (extends_lookup σ σ2 _ _ Hwf Hext2 Hmd)|].
    apply post_bind. apply post_logger. apply post_ret.
    exists locs, mds. split; [done|]. apply owned_log.
    pose proof Hext as (Hle & _ & _).
    rewrite Forall_forall in Hfresh. rewrite Forall_forall in Hbounds.
    simpl in Hfresh. split_and!; [done| |].
    + apply NoDup_app. split_and!; [done| |done].
      intros x Hx Hx'. apply Hfresh in Hx. apply Hbounds in Hx'.
      simpl in *. lia.
    + apply Forall_forall. intros x [Hx|Hx]%elem_of_app.
      * apply Hfresh in Hx. simpl in *. lia.
      * apply Hbounds in Hx. simpl in *. lia.
  - eapply post_mono.
    { by eapply split_documents_raises. }
    simpl. intros r σ1 [-> ->]. apply post_bind, post_logger, post_ret.
    exists [], []. rewrite app_nil_r. split; [done|]. apply owned_nil.
Qed.

Lemma chunk_documents_owned splitter documents views σ :
  wf σ →
  Forall2 (λ d v, doc_view σ d = Some v) documents views →
  post (for_each (enumerate documents) [] (chunk_document splitter)) σ
    (λ r σ', ∃ locs mds, r = Ok locs ∧ owned σ σ' locs mds).
Proof.
  intros Hwf Hdocs.
  apply (post_for_each (λ k all σ1,
    wf σ1 ∧ extends σ σ1 ∧ ∃ mds, owned σ σ1 all mds)).
  - split_and!; [done..|]. exists []. apply owned_nil.
  - intros k [doc_index document] all σ1 Hk.
    intros (Hwf1 & Hext1 & mds & Howned).
    apply lookup_enumerate_inv in Hk as [_ Hk]. simpl in Hk.
    destruct (Forall2_lookup_l _ _ _ _ _ Hdocs Hk) as (view & Hv & Hview).
    pose proof (doc_view_extends σ σ1 _ _ Hwf Hext1 Hview) as Hview1.
    eapply post_mono.
    { apply post_and.
      - by eapply (chunk_document_spec splitter all doc_index).
      - by eapply (chunk_document_owned splitter all doc_index). }
    simpl.
    intros r σ2 [(locs & -> & Hwf2 & Hext2 & _) (locs' & mds' & Heq & Hnew)].
    injection Heq as Heq. apply app_inv_head in Heq as <-.
    split_and!; [done|by eapply extends_trans|].
    exists (mds ++ mds').
    apply (owned_app σ σ1 σ2); [done..|]. by destruct Hext1.
  - intros all σ1 (_ & _ & mds & Howned). eauto.
Qed.

(** With accepted parameters the chunks returned are new documents with
    new dicts. *)
Lemma split_accepts_owned documents views chunk_size chunk_overlap σ :
  0 ≤ chunk_overlap < chunk_size →
  wf σ → documents_at σ documents views →
  post (split_documents_into_semantic_chunks documents chunk_size
          chunk_overlap) σ
    (λ r σ', ∃ chunks mds, r = Ok chunks ∧ owned σ σ' chunks mds).
Proof.
  intros Hvalid Hwf Hdocs.
  unfold split_documents_into_semantic_chunks. apply post_try.
  apply post_bind, post_logger, post_bind, post_logger.
  unfold when.
  rewrite (proj2 (Z.leb_gt chunk_size 0)) by lia.
  rewrite (proj2 (Z.ltb_ge chunk_overlap 0)) by lia.
  rewrite (proj2 (Z.leb_gt chunk_size chunk_overlap)) by lia.
  do 3 (apply post_bind, post_ret).
  destruct documents as [|document documents].
  { simpl. apply post_bind, post_logger, post_ret.
    exists [], []. split; [done|]. apply owned_nil. }
  cbn [truthy negb]. apply post_bind, post_lift.
  unfold LangChain.RecursiveCharacterTextSplitter.
  rewrite (proj2 (Z.leb_gt chunk_size 0)) by lia.
  rewrite (proj2 (Z.ltb_ge chunk_overlap 0)) by lia.
  rewrite (proj2 (Z.ltb_ge chunk_size chunk_overlap)) by lia.
  apply post_bind. eapply post_mono.
  { apply post_and.
    - eapply (chunk_documents_spec
                (medical_splitter chunk_size chunk_overlap)); [|done].
      by do 2 apply wf_log.
    - eapply (chunk_documents_owned
                (medical_splitter chunk_size chunk_overlap)); [|done].
      by do 2 apply wf_log. }
  simpl.
  intros r σ1 [(groups & -> & Hwf1 & Hext1 & Hgroups)
               (chunks & mds & Heq & Howned)].
  injection Heq as <-.
  apply post_bind, post_logger, post_bind.
  destruct (truthy (concat groups)) eqn:Hall.
  2:{ apply post_ret, post_ret. exists (concat groups), mds. done. }
  eapply post_mono.
  { eapply log_statistics_spec; [by apply truthy_true|].
    apply Forall_forall. intros l Hl. simpl.
    apply elem_of_concat in Hl as (group & Hl & Hgroup).
    apply list_elem_of_lookup in Hgroup as [i Hgroup].
    destruct (Forall2_lookup_l _ _ _ _ _ Hgroups Hgroup)
      as (vs & _ & Hvs).
    apply list_elem_of_lookup in Hl as [j Hl].
    destruct (Forall2_lookup_l _ _ _ _ _ Hvs Hl) as ([c items] & _ & Hv).
    apply doc_view_Some in Hv as (m & ? & ?). eauto. }
  simpl. intros r σ2 (-> & Hheap & Hnext & Hlog). apply post_ret.
  exists (concat groups), mds. split; [done|].
  destruct Howned as (Hmds & Hnd & Hbounds). split_and!; [|done|].
  - eapply Forall2_impl; [done|]. simpl. intros l m.
    unfold metadata_of. by rewrite Hheap.
  - eapply Forall_impl; [done|]. simpl. intros l. rewrite Hnext. simpl.
    done.
Qed.

(** X6. The chunks that the splitter returns are new objects, all
    different, and each has a metadata dict of its own: the dict did not
    exist before the call, so it is not the dict of the parent, and no two
    chunks refer to the same dict. *)
Theorem chunks_are_new_objects
  documents views chunk_size chunk_overlap σ :
  0 ≤ chunk_overlap < chunk_size →
  wf σ → documents_at σ documents views →
  ∃ chunks σ',
    split_documents_into_semantic_chunks documents chunk_size
      chunk_overlap σ = (Ok chunks, σ')
    ∧ NoDup chunks
    ∧ ∀ i chunk content md,
        chunks !! i = Some chunk →
        heap σ' !! chunk = Some (Document content md) →
        heap σ !! chunk = None
        ∧ heap σ !! md = None
        ∧ ∀ j chunk' content',
            chunks !! j = Some chunk' →
            heap σ' !! chunk' = Some (Document content' md) →
            i = j.
Proof.
  intros Hvalid Hwf Hdocs.
  destruct (post_run _ _ _
              (split_accepts_owned documents views chunk_size chunk_overlap
                 σ Hvalid Hwf Hdocs))
    as (r & σ' & Hrun & chunks & mds & -> & Hmds & Hnd & Hbounds).
  exists chunks, σ'. split; [done|].
  apply NoDup_app in Hnd as (Hnd1 & _ & Hnd2).
  rewrite Forall_forall in Hbounds. split; [done|].
  intros i chunk content md Hchunk Hdoc.
  assert (mds !! i = Some md) as Hmd.
  { destruct (Forall2_lookup_l _ _ _ _ _ Hmds Hchunk) as (m & Hm & Hcm).
    apply metadata_of_Some in Hcm as [c Hcm]. congruence. }
  split_and!.
  - apply Hwf.
    assert (chunk ∈ chunks ++ mds) as H.
    { apply elem_of_app. left. by eapply list_elem_of_lookup_2. }
    apply Hbounds in H. lia.
  - apply Hwf.
    assert (md ∈ chunks ++ mds) as H.
    { apply elem_of_app. right. by eapply list_elem_of_lookup_2. }
    apply Hbounds in H. lia.
  - intros j chunk' content' Hchunk' Hdoc'.
    destruct (Forall2_lookup_l _ _ _ _ _ Hmds Hchunk') as (m & Hm & Hcm).
    apply metadata_of_Some in Hcm as [c Hcm].
    assert (m = md) as -> by congruence.
    by eapply NoDup_lookup.
Qed.


Lemma chunks_are_new_objects_witness :
  0 ≤ 1 < 4 ∧ wf example_state
  ∧ documents_at example_state [1%nat] example_views
  ∧ ∃ chunks σ',
      split_documents_into_semantic_chunks [1%nat] 4 1 example_state
      = (Ok chunks, σ')
      ∧ NoDup chunks
      ∧ ∀ i chunk content md,
          chunks !! i = Some chunk →
          heap σ' !! chunk = Some (Document content md) →
          heap example_state !! chunk = None
          ∧ heap example_state !! md = None
          ∧ ∀ j chunk' content',
              chunks !! j = Some chunk' →
              heap σ' !! chunk' = Some (Document content' md) →
              i = j.
Proof.
  split_and!; [lia..|apply example_state_wf|apply example_documents|].
  apply (chunks_are_new_objects [1%nat] example_views 4 1 example_state);
    [lia|apply example_state_wf|apply example_documents].
Defined.

(** A list element that is not a document with a dict of metadata is
    logged and skipped: the iteration changes the log only. *)
Lemma chunk_document_malformed splitter all doc_index document σ :
  doc_view σ document = None →
  chunk_document splitter all (Z.of_nat doc_index, document) σ
  = (Ok all,
     State (heap σ) (next_loc σ)
       (log σ ++ [chunk_error_record doc_index no_such_attribute])).
Proof.
  unfold doc_view, chunk_document, try_except, mbind, M_bind.
  unfold get_metadata, dict_get, dict_items, mbind, M_bind.
  destruct (heap σ !! document) as [[content md|items]|] eqn:Hdoc;
    [|done..].
  by destruct (heap σ !! md) as [[|items]|] eqn:Hmd.
Qed.

Lemma chunk_documents_any splitter documents σ :
  well_configured splitter →
  wf σ →
  post (for_each (enumerate documents) [] (chunk_document splitter)) σ
    (λ r σ', ∃ chunks,
       r = Ok chunks ∧ wf σ' ∧ extends σ σ'
       ∧ Forall (λ chunk, ∃ content items,
                   doc_view σ' chunk = Some (content, items)
                   ∧ len content ≤ LangChain._chunk_size splitter) chunks
       ∧ ∀ i document items,
           documents !! i = Some document →
           heap σ !! document = Some (Dict items) →
           chunk_error_record i no_such_attribute ∈ log σ').
Proof.
  intros Hconf Hwf.
  apply (post_for_each (λ k chunks σ1,
    wf σ1 ∧ extends σ σ1
    ∧ Forall (λ chunk, ∃ content items,
                doc_view σ1 chunk = Some (content, items)
                ∧ len content ≤ LangChain._chunk_size splitter) chunks
    ∧ ∀ i document items,
        (i < k)%nat → documents !! i = Some document →
        heap σ !! document = Some (Dict items) →
        chunk_error_record i no_such_attribute ∈ log σ1)).
  - split_and!; [done..|constructor|]. intros. lia.
  - intros k [doc_index document] chunks σ1 Hk.
    intros (Hwf1 & Hext1 & Hgood & Hlog).
    apply lookup_enumerate_inv in Hk as [Hidx Hk]. simpl in Hidx, Hk.
    subst doc_index.
    destruct (doc_view σ1 document) as [view|] eqn:Hview.
    + eapply post_mono; [by eapply chunk_document_spec|]. simpl.
      intros r σ2 (locs & -> & Hwf2 & Hext2 & Hlocs).
      split_and!; [done|by eapply extends_trans| |].
      * apply Forall_app. split.
        -- eapply Forall_impl; [done|]. simpl.
           intros chunk (content & items & Hchunk & Hfit).
           exists content, items. split; [|done].
           exact (doc_view_extends σ1 σ2 _ _ Hwf1 Hext2 Hchunk).
        -- apply Forall_forall. intros chunk [j Hchunk]%list_elem_of_lookup.
           destruct (Forall2_lookup_l _ _ _ _ _ Hlocs Hchunk)
             as ([content items] & Hv & Hcv).
           exists content, items. split; [done|].
           apply (chunk_views_fit splitter (Z.of_nat k) view
                    (content, items)); [done|].
           by eapply list_elem_of_lookup_2.
      * intros i d items Hi Hd Hdict.
        destruct (decide (i = k)) as [->|Hne].
        -- assert (d = document) as -> by congruence.
           pose proof (extends_lookup σ σ1 _ _ Hwf Hext1 Hdict) as Hd1.
           unfold doc_view in Hview. by rewrite Hd1 in Hview.
        -- destruct Hext2 as (_ & _ & Hprefix).
           eapply elem_of_prefix; [|done]. eapply Hlog; [|done..]. lia.
    + unfold post. rewrite chunk_document_malformed by done. simpl.
      split_and!; [by apply wf_log|by apply extends_log|done|].
      intros i d items Hi Hd Hdict. apply elem_of_app.
      destruct (decide (i = k)) as [->|Hne].
      * right. apply list_elem_of_here.
      * left. eapply Hlog; [|done..]. lia.
  - intros chunks σ1 (Hwf1 & Hext1 & Hgood & Hlog). exists chunks.
    split_and!; [done..|]. intros i d items Hd Hdict.
    eapply Hlog; [|done..]. rewrite length_enumerate.
    by eapply lookup_lt_Some.
Qed.

(** With accepted parameters the function returns, whatever the list
    holds. *)
Lemma split_accepts_any documents chunk_size chunk_overlap σ :
  0 ≤ chunk_overlap < chunk_size →
  wf σ →
  post (split_documents_into_semantic_chunks documents chunk_size
          chunk_overlap) σ
    (λ r σ', ∃ chunks,
       r = Ok chunks ∧ wf σ' ∧ extends σ σ'
       ∧ Forall (λ chunk, ∃ content items,
                   doc_view σ' chunk = Some (content, items)
                   ∧ len content ≤ chunk_size) chunks
       ∧ ∀ i document items,
           documents !! i = Some document →
           heap σ !! document = Some (Dict items) →
           chunk_error_record i no_such_attribute ∈ log σ').
Proof.
  intros Hvalid Hwf.
  unfold split_documents_into_semantic_chunks. apply post_try.
  apply post_bind, post_logger, post_bind, post_logger.
  unfold when.
  rewrite (proj2 (Z.leb_gt chunk_size 0)) by lia.
  rewrite (proj2 (Z.ltb_ge chunk_overlap 0)) by lia.
  rewrite (proj2 (Z.leb_gt chunk_size chunk_overlap)) by lia.
  do 3 (apply post_bind, post_ret).
  destruct documents as [|document documents].
  { simpl. apply post_bind, post_logger, post_ret. exists [].
    split_and!; [done|by apply wf_log| |constructor|].
    - do 3 apply extends_log. apply extends_refl.
    - by intros i d items ?. }
  cbn [truthy negb]. apply post_bind, post_lift.
  unfold LangChain.RecursiveCharacterTextSplitter.
  rewrite (proj2 (Z.leb_gt chunk_size 0)) by lia.
  rewrite (proj2 (Z.ltb_ge chunk_overlap 0)) by lia.
  rewrite (proj2 (Z.ltb_ge chunk_size chunk_overlap)) by lia.
  apply post_bind. eapply post_mono.
  { eapply (chunk_documents_any (medical_splitter chunk_size chunk_overlap)).
    - by apply medical_splitter_well_configured.
    - by do 2 apply wf_log. }
  simpl. intros r σ1 (chunks & -> & Hwf1 & Hext1 & Hgood & Hlog).
  assert (extends σ σ1) as Hext.
  { eapply extends_trans; [|done]. do 2 apply extends_log.
    apply extends_refl. }
  apply post_bind, post_logger, post_bind.
  destruct (truthy chunks) eqn:Hall.
  2:{ apply post_ret, post_ret. exists chunks.
      split_and!; [done|by apply wf_log|by apply extends_log|done|].
      intros i d items Hd Hdict. simpl. apply elem_of_app. left.
      by eapply (Hlog i d items). }
  eapply post_mono.
  { eapply log_statistics_spec; [by apply truthy_true|].
    eapply Forall_impl; [done|]. simpl.
    intros chunk (content & items & Hchunk & _).
    apply doc_view_Some in Hchunk as (m & ? & ?). eauto. }
  simpl. intros r σ2 (-> & Hheap & Hnext & Hprefix). apply post_ret.
  exists chunks. split_and!; [done|..].
  - intros l Hl. rewrite Hheap. apply Hwf1. simpl. lia.
  - destruct Hext as (? & Hh & ?). split_and!; [simpl in *; lia|..].
    + intros l Hl. rewrite Hheap. simpl. by apply Hh.
    + etrans; [done|]. etrans; [|done]. simpl. by apply prefix_app_r.
  - eapply Forall_impl; [done|]. simpl.
    intros chunk (content & items & Hchunk & Hfit).
    exists content, items. split; [|done].
    unfold doc_view. by rewrite Hheap.
  - intros i d items Hd Hdict. eapply elem_of_prefix; [|done]. simpl.
    apply elem_of_app. left. by eapply (Hlog i d items).
Qed.

(** X7. With accepted parameters the splitter returns whatever the list
    holds: every chunk it returns is a document of at most [chunk_size]
    characters, and a list element that is a dict, not a document, is
    skipped with an error record in the log that carries its 1-based
    position and the message of the [AttributeError]. *)
Theorem split_skips_malformed_documents
  documents chunk_size chunk_overlap σ :
  0 ≤ chunk_overlap < chunk_size →
  wf σ →
  ∃ chunks σ',
    split_documents_into_semantic_chunks documents chunk_size
      chunk_overlap σ = (Ok chunks, σ')
    ∧ Forall (λ chunk, ∃ content items,
                doc_view σ' chunk = Some (content, items)
                ∧ len content ≤ chunk_size) chunks
    ∧ ∀ i document items,
        documents !! i = Some document →
        heap σ !! document = Some (Dict items) →
        ∃ doc_error,
          exn_type doc_error = AttributeError
          ∧ chunk_error_record i doc_error ∈ log σ'.
Proof.
  intros Hvalid Hwf.
  destruct (post_run _ _ _
              (split_accepts_any documents chunk_size chunk_overlap σ
                 Hvalid Hwf))
    as (r & σ' & Hrun & chunks & -> & _ & _ & Hgood & Hlog).
  exists chunks, σ'. split_and!; [done..|].
  intros i d items Hd Hdict. exists no_such_attribute. split; [done|].
  by eapply Hlog.
Qed.

Lemma split_skips_malformed_documents_witness :
  0 ≤ 1 < 4 ∧ wf example_state
  ∧ ∃ chunks σ',
      split_documents_into_semantic_chunks [0%nat; 1%nat] 4 1 example_state
      = (Ok chunks, σ')
      ∧ Forall (λ chunk, ∃ content items,
                  doc_view σ' chunk = Some (content, items)
                  ∧ len content ≤ 4) chunks
      ∧ ∀ i document items,
          [0%nat; 1%nat] !! i = Some document →
          heap example_state !! document = Some (Dict items) →
          ∃ doc_error,
            exn_type doc_error = AttributeError
            ∧ chunk_error_record i doc_error ∈ log σ'.
Proof.
  split_and!; [lia..|apply example_state_wf|].
  apply (split_skips_malformed_documents [0%nat; 1%nat] 4 1 example_state);
    [lia|apply example_state_wf].
Defined.

End splitter_extras.

(** ** The compatibility functions, [store_index.py] and the caller in
    [app.py] *)

Lemma elem_of_concat_2 {A} (x : A) l (ls : list (list A)) :
  x ∈ l → l ∈ ls → x ∈ concat ls.
Proof.
  intros Hx. induction ls as [|l' ls IH]; [by intros ?%elem_of_nil|].
  simpl. rewrite elem_of_cons, elem_of_app. intros [->|Hl]; auto.
Qed.

Lemma not_chunk_key key :
  key ∈ [lit "source"; lit "filename"; lit "document_type";
         lit "page_count"] →
  key ∉ chunk_keys.
Proof.
  unfold chunk_keys. rewrite !not_elem_of_union, !not_elem_of_singleton.
  rewrite !elem_of_cons, elem_of_nil.
  intros [->|[->|[->|[->|[]]]]]; done.
Qed.

Section compatibility_facts.
Local Open Scope Z_scope.
Context {HuggingFaceEmbeddings float : Type}.
Variable fs : filesystem.
Variable new_embeddings :
  model_configuration → result HuggingFaceEmbeddings.
Variable embed_query : HuggingFaceEmbeddings → text → result (list float).
Implicit Types (σ : state).

(** The initializer always returns, and touches only the log; it
    returns [None] exactly when it has logged an error. *)
Lemma initialize_spec name σ :
  post (initialize_medical_embedding_model new_embeddings embed_query name) σ
    (λ r σ', ∃ medical_embeddings records,
       r = Ok medical_embeddings
       ∧ σ' = State (heap σ) (next_loc σ) (log σ ++ records)
       ∧ (medical_embeddings = None
          ↔ Exists (λ record, levelname record = ERROR) records)).
Proof.
  unfold post, initialize_medical_embedding_model, try_except.
  unfold mbind, M_bind, logger, lift. simpl.
  destruct (new_embeddings _) as [medical_embeddings|error]; simpl.
  - destruct (embed_query medical_embeddings _) as [test_embedding|e]; simpl.
    + eexists _, _. rewrite <-!app_assoc. split_and!; [done..|].
      split; [done|]. intros Hex.
      repeat (apply Exists_cons in Hex as [Hex|Hex]; [done|]).
      by apply Exists_nil in Hex.
    + eexists _, _. rewrite <-!app_assoc. split_and!; [done..|].
      split; [|done]. intros _. simpl. apply Exists_cons_tl, Exists_cons_hd.
      done.
  - eexists _, _. rewrite <-!app_assoc. split_and!; [done..|].
    split; [|done]. intros _. simpl. apply Exists_cons_tl, Exists_cons_hd.
    done.
Qed.


Lemma text_split_spec extracted_data views σ :
  wf σ → documents_at σ extracted_data views →
  post (text_split extracted_data) σ
    (λ r σ', ∃ groups,
       r = Ok (concat groups) ∧ wf σ' ∧ extends σ σ'
       ∧ Forall2 (documents_at σ') groups
           (imap (λ i v, chunk_views (medical_splitter 500 50)
                           (Z.of_nat i) v) views)).
Proof.
  intros Hwf Hdocs. unfold text_split. apply post_bind, post_logger.
  eapply post_mono.
  { apply (split_accepts extracted_data views 500 50); [lia| |done].
    by apply wf_log. }
  simpl. intros r σ' (groups & -> & Hwf' & Hext & Hgroups).
  exists groups. split_and!; [done..| |done].
  eapply extends_trans; [|done]. apply extends_log, extends_refl.
Qed.

(** X8. [text_split] never raises on a sound heap, whatever list it is
    given: its defaults [chunk_size=500] and [chunk_overlap=50] are
    accepted.  The first record it logs is the deprecation warning, and
    every chunk it returns has at most 500 characters. *)
Theorem text_split_never_raises extracted_data σ :
  wf σ →
  ∃ text_chunks σ' records,
    text_split extracted_data σ = (Ok text_chunks, σ')
    ∧ log σ' = log σ ++ text_split_deprecation :: records
    ∧ Forall (λ chunk, ∃ content items,
                doc_view σ' chunk = Some (content, items)
                ∧ len content ≤ 500) text_chunks.
Proof.
  intros Hwf.
  assert (post (text_split extracted_data) σ
            (λ r σ', ∃ text_chunks records,
               r = Ok text_chunks
               ∧ log σ' = log σ ++ text_split_deprecation :: records
               ∧ Forall (λ chunk, ∃ content items,
                           doc_view σ' chunk = Some (content, items)
                           ∧ len content ≤ 500) text_chunks)) as Hpost.
  { unfold text_split. apply post_bind, post_logger.
    eapply post_mono.
    { apply (split_accepts_any extracted_data 500 50); [lia|].
      by apply wf_log. }
    simpl. intros r σ' (chunks & -> & _ & (_ & _ & [records Hlog]) & Hfit & _).
    exists chunks, records. split_and!; [done| |done].
    simpl in Hlog. by rewrite Hlog, <-app_assoc. }
  destruct (post_run _ _ _ Hpost)
    as (r & σ' & Hrun & text_chunks & records & -> & ? & ?).
  by exists text_chunks, σ', records.
Qed.

Lemma store_index_spec pdf_files σ :
  fs (lit "Documents/") = Directory pdf_files →
  wf σ →
  post (store_index fs new_embeddings embed_query) σ
    (λ r σ', ∃ groups embeddings,
       r = Ok (concat groups, embeddings)
       ∧ Forall2 (documents_at σ') groups
           (imap (λ i v, chunk_views (medical_splitter 500 50)
                           (Z.of_nat i) v)
              (omap source_document pdf_files))).
Proof.
  intros Hdir Hwf. unfold store_index. apply post_bind.
  unfold load_pdf_file. apply post_bind, post_logger.
  eapply post_mono.
  { apply (load_directory_spec fs _ pdf_files); [done|by apply wf_log]. }
  simpl. intros r σ1 (documents & -> & Hwf1 & _ & Hdocs & _).
  apply post_bind. eapply post_mono; [by eapply text_split_spec|].
  simpl. intros r σ2 (groups & -> & Hwf2 & _ & Hgroups).
  apply post_bind. unfold hugging_face_embedding_model.
  apply post_bind, post_logger.
  eapply post_mono; [apply initialize_spec|].
  simpl. intros r σ3 (embeddings & records & -> & -> & _).
  apply post_ret. by exists groups, embeddings.
Qed.

Lemma stripped_ink content : stripped content → ink content = true.
Proof.
  intros (Hne & Hhead & _). destruct content as [|c content]; [done|].
  simpl. by rewrite (Hhead c eq_refl).
Qed.

(** X9. When [Documents/] is a directory the ingestion of
    [store_index.py] does not raise, and every chunk it prepares for the
    index has at most 500 characters and comes from a file of the
    directory: its metadata names the path and the file name of the file
    and the number of its pages. *)
Theorem store_index_chunks_come_from_files pdf_files σ :
  fs (lit "Documents/") = Directory pdf_files →
  wf σ →
  ∃ text_chunks embeddings σ',
    store_index fs new_embeddings embed_query σ
    = (Ok (text_chunks, embeddings), σ')
    ∧ Forall (λ chunk, ∃ content items pdf_file_path reader,
                doc_view σ' chunk = Some (content, items)
                ∧ len content ≤ 500
                ∧ pdf_file_path ∈ pdf_files
                ∧ read_pdf pdf_file_path = Ok reader
                ∧ items !! lit "source"
                  = Some (VStr (path_str pdf_file_path))
                ∧ items !! lit "filename"
                  = Some (VStr (name pdf_file_path))
                ∧ items !! lit "page_count"
                  = Some (VInt (len (pages reader)))) text_chunks.
Proof.
  intros Hdir Hwf.
  destruct (post_run _ _ _ (store_index_spec pdf_files σ Hdir Hwf))
    as (r & σ' & Hrun & groups & embeddings & -> & Hgroups).
  exists (concat groups), embeddings, σ'. split; [done|].
  apply Forall_forall. intros chunk Hchunk.
  apply elem_of_concat in Hchunk as (group & Hchunk & Hgroup).
  apply list_elem_of_lookup in Hgroup as [i Hgroup].
  destruct (Forall2_lookup_l _ _ _ _ _ Hgroups Hgroup) as (vs & Hvs & Hg).
  apply list_elem_of_lookup in Hchunk as [j Hchunk].
  destruct (Forall2_lookup_l _ _ _ _ _ Hg Hchunk)
    as ([content items] & Hv & Hview).
  rewrite list_lookup_imap in Hvs.
  destruct (omap source_document pdf_files !! i) as [view|] eqn:Hi;
    [|done].
  injection Hvs as <-.
  apply list_elem_of_lookup_2, list_elem_of_omap in Hi
    as (pdf_file_path & Hf & Hsource).
  pose proof (source_document_has_text pdf_file_path) as Htext.
  rewrite Hsource in Htext. destruct Htext as (_ & reader & Hread & ->).
  pose proof (chunk_views_fit (medical_splitter 500 50) (Z.of_nat i) _
                (content, items)
                (medical_splitter_well_configured 500 50 ltac:(lia))
                (list_elem_of_lookup_2 _ _ _ Hv)) as Hfit.
  apply chunk_views_lookup in Hv as (chunks & c & _ & _ & _ & Heq).
  injection Heq as -> ->.
  eexists c, _, pdf_file_path, reader.
  split_and!; [done..| | |].
  - rewrite enhanced_items_other by (apply not_chunk_key;
        repeat first [apply list_elem_of_here|apply list_elem_of_further]).
    apply pdf_metadata_items.
  - rewrite enhanced_items_other by (apply not_chunk_key;
        repeat first [apply list_elem_of_here|apply list_elem_of_further]).
    apply pdf_metadata_items.
  - rewrite enhanced_items_other by (apply not_chunk_key;
        repeat first [apply list_elem_of_here|apply list_elem_of_further]).
    apply pdf_metadata_items.
Qed.

(** X10. No file with text is lost on the way to the index: for every
    file of [Documents/] that opens and has a page with text that is not
    blank, the ingestion of [store_index.py] prepares at least one chunk
    whose metadata names the path of the file. *)
Theorem store_index_chunks_every_file_with_text pdf_files σ pdf_file_path :
  fs (lit "Documents/") = Directory pdf_files →
  wf σ →
  pdf_file_path ∈ pdf_files →
  has_text pdf_file_path = true →
  ∃ text_chunks embeddings σ' chunk content items,
    store_index fs new_embeddings embed_query σ
    = (Ok (text_chunks, embeddings), σ')
    ∧ chunk ∈ text_chunks
    ∧ doc_view σ' chunk = Some (content, items)
    ∧ items !! lit "source" = Some (VStr (path_str pdf_file_path)).
Proof.
  intros Hdir Hwf Hf Htext.
  destruct (post_run _ _ _ (store_index_spec pdf_files σ Hdir Hwf))
    as (r & σ' & Hrun & groups & embeddings & -> & Hgroups).
  pose proof (source_document_has_text pdf_file_path) as Hsource.
  destruct (source_document pdf_file_path) as [[content items]|] eqn:Hsrc;
    [|congruence].
  destruct Hsource as (_ & reader & Hread & Hview).
  assert ((content, items) ∈ omap source_document pdf_files) as Hin.
  { apply list_elem_of_omap. eauto. }
  apply list_elem_of_lookup in Hin as [i Hi].
  destruct (Forall2_lookup_r _ _ _ i
              (chunk_views (medical_splitter 500 50) (Z.of_nat i)
                 (content, items)) Hgroups)
    as (group & Hgroup & Hg); [by rewrite list_lookup_imap, Hi|].
  pose proof (chunk_views_nonempty (medical_splitter 500 50) (Z.of_nat i)
                content items
                (medical_splitter_well_configured 500 50 ltac:(lia))
                (stripped_ink _ (source_document_stripped _ _ _ Hsrc)))
    as Hne.
  destruct group as [|chunk group].
  { apply Forall2_nil_inv_l in Hg. done. }
  destruct (Forall2_lookup_l _ _ _ 0%nat chunk Hg eq_refl)
    as (cv & Hcv & Hchunkv).
  apply chunk_views_lookup in Hcv as (chunks & c & _ & _ & _ & ->).
  eexists (concat groups), embeddings, σ', chunk, c, _.
  split_and!; [done| |done|].
  - apply (elem_of_concat_2 _ (chunk :: group));
      [apply list_elem_of_here|by eapply list_elem_of_lookup_2].
  - rewrite enhanced_items_other by (apply not_chunk_key;
        repeat first [apply list_elem_of_here|apply list_elem_of_further]).
    injection Hview as -> ->. apply pdf_metadata_items.
Qed.

(** X11. The initializer touches nothing but the log, and it is never
    silent about a failure: it returns [None] if and only if one of the
    records it has logged is an error record. *)
Theorem initializer_logs_every_failure name σ :
  let run :=
    initialize_medical_embedding_model new_embeddings embed_query name σ in
  ∃ medical_embeddings records,
    run = (Ok medical_embeddings,
           State (heap σ) (next_loc σ) (log σ ++ records))
    ∧ (medical_embeddings = None
       ↔ Exists (λ record, levelname record = ERROR) records).
Proof.
  simpl.
  destruct (post_run _ _ _ (initialize_spec name σ))
    as (r & σ' & Hrun & medical_embeddings & records & -> & -> & Hiff).
  by exists medical_embeddings, records.
Qed.

Lemma initialize_result name σ1 σ2 :
  (initialize_medical_embedding_model new_embeddings embed_query name σ1).1
  = (initialize_medical_embedding_model new_embeddings embed_query name
       σ2).1.
Proof.
  unfold initialize_medical_embedding_model, try_except.
  unfold mbind, M_bind, logger, lift. simpl.
  destruct (new_embeddings _) as [m|error]; simpl; [|done].
  by destruct (embed_query m _) as [test_embedding|e].
Qed.

(** X12. [initialize_medical_embeddings] of [app.py] never raises and
    returns what the initializer of [helper.py] returns; the last record
    it logs is the success message, also when what it returns is [None].
    The handler of its [try] never runs. *)
Theorem initialize_medical_embeddings_reports_success_regardless σ :
  let run := initialize_medical_embeddings new_embeddings embed_query σ in
  ∃ embeddings_model,
    run.1 = Ok embeddings_model
    ∧ (initialize_medical_embedding_model new_embeddings embed_query
         default_model_name σ).1 = Ok embeddings_model
    ∧ heap run.2 = heap σ
    ∧ last (log run.2)
      = Some (LogRecord INFO
                [Lit "Medical embeddings model initialized successfully"]).
Proof.
  simpl.
  change (post (initialize_medical_embeddings new_embeddings embed_query) σ
            (λ r σ', ∃ embeddings_model,
               r = Ok embeddings_model
               ∧ (initialize_medical_embedding_model new_embeddings
                    embed_query default_model_name σ).1
                 = Ok embeddings_model
               ∧ heap σ' = heap σ
               ∧ last (log σ')
                 = Some (LogRecord INFO
                           [Lit "Medical embeddings model initialized successfully"]))).
  unfold initialize_medical_embeddings.
  apply post_try, post_bind, post_logger, post_bind.
  eapply post_mono.
  { apply post_and; [apply initialize_spec|].
    instantiate (1 := λ r _,
      r = (initialize_medical_embedding_model new_embeddings embed_query
             default_model_name σ).1).
    unfold post. apply initialize_result. }
  simpl. intros r σ1 [(m & records & -> & -> & _) Hr].
  apply post_bind, post_logger, post_ret. simpl. exists m.
  split_and!; [done..|]. by rewrite last_snoc.
Qed.

End compatibility_facts.

Lemma text_split_never_raises_witness :
  wf example_state
  ∧ ∃ text_chunks σ' records,
      text_split [1%nat] example_state = (Ok text_chunks, σ')
      ∧ log σ' = log example_state ++ text_split_deprecation :: records
      ∧ Forall (λ chunk, ∃ content items,
                  doc_view σ' chunk = Some (content, items)
                  ∧ (len content ≤ 500)%Z) text_chunks.
Proof.
  split; [apply example_state_wf|].
  apply (text_split_never_raises [1%nat] example_state).
  apply example_state_wf.
Defined.

Lemma store_index_chunks_come_from_files_witness :
  example_fs (lit "Documents/") = Directory example_files
  ∧ wf empty_state
  ∧ ∃ text_chunks embeddings σ',
      store_index example_fs offline_embeddings no_embedding empty_state
      = (Ok (text_chunks, embeddings), σ')
      ∧ Forall (λ chunk, ∃ content items pdf_file_path reader,
                  doc_view σ' chunk = Some (content, items)
                  ∧ (len content ≤ 500)%Z
                  ∧ pdf_file_path ∈ example_files
                  ∧ read_pdf pdf_file_path = Ok reader
                  ∧ items !! lit "source"
                    = Some (VStr (path_str pdf_file_path))
                  ∧ items !! lit "filename"
                    = Some (VStr (name pdf_file_path))
                  ∧ items !! lit "page_count"
                    = Some (VInt (len (pages reader)))) text_chunks.
Proof.
  split_and!; [reflexivity|apply empty_state_wf|].
  apply (store_index_chunks_come_from_files example_fs offline_embeddings
           no_embedding example_files empty_state);
    [reflexivity|apply empty_state_wf].
Defined.

Lemma store_index_chunks_every_file_with_text_witness :
  example_fs (lit "Documents/") = Directory example_files
  ∧ wf empty_state
  ∧ first_example_file ∈ example_files
  ∧ has_text first_example_file = true
  ∧ ∃ text_chunks embeddings σ' chunk content items,
      store_index example_fs offline_embeddings no_embedding empty_state
      = (Ok (text_chunks, embeddings), σ')
      ∧ chunk ∈ text_chunks
      ∧ doc_view σ' chunk = Some (content, items)
      ∧ items !! lit "source" = Some (VStr (path_str first_example_file)).
Proof.
  split_and!;
    [reflexivity|apply empty_state_wf|apply list_elem_of_here
    |reflexivity|].
  apply (store_index_chunks_every_file_with_text example_fs
           offline_embeddings no_embedding example_files empty_state
           first_example_file);
    [reflexivity|apply empty_state_wf|apply list_elem_of_here
    |reflexivity].
Defined.

(** ** The start-up of [app.py] *)

Section app_facts.
Local Open Scope Z_scope.
Context {HuggingFaceEmbeddings float VectorStore Retriever ChatGroq
         ChatPromptTemplate DocumentsChain RagChain : Type}.
Variable load_dotenv : gmap text text → result (gmap text text).
Variable new_embeddings :
  model_configuration → result HuggingFaceEmbeddings.
Variable embed_query : HuggingFaceEmbeddings → text → result (list float).
Variable from_existing_index :
  text → HuggingFaceEmbeddings → result VectorStore.
Variable as_retriever : VectorStore → text → Z → result Retriever.
Variable new_chat_groq : chat_configuration → result ChatGroq.
Variable system_prompt : text.
Variable from_messages : list (text * text) → result ChatPromptTemplate.
Variable create_stuff_documents_chain :
  ChatGroq → ChatPromptTemplate → result DocumentsChain.
Variable create_retrieval_chain :
  Retriever → DocumentsChain → result RagChain.

Implicit Types
  (w : @world HuggingFaceEmbeddings Retriever ChatGroq RagChain).

(** X13. When [load_dotenv] has run, [load_environment_configuration]
    leaves the environment variables as [load_dotenv] left them, and
    touches neither the globals nor the heap.  It returns the two keys
    only when both are set and not empty; otherwise it raises an
    [EnvironmentError] that names [PINECONE_API_KEY] when that key is
    missing or empty, whatever [GROQ_API_KEY] is, and [GROQ_API_KEY] only
    when the first key is present. *)
Theorem environment_configuration_needs_both_keys w environ :
  load_dotenv (os_environ w) = Ok environ →
  let run := load_environment_configuration load_dotenv w in
  let pinecone_api_key := environ !! lit "PINECONE_API_KEY" in
  let groq_api_key := environ !! lit "GROQ_API_KEY" in
  os_environ run.2 = environ
  ∧ module_globals run.2 = module_globals w
  ∧ heap (base run.2) = heap (base w)
  ∧ match run.1 with
    | Ok keys =>
        pinecone_api_key = Some keys.1 ∧ keys.1 ≠ []
        ∧ groq_api_key = Some keys.2 ∧ keys.2 ≠ []
    | Raise error =>
        exn_type error = OSError
        ∧ (truthy_str pinecone_api_key = false
           ∧ exn_message error
             = lit "PINECONE_API_KEY not found in environment variables"
           ∨ truthy_str pinecone_api_key = true
             ∧ truthy_str groq_api_key = false
             ∧ exn_message error
               = lit "GROQ_API_KEY not found in environment variables")
    end.
Proof.
  intros Hdotenv. simpl.
  unfold load_environment_configuration, app_try, call_load_dotenv.
  unfold mbind, App_bind, run, environ_get, environ_set, app_raise, logger.
  rewrite Hdotenv. simpl.
  destruct (environ !! lit "PINECONE_API_KEY") as [[|c p]|] eqn:Hp; simpl;
    [by eauto 10| |by eauto 10].
  destruct (environ !! lit "GROQ_API_KEY") as [[|c' g]|] eqn:Hg; simpl;
    [by eauto 10| |by eauto 10].
  split_and!; [|done..].
  rewrite (insert_id _ _ _ Hp). by rewrite (insert_id _ _ _ Hg).
Qed.

Lemma initialization_spec w :
  medical_rag_chain (module_globals w) = None →
  let run :=
    initialize_medical_chatbot_system load_dotenv new_embeddings embed_query
      from_existing_index as_retriever new_chat_groq system_prompt
      from_messages create_stuff_documents_chain create_retrieval_chain w in
  ∃ ready,
    run.1 = Ok ready
    ∧ (ready = true ↔ is_Some (medical_rag_chain (module_globals run.2)))
    ∧ (ready = true →
       is_Some (medical_embeddings_model (module_globals run.2))
       ∧ is_Some (medical_document_retriever (module_globals run.2))
       ∧ is_Some (medical_language_model (module_globals run.2))).
Proof.
  intros Hfresh. simpl.
  assert (∀ A (x : A), is_Some (Some x)) as Hsome by eauto.
  assert (∀ A, ¬ is_Some (@None A)) as Hnone by (intros A [? ?]; done).
  unfold initialize_medical_chatbot_system, load_environment_configuration.
  unfold setup_medical_vector_retriever, initialize_medical_language_model.
  unfold create_medical_rag_chain, initialize_medical_embeddings.
  unfold initialize_medical_embedding_model, try_except.
  unfold app_try, call_load_dotenv, get_globals, set_globals.
  unfold mbind, App_bind, M_bind, run, environ_get, environ_set, app_raise.
  unfold logger, lift. simpl.
  destruct (load_dotenv (os_environ w)) as [environ|e]; simpl.
  2:{ exists false.
      destruct (bool_decide _); simpl; rewrite ?Hfresh; naive_solver. }
  destruct (environ !! lit "PINECONE_API_KEY") as [[|c p]|]; simpl;
    [exists false; rewrite ?Hfresh; naive_solver|
    |exists false; rewrite ?Hfresh; naive_solver].
  destruct (environ !! lit "GROQ_API_KEY") as [[|c' g]|]; simpl;
    [exists false; rewrite ?Hfresh; naive_solver|
    |exists false; rewrite ?Hfresh; naive_solver].
  destruct (new_embeddings _) as [model|e]; simpl;
    [|exists false; rewrite ?Hfresh; naive_solver].
  destruct (embed_query model _) as [v|e]; simpl;
    [|exists false; rewrite ?Hfresh; naive_solver].
  destruct (from_existing_index _ model) as [vector_store|e]; simpl;
    [|exists false; rewrite ?Hfresh; naive_solver].
  destruct (as_retriever vector_store _ _) as [retriever|e]; simpl;
    [|exists false; rewrite ?Hfresh; naive_solver].
  destruct (new_chat_groq _) as [llm|e]; simpl;
    [|exists false; rewrite ?Hfresh; naive_solver].
  destruct (from_messages _) as [prompt|e]; simpl;
    [|exists false; naive_solver].
  destruct (create_stuff_documents_chain llm prompt) as [combine|e]; simpl;
    [|exists false; naive_solver].
  destruct (create_retrieval_chain retriever combine) as [chain|e]; simpl;
    [|exists false; naive_solver].
  exists true. naive_solver.
Qed.

(** X14. [initialize_medical_chatbot_system] never raises.  Started with
    the RAG chain unset, it returns [True] exactly when it leaves the
    global [medical_rag_chain] set, and then the embeddings model, the
    retriever and the language model are set as well. *)
Theorem chatbot_initialization_reports_readiness w :
  medical_rag_chain (module_globals w) = None →
  let run :=
    initialize_medical_chatbot_system load_dotenv new_embeddings embed_query
      from_existing_index as_retriever new_chat_groq system_prompt
      from_messages create_stuff_documents_chain create_retrieval_chain w in
  ∃ ready,
    run.1 = Ok ready
    ∧ (ready = true ↔ is_Some (medical_rag_chain (module_globals run.2)))
    ∧ (ready = true →
       is_Some (medical_embeddings_model (module_globals run.2))
       ∧ is_Some (medical_document_retriever (module_globals run.2))
       ∧ is_Some (medical_language_model (module_globals run.2))).
Proof. apply initialization_spec. Qed.

Variable invoke : RagChain → text → outcome (gmap text text).
Variable http_message : Z → text.
Implicit Types
  (g : @globals HuggingFaceEmbeddings Retriever ChatGroq RagChain)
  (request : Request) (l : list log_record).


(** X16. The endpoint leaves with an exception in one case only: the
    request is a POST with a [msg] field, the RAG chain is set, and
    invoking the chain on the stripped question raised a [KeyError]; the
    exception is that of [abort(400)]. *)
Theorem query_aborts_only_on_key_error request g l error :
  (process_medical_query invoke http_message request g l).1 = Throw error →
  error = HTTPException 400 (http_message 400)
  ∧ ∃ msg rag_chain message,
      method request = lit "POST"
      ∧ form request !! lit "msg" = Some msg
      ∧ medical_rag_chain g = Some rag_chain
      ∧ invoke rag_chain (strip msg) = Throw (KeyError message).
Proof.
  unfold process_medical_query, handler_try, abort, throw.
  unfold mbind, Handler_bind, handler_log, form_getitem. simpl.
  destruct (decide (method request = lit "POST")) as [Hpost|Hpost].
  2:{ by rewrite (bool_decide_eq_false_2 _ Hpost). }
  rewrite (bool_decide_eq_true_2 _ Hpost). simpl.
  destruct (form request !! lit "msg") as [msg|] eqn:Hmsg.
  2:{ rewrite bool_decide_eq_false_2; [done|]. by intros [? ?]. }
  rewrite bool_decide_eq_true_2 by eauto. simpl.
  destruct (truthy (strip msg)); simpl; [|done].
  destruct (1000 <? len (strip msg)); simpl; [done|].
  destruct (medical_rag_chain g) as [rag_chain|]; simpl; [|done].
  destruct (medical_document_retriever g); simpl; [|done].
  destruct (medical_language_model g); simpl; [|done].
  destruct (invoke rag_chain (strip msg)) as [rag_response|raised]
    eqn:Hinvoke; simpl.
  { by destruct (rag_response !! lit "answer"). }
  destruct raised; simpl; try done.
  intros [= <-]. split; [done|]. eauto 10.
Qed.

(** X17. The answers follow the start-up.  For a POST whose question is
    not blank and has at most 1000 characters after stripping: when the
    start-up returned [False], the answer is that the assistant is
    unavailable, and the chain is not consulted; when it returned [True],
    the RAG chain is set, and an answer of the chain comes back stripped
    and followed by the disclaimer. *)
Theorem queries_follow_initialization w request msg l :
  medical_rag_chain (module_globals w) = None →
  method request = lit "POST" →
  form request !! lit "msg" = Some msg →
  ink msg = true →
  len (strip msg) ≤ 1000 →
  let started :=
    initialize_medical_chatbot_system load_dotenv new_embeddings embed_query
      from_existing_index as_retriever new_chat_groq system_prompt
      from_messages create_stuff_documents_chain create_retrieval_chain w in
  let g := module_globals started.2 in
  let served := (process_medical_query invoke http_message request g l).1 in
  (started.1 = Ok false →
   served
   = Return (lit "Sorry, the medical AI assistant is currently unavailable. "
             ++ lit "Please try again later or consult with a healthcare professional."))
  ∧ (started.1 = Ok true →
     ∃ rag_chain,
       medical_rag_chain g = Some rag_chain
       ∧ ∀ rag_response answer,
           invoke rag_chain (strip msg) = Return rag_response →
           rag_response !! lit "answer" = Some answer →
           served = Return (strip answer ++ medical_disclaimer)).
Proof.
  intros Hfresh Hpost Hmsg Hink Hlen started g served.
  destruct (initialization_spec w Hfresh)
    as (ready & Hready & Hiff & Hall).
  cbv zeta in Hready, Hiff, Hall.
  fold started in Hready, Hiff, Hall. fold g in Hiff, Hall.
  rewrite Hready. subst served. clearbody g. clear Hready started.
  unfold process_medical_query, handler_try, abort, throw.
  unfold mbind, Handler_bind, handler_log, form_getitem. simpl.
  rewrite (bool_decide_eq_true_2 _ Hpost). simpl. rewrite Hmsg.
  rewrite bool_decide_eq_true_2 by eauto. simpl.
  rewrite strip_truthy, Hink. simpl.
  rewrite (proj2 (Z.ltb_ge _ _)) by lia. simpl.
  split.
  - intros [= ->].
    destruct (medical_rag_chain g) as [rag_chain|] eqn:Hchain; [|done].
    assert (false = true) by (apply Hiff; eauto). done.
  - intros [= ->].
    destruct (Hall eq_refl) as (_ & [retriever ->] & [llm ->]).
    destruct (proj1 Hiff eq_refl) as [rag_chain ->].
    exists rag_chain. split; [done|].
    intros rag_response answer -> Hanswer. simpl. by rewrite Hanswer.
Qed.

End app_facts.

Lemma environment_configuration_needs_both_keys_witness :
  example_dotenv (os_environ example_world) = Ok example_environ
  ∧ let run := load_environment_configuration example_dotenv example_world in
    let pinecone_api_key := example_environ !! lit "PINECONE_API_KEY" in
    let groq_api_key := example_environ !! lit "GROQ_API_KEY" in
    os_environ run.2 = example_environ
    ∧ module_globals run.2 = module_globals example_world
    ∧ heap (base run.2) = heap (base example_world)
    ∧ match run.1 with
      | Ok keys =>
          pinecone_api_key = Some keys.1 ∧ keys.1 ≠ []
          ∧ groq_api_key = Some keys.2 ∧ keys.2 ≠ []
      | Raise error =>
          exn_type error = OSError
          ∧ (truthy_str pinecone_api_key = false
             ∧ exn_message error
               = lit "PINECONE_API_KEY not found in environment variables"
             ∨ truthy_str pinecone_api_key = true
               ∧ truthy_str groq_api_key = false
               ∧ exn_message error
                 = lit "GROQ_API_KEY not found in environment variables")
      end.
Proof.
  split; [reflexivity|].
  apply (environment_configuration_needs_both_keys example_dotenv
           example_world example_environ).
  reflexivity.
Defined.

Lemma chatbot_initialization_reports_readiness_witness :
  medical_rag_chain (module_globals example_world) = None
  ∧ ∃ ready,
      (example_start example_world).1 = Ok ready
      ∧ (ready = true
         ↔ is_Some (medical_rag_chain
                      (module_globals (example_start example_world).2)))
      ∧ (ready = true →
         is_Some (medical_embeddings_model
                    (module_globals (example_start example_world).2))
         ∧ is_Some (medical_document_retriever
                      (module_globals (example_start example_world).2))
         ∧ is_Some (medical_language_model
                      (module_globals (example_start example_world).2))).
Proof.
  split; [reflexivity|].
  apply (chatbot_initialization_reports_readiness (float := Z)
           (VectorStore := unit) (ChatPromptTemplate := unit)
           (DocumentsChain := unit)
           example_dotenv (λ _, Ok ()) (λ _ _, Ok []) (λ _ _, Ok ())
           (λ _ _ _, Ok ()) (λ _, Ok ()) [] (λ _, Ok ()) (λ _ _, Ok ())
           (λ _ _, Ok ()) example_world).
  reflexivity.
Defined.


Lemma query_aborts_only_on_key_error_witness :
  (process_medical_query failing_chain example_http_message example_request
     ready_globals []).1
  = Throw (HTTPException 400 (example_http_message 400))
  ∧ HTTPException 400 (example_http_message 400)
    = HTTPException 400 (example_http_message 400)
  ∧ ∃ msg rag_chain message,
      method example_request = lit "POST"
      ∧ form example_request !! lit "msg" = Some msg
      ∧ medical_rag_chain ready_globals = Some rag_chain
      ∧ failing_chain rag_chain (strip msg) = Throw (KeyError message).
Proof.
  assert ((process_medical_query failing_chain example_http_message
             example_request ready_globals []).1
          = Throw (HTTPException 400 (example_http_message 400))) as Hrun.
  { vm_compute. reflexivity. }
  split; [exact Hrun|].
  apply (query_aborts_only_on_key_error failing_chain example_http_message
           example_request ready_globals [] _ Hrun).
Defined.

Lemma queries_follow_initialization_witness :
  medical_rag_chain (module_globals example_world) = None
  ∧ method example_request = lit "POST"
  ∧ form example_request !! lit "msg" = Some (lit " Fever? ")
  ∧ ink (lit " Fever? ") = true
  ∧ (len (strip (lit " Fever? ")) ≤ 1000)%Z
  ∧ let started := example_start example_world in
    let g := module_globals started.2 in
    let served :=
      (process_medical_query example_chain example_http_message
         example_request g []).1 in
    (started.1 = Ok false →
     served
     = Return (lit "Sorry, the medical AI assistant is currently unavailable. "
               ++ lit "Please try again later or consult with a healthcare professional."))
    ∧ (started.1 = Ok true →
       ∃ rag_chain,
         medical_rag_chain g = Some rag_chain
         ∧ ∀ rag_response answer,
             example_chain rag_chain (strip (lit " Fever? "))
             = Return rag_response →
             rag_response !! lit "answer" = Some answer →
             served = Return (strip answer ++ medical_disclaimer)).
Proof.
  assert (len (strip (lit " Fever? ")) ≤ 1000)%Z as Hlen.
  { vm_compute. discriminate. }
  split_and!; [reflexivity|reflexivity|reflexivity|reflexivity|exact Hlen|].
  apply (queries_follow_initialization (float := Z)
           (VectorStore := unit) (ChatPromptTemplate := unit)
           (DocumentsChain := unit)
           example_dotenv (λ _, Ok ()) (λ _ _, Ok []) (λ _ _, Ok ())
           (λ _ _ _, Ok ()) (λ _, Ok ()) [] (λ _, Ok ()) (λ _ _, Ok ())
           (λ _ _, Ok ()) example_chain example_http_message example_world
           example_request (lit " Fever? ") []);
    [reflexivity|reflexivity|reflexivity|reflexivity|exact Hlen].
Defined.

(** ** The keyword matching of [simple_app.py] *)

Section simple_app_facts.
Import SimpleApp.
Local Open Scope Z_scope.
Implicit Types (s sub : text) (σ : state).

Lemma startswith_spec sub s :
  startswith sub s = true ↔ ∃ rest, s = sub ++ rest.
Proof.
  revert s. induction sub as [|p sub IH]; intros s; simpl.
  { split; [eauto|done]. }
  destruct s as [|c s].
  { split; [done|]. by intros [rest ?]. }
  rewrite andb_true_iff, bool_decide_eq_true, IH. split.
  - intros [-> [rest ->]]. eauto.
  - intros [rest [= -> ->]]. eauto.
Qed.

Lemma contains_spec sub s :
  contains sub s = true ↔ substring_of sub s.
Proof.
  unfold substring_of. induction s as [|c s IH]; simpl.
  - rewrite orb_false_r, startswith_spec. split.
    + intros [rest ->]. by exists [], rest.
    + intros (before & after & Heq). symmetry in Heq.
      apply app_eq_nil in Heq as [-> Heq].
      apply app_eq_nil in Heq as [-> ->]. by exists [].
  - rewrite orb_true_iff, startswith_spec, IH. split.
    + intros [[rest ->]|(before & after & ->)].
      * by exists [], rest.
      * by exists (c :: before), after.
    + intros ([|c' before] & after & Heq); simpl in Heq.
      * left. eauto.
      * right. injection Heq as -> ->. eauto.
Qed.

Lemma contains_trans s t u :
  contains s t = true → contains t u = true → contains s u = true.
Proof. rewrite !contains_spec. apply substring_of_trans. Qed.

(** X18. A question about a headache that names none of the three
    conditions gets the answer about pain, not the answer about
    headaches: [ache] is found inside [headache], and the pain keywords
    are tried first. *)
Theorem headache_questions_get_the_pain_answer user_question σ :
  contains (lit "headache") (lower user_question) = true →
  (∀ condition info, (condition, info) ∈ MEDICAL_KNOWLEDGE →
                     contains condition (lower user_question) = false) →
  get_medical_response user_question σ = (Ok pain_answer, σ).
Proof.
  intros Hheadache Hnone.
  assert (contains (lit "ache") (lower user_question) = true) as Hache.
  { eapply contains_trans; [|done]. vm_compute. reflexivity. }
  unfold get_medical_response, try_except, MEDICAL_KNOWLEDGE in *.
  cbn [check_conditions].
  do 3 (erewrite Hnone
          by (repeat first [apply list_elem_of_here
                           |apply list_elem_of_further])).
  unfold any_in. cbn [existsb]. rewrite Hache, !orb_true_r. done.
Qed.

Lemma check_conditions_head knowledge user_question_lower response :
  check_conditions knowledge user_question_lower = Some response →
  head response = Some "R"%char ∨ head response = Some "A"%char.
Proof.
  induction knowledge as [|[condition info] rest IH]; simpl; [done|].
  repeat case_match; try done; intros [= <-]; auto.
Qed.

(** An answer that starts with another character than the expected
    one. *)
Ltac other_answer :=
  let H := fresh in
  intros H;
  apply (f_equal (λ r, match r with Ok s => head s | Raise _ => None end))
    in H;
  vm_compute in H; discriminate H.

(** X19. The answer about headaches is given only to a question that
    says [migraine] and does not say [headache]. *)
Theorem headache_answer_needs_migraine user_question σ :
  (get_medical_response user_question σ).1 = Ok headache_answer →
  contains (lit "migraine") (lower user_question) = true
  ∧ contains (lit "headache") (lower user_question) = false.
Proof.
  unfold get_medical_response, try_except.
  destruct (check_conditions MEDICAL_KNOWLEDGE (lower user_question))
    as [response|] eqn:Hcheck.
  { simpl. intros [= ->]. apply check_conditions_head in Hcheck.
    vm_compute in Hcheck. by destruct Hcheck. }
  unfold any_in. cbn [existsb].
  destruct (contains (lit "ache") (lower user_question)) eqn:Hache.
  { rewrite !orb_true_r. simpl. other_answer. }
  assert (contains (lit "headache") (lower user_question) = false)
    as Hheadache.
  { destruct (contains (lit "headache") (lower user_question)) eqn:Hh;
      [|done].
    rewrite <-Hache. symmetry. eapply contains_trans; [|done].
    vm_compute. reflexivity. }
  rewrite Hheadache.
  destruct (contains (lit "pain") (lower user_question)
            || (contains (lit "hurt") (lower user_question) || (false || false)));
    simpl.
  { other_answer. }
  destruct (contains (lit "fever") (lower user_question)
            || (contains (lit "temperature") (lower user_question) || false));
    simpl.
  { other_answer. }
  destruct (contains (lit "migraine") (lower user_question)); simpl; [done|].
  other_answer.
Qed.



End simple_app_facts.

Lemma headache_questions_get_the_pain_answer_witness :
  SimpleApp.contains (lit "headache")
    (SimpleApp.lower (lit "I have a HEADACHE")) = true
  ∧ (∀ condition info,
       (condition, info) ∈ SimpleApp.MEDICAL_KNOWLEDGE →
       SimpleApp.contains condition
         (SimpleApp.lower (lit "I have a HEADACHE")) = false)
  ∧ SimpleApp.get_medical_response (lit "I have a HEADACHE") empty_state
    = (Ok pain_answer, empty_state).
Proof.
  assert (∀ condition info,
            (condition, info) ∈ SimpleApp.MEDICAL_KNOWLEDGE →
            SimpleApp.contains condition
              (SimpleApp.lower (lit "I have a HEADACHE")) = false)
    as Hnone.
  { intros condition info. unfold SimpleApp.MEDICAL_KNOWLEDGE.
    rewrite !elem_of_cons, elem_of_nil.
    intros [[= -> ->]|[[= -> ->]|[[= -> ->]|[]]]]; reflexivity. }
  split_and!; [reflexivity|exact Hnone|].
  apply (headache_questions_get_the_pain_answer (lit "I have a HEADACHE")
           empty_state); [reflexivity|exact Hnone].
Defined.

Lemma headache_answer_needs_migraine_witness :
  (SimpleApp.get_medical_response (lit "Migraine again") empty_state).1
  = Ok headache_answer
  ∧ SimpleApp.contains (lit "migraine")
      (SimpleApp.lower (lit "Migraine again")) = true
  ∧ SimpleApp.contains (lit "headache")
      (SimpleApp.lower (lit "Migraine again")) = false.
Proof.
  assert ((SimpleApp.get_medical_response (lit "Migraine again")
             empty_state).1 = Ok headache_answer) as Hrun.
  { vm_compute. reflexivity. }
  split; [exact Hrun|].
  apply (headache_answer_needs_migraine (lit "Migraine again") empty_state
           Hrun).
Defined.

(** ** The statistics that the splitter logs *)

Section statistics.
Local Open Scope Z_scope.
Implicit Types (σ : state) (sizes : list Z).

Lemma Forall2_concat {A B} (P : A → B → Prop) ls ks :
  Forall2 (Forall2 P) ls ks → Forall2 P (concat ls) (concat ks).
Proof.
  induction 1 as [|l k ls ks Hlk _ IH]; simpl; [constructor|].
  by apply Forall2_app.
Qed.

Lemma foldr_min_spec x sizes :
  foldr Z.min x sizes ∈ x :: sizes
  ∧ Forall (λ size, foldr Z.min x sizes ≤ size) (x :: sizes).
Proof.
  induction sizes as [|y sizes [Hin Hle]]; simpl.
  { split; [apply list_elem_of_here|]. constructor; [lia|constructor]. }
  apply Forall_cons in Hle as [Hx Hle]. split.
  - destruct (Z.min_spec y (foldr Z.min x sizes)) as [[_ ->]|[_ ->]].
    + apply list_elem_of_further, list_elem_of_here.
    + apply elem_of_cons in Hin as [->|Hin];
        [apply list_elem_of_here|by do 2 apply list_elem_of_further].
  - repeat constructor; [lia..|].
    eapply Forall_impl; [done|]. simpl. lia.
Qed.

Lemma foldr_max_spec x sizes :
  foldr Z.max x sizes ∈ x :: sizes
  ∧ Forall (λ size, size ≤ foldr Z.max x sizes) (x :: sizes).
Proof.
  induction sizes as [|y sizes [Hin Hle]]; simpl.
  { split; [apply list_elem_of_here|]. constructor; [lia|constructor]. }
  apply Forall_cons in Hle as [Hx Hle]. split.
  - destruct (Z.max_spec y (foldr Z.max x sizes)) as [[_ ->]|[_ ->]].
    + apply elem_of_cons in Hin as [->|Hin];
        [apply list_elem_of_here|by do 2 apply list_elem_of_further].
    + apply list_elem_of_further, list_elem_of_here.
  - repeat constructor; [lia..|].
    eapply Forall_impl; [done|]. simpl. lia.
Qed.

(** The statistics are those of the chunks: the sizes are read off the
    chunks in order, and the two records are appended to the log. *)
Lemma log_statistics_records all contents σ :
  all ≠ [] →
  Forall2 (λ l c, ∃ m, heap σ !! l = Some (Document c m)) all contents →
  post (log_statistics all) σ
    (λ r σ', ∃ smallest largest,
       r = Ok ()
       ∧ py_min (len <$> contents) = Ok smallest
       ∧ py_max (len <$> contents) = Ok largest
       ∧ σ' = State (heap σ) (next_loc σ)
                (log σ
                 ++ [average_record (py_sum (len <$> contents))
                       (len contents);
                     range_record smallest largest])).
Proof.
  intros Hne Hall. pose proof (Forall2_length _ _ _ Hall) as Hlen.
  unfold log_statistics. apply post_bind.
  apply (post_for_each (λ k chunk_sizes σ1,
           σ1 = σ ∧ chunk_sizes = len <$> take k contents)).
  - by rewrite take_0.
  - intros k l chunk_sizes σ1 Hl [-> ->].
    destruct (Forall2_lookup_l _ _ _ _ _ Hall Hl) as (c & Hc & m & Hm).
    apply post_bind. eapply post_get_page_content; [done|].
    apply post_ret. split; [done|].
    erewrite take_S_r by done. by rewrite fmap_app.
  - intros chunk_sizes σ1 [-> ->]. rewrite Hlen, firstn_all.
    destruct contents as [|c contents].
    { destruct all; [done|]. simpl in Hlen. lia. }
    apply post_bind, post_lift. unfold py_mean.
    replace (len (len <$> c :: contents)) with (len (c :: contents))
      by (unfold len; by rewrite length_fmap).
    destruct (len (c :: contents) =? 0) eqn:Hzero.
    { apply Z.eqb_eq in Hzero. unfold len in Hzero. simpl in Hzero. lia. }
    apply post_bind, post_logger, post_bind, post_lift.
    rewrite fmap_cons. cbn [py_min py_max].
    apply post_bind, post_lift, post_logger.
    eexists _, _. split_and!; [done..|]. simpl.
    by rewrite <-app_assoc.
Qed.

(** X21. The statistics in the log are those of the chunks returned:
    when the splitter returns at least one chunk, the last two records of
    the log are the average, computed from the sum of the chunk lengths
    and the number of chunks, and the range, whose two ends are the
    lengths of a shortest and of a longest chunk. *)
Theorem split_logs_statistics_of_the_chunks
  documents views chunk_size chunk_overlap σ :
  0 ≤ chunk_overlap < chunk_size →
  wf σ → documents_at σ documents views →
  ∃ chunks σ',
    split_documents_into_semantic_chunks documents chunk_size
      chunk_overlap σ = (Ok chunks, σ')
    ∧ (chunks ≠ [] →
       ∃ sizes smallest largest records,
         Forall2 (λ chunk size, ∃ content items,
                    doc_view σ' chunk = Some (content, items)
                    ∧ size = len content) chunks sizes
         ∧ log σ'
           = records ++ [average_record (py_sum sizes) (len chunks);
                         range_record smallest largest]
         ∧ smallest ∈ sizes ∧ largest ∈ sizes
         ∧ Forall (λ size, smallest ≤ size ≤ largest) sizes).
Proof.
  intros Hvalid Hwf Hdocs.
  assert (post (split_documents_into_semantic_chunks documents chunk_size
                  chunk_overlap) σ
            (λ r σ', ∃ chunks,
               r = Ok chunks
               ∧ (chunks ≠ [] →
                  ∃ sizes smallest largest records,
                    Forall2 (λ chunk size, ∃ content items,
                               doc_view σ' chunk = Some (content, items)
                               ∧ size = len content) chunks sizes
                    ∧ log σ'
                      = records
                        ++ [average_record (py_sum sizes) (len chunks);
                            range_record smallest largest]
                    ∧ smallest ∈ sizes ∧ largest ∈ sizes
                    ∧ Forall (λ size, smallest ≤ size ≤ largest) sizes)))
    as Hpost.
  2:{ destruct (post_run _ _ _ Hpost) as (r & σ' & Hrun & chunks & -> & ?).
      by exists chunks, σ'. }
  unfold split_documents_into_semantic_chunks. apply post_try.
  apply post_bind, post_logger, post_bind, post_logger.
  unfold when.
  rewrite (proj2 (Z.leb_gt chunk_size 0)) by lia.
  rewrite (proj2 (Z.ltb_ge chunk_overlap 0)) by lia.
  rewrite (proj2 (Z.leb_gt chunk_size chunk_overlap)) by lia.
  do 3 (apply post_bind, post_ret).
  destruct documents as [|document documents].
  { simpl. apply post_bind, post_logger, post_ret. by exists []. }
  cbn [truthy negb]. apply post_bind, post_lift.
  unfold LangChain.RecursiveCharacterTextSplitter.
  rewrite (proj2 (Z.leb_gt chunk_size 0)) by lia.
  rewrite (proj2 (Z.ltb_ge chunk_overlap 0)) by lia.
  rewrite (proj2 (Z.ltb_ge chunk_size chunk_overlap)) by lia.
  apply post_bind. eapply post_mono.
  { eapply (chunk_documents_spec (medical_splitter chunk_size chunk_overlap));
      [|done]. by do 2 apply wf_log. }
  simpl. intros r σ1 (groups & -> & Hwf1 & Hext1 & Hgroups).
  apply Forall2_concat in Hgroups.
  set (chunks := concat groups) in *.
  set (expected := concat (imap _ views)) in *.
  apply post_bind, post_logger, post_bind.
  destruct (truthy chunks) eqn:Hall.
  2:{ apply post_ret, post_ret. exists chunks. split; [done|].
      intros Hne. apply truthy_true in Hne. congruence. }
  eapply post_mono.
  { eapply (log_statistics_records chunks (fst <$> expected));
      [by apply truthy_true|].
    apply Forall2_fmap_r. eapply Forall2_impl; [done|]. simpl.
    intros l [c items] Hl. apply doc_view_Some in Hl as (m & ? & ?).
    eauto. }
  simpl. intros r σ2 (smallest & largest & -> & Hmin & Hmax & ->).
  apply post_ret. exists chunks. split; [done|]. intros _.
  set (sizes := len <$> (fst <$> expected)) in *.
  eexists sizes, smallest, largest, _. split_and!.
  - unfold sizes. do 2 apply Forall2_fmap_r.
    eapply Forall2_impl; [done|]. simpl. intros l [c items] Hl.
    exists c, items. split; [|done]. done.
  - simpl. f_equal. f_equal. f_equal.
    unfold len. rewrite length_fmap.
    by rewrite (Forall2_length _ _ _ Hgroups).
  - destruct sizes as [|x sizes']; [done|]. injection Hmin as <-.
    apply foldr_min_spec.
  - destruct sizes as [|x sizes']; [done|]. injection Hmax as <-.
    apply foldr_max_spec.
  - destruct sizes as [|x sizes']; [done|].
    injection Hmin as <-. injection Hmax as <-.
    pose proof (proj2 (foldr_min_spec x sizes')) as Hlo.
    pose proof (proj2 (foldr_max_spec x sizes')) as Hhi.
    rewrite Forall_forall in Hlo. rewrite Forall_forall in Hhi.
    apply Forall_forall. intros size Hsize. split; auto.
Qed.

Lemma split_logs_statistics_of_the_chunks_witness :
  0 ≤ 1 < 4 ∧ wf example_state
  ∧ documents_at example_state [1%nat] example_views
  ∧ ∃ chunks σ',
      split_documents_into_semantic_chunks [1%nat] 4 1 example_state
      = (Ok chunks, σ')
      ∧ (chunks ≠ [] →
         ∃ sizes smallest largest records,
           Forall2 (λ chunk size, ∃ content items,
                      doc_view σ' chunk = Some (content, items)
                      ∧ size = len content) chunks sizes
           ∧ log σ'
             = records ++ [average_record (py_sum sizes) (len chunks);
                           range_record smallest largest]
           ∧ smallest ∈ sizes ∧ largest ∈ sizes
           ∧ Forall (λ size, smallest ≤ size ≤ largest) sizes).
Proof.
  split_and!; [lia..|apply example_state_wf|apply example_documents|].
  apply (split_logs_statistics_of_the_chunks [1%nat] example_views 4 1
           example_state);
    [lia|apply example_state_wf|apply example_documents].
Defined.

End statistics.

(** ** The transcription tool *)

Section transcription_facts.
Import Transcription.
Local Open Scope Z_scope.
Context {Whisper : Type}.
Variable http_str : Z → list fragment → list fragment.
Variable MODEL_SIZE OLLAMA_HOST OLLAMA_MODEL : text.
Variable load_model : text → outcome Whisper.
Variable model_transcribe : Whisper → text → outcome (gmap text text).
Variable requests_post : text → Payload → Z → outcome Response.
Implicit Types (s : @tool_state Whisper).

(** X22. The speech model is loaded at most once.  When [get_model]
    returns a model the model is cached: a later call returns the same
    model, leaves the state as it is and does not consult the loader,
    whatever the loader would answer.  When loading fails the cache stays
    empty, so that the next call tries again. *)
Theorem whisper_model_is_loaded_once s :
  match get_model MODEL_SIZE load_model s with
  | (Return model, s') =>
      _model s' = Some model
      ∧ ∀ load_model', get_model MODEL_SIZE load_model' s'
                       = (Return model, s')
  | (Throw e, s') => _model s = None ∧ _model s' = None
  end.
Proof.
  unfold get_model. destruct (_model s) as [model|] eqn:Hmodel.
  { split; [done|]. intros load_model'. by rewrite Hmodel. }
  unfold mbind, Tool_bind, tool_log, call. simpl.
  by destruct (load_model MODEL_SIZE) as [model|e].
Qed.

(** X23. What [transcribe_audio] returns is the [text] entry of the
    result of the speech model, stripped.  Whatever fails (loading the
    model, the transcription, a result without the entry) is raised as a
    plain [Exception] whose message starts with
    ["Failed to transcribe audio: "]. *)
Theorem transcribe_audio_strips_or_wraps audio_path s :
  match (transcribe_audio http_str MODEL_SIZE load_model model_transcribe
           audio_path s).1 with
  | Return transcript =>
      ∃ model result raw,
        model_transcribe model audio_path = Return result
        ∧ result !! lit "text" = Some raw
        ∧ transcript = strip raw
  | Throw e =>
      ∃ message,
        e = Exception (Lit "Failed to transcribe audio: " :: message)
  end.
Proof.
  unfold transcribe_audio, tool_try, get_model, getitem.
  unfold mbind, Tool_bind, tool_log, call, throw. simpl.
  destruct (_model s) as [model|]; simpl.
  - destruct (model_transcribe model audio_path) as [result|e] eqn:Hresult;
      simpl; [|eauto 10].
    destruct (result !! lit "text") as [raw|] eqn:Hraw; simpl; eauto 10.
  - destruct (load_model MODEL_SIZE) as [model|e]; simpl; [|eauto 10].
    destruct (model_transcribe model audio_path) as [result|e] eqn:Hresult;
      simpl; [|eauto 10].
    destruct (result !! lit "text") as [raw|] eqn:Hraw; simpl; eauto 10.
Qed.

Lemma cleanup_transcript_spec transcript s :
  match (cleanup_transcript http_str OLLAMA_HOST OLLAMA_MODEL requests_post
           transcript s).1 with
  | Return cleaned_text =>
      stripped cleaned_text
      ∧ ∃ payload response,
          requests_post (OLLAMA_HOST ++ lit "/api/generate") payload 300
          = Return response
          ∧ prompt payload = cleanup_prompt transcript
          ∧ status_code response = 200
  | Throw e => ∃ message, e = Exception message
  end.
Proof.
  unfold cleanup_transcript, tool_try.
  unfold mbind, Tool_bind, tool_log, call, throw. simpl.
  destruct (requests_post _ _ _) as [response|e] eqn:Hpost; simpl.
  2:{ destruct e; simpl; eauto. }
  destruct (status_code response =? 200) eqn:Hstatus; simpl; [|by eauto].
  destruct (response_json response) as [result|e]; simpl.
  2:{ destruct e; simpl; eauto. }
  destruct (truthy (strip (default [] (result !! lit "response"))))
    eqn:Htext; simpl; [|by eauto].
  split.
  - split_and!; [by apply truthy_true|apply strip_head|apply strip_last].
  - eexists _, response. split_and!; [done|done|]. by apply Z.eqb_eq.
Qed.

(** X24. What [cleanup_transcript] returns is never blank: it is not
    empty and has no whitespace at either end, and it comes from an
    answer of the language model service with status 200 to the prompt
    built from the transcript.  Everything else ends in a plain
    [Exception]. *)
Theorem cleanup_transcript_returns_text_or_raises transcript s :
  match (cleanup_transcript http_str OLLAMA_HOST OLLAMA_MODEL requests_post
           transcript s).1 with
  | Return cleaned_text =>
      stripped cleaned_text
      ∧ ∃ payload response,
          requests_post (OLLAMA_HOST ++ lit "/api/generate") payload 300
          = Return response
          ∧ prompt payload = cleanup_prompt transcript
          ∧ status_code response = 200
  | Throw e => ∃ message, e = Exception message
  end.
Proof. apply cleanup_transcript_spec. Qed.


End transcription_facts.
